(** * Provenance-tracking JSON merge and schema traversal

    A shallow embedding of [src/JsonProcessor.ts], [src/SchemaTraverser.ts]
    and [src/SchemaEnricher.ts], the properties of them that the
    specification states, and further properties of the code.

    Conventions of the embedding:
    - a JavaScript value is a [jsval]; numbers are integers ([Z]), since no
      operation of the program does arithmetic on them;
    - a plain object is the list of its own enumerable string-keyed
      properties in insertion order ([Object.keys] order; the keys that
      look like array indices, which JavaScript enumerates first, are not
      set apart); its keys are pairwise distinct ([wf]);
    - the prototype of an object is not part of a [jsval]. The embedding
      follows the own properties of the objects: it is the program on
      objects whose prototype is [Object.prototype], read at keys that
      [Object.prototype] does not define ([inherited]), where a key that
      the object does not own reads as [undefined]. An assignment to the
      key [__proto__] of an object that does not own it runs the setter of
      [Object.prototype] and creates no own property ([set_field]); the
      prototype that the setter installs when the value is an object or
      [null] is not followed. The statements exclude the keys for which
      this matters;
    - the one non-enumerable property the program defines, the function
      stored under [GET_METADATA_SYMBOL], is the [meta] component of [VObj]:
      [Some cm] is the closure over the [Map] [cm], [None] is an object
      without the property;
    - a [Map<string, PathMetadata>] and the [Record<string, PathMetadata>]
      returned to the caller are [gmap string PathMetadata]: the program
      only gets, sets and deletes their entries;
    - lodash's [cloneDeep], [isEqual], [isObject] and [isArray] are modelled
      after lodash 4.17: [cloneDeep] copies own enumerable properties only,
      so a clone never carries the [GET_METADATA_SYMBOL] property, and
      [isEqual] compares own enumerable properties only. *)

From stdpp Require Import gmap strings list fin_maps pretty.
From Stdlib Require Import ZArith Lia Ascii.

#[local] Set Warnings "-clear-no-such-hyp".

Local Open Scope string_scope.
Local Open Scope list_scope.

(** ** Values *)

(** [PathMetadata] of [src/types.ts]. *)
Record PathMetadataOf (V : Type) : Type := mkPathMetadata {
  sourceId : V;
  path : string;
  value : V
}.
Arguments mkPathMetadata {V} _ _ _.
Arguments sourceId {V} _.
Arguments path {V} _.
Arguments value {V} _.

Unset Elimination Schemes.
Inductive jsval : Type :=
| VUndef
| VNull
| VBool (b : bool)
| VNum (n : Z)
| VStr (s : string)
| VArr (items : list jsval)
| VObj (meta : option (gmap string (PathMetadataOf jsval)))
       (fields : list (string * jsval)).
Set Elimination Schemes.

Abbreviation PathMetadata := (PathMetadataOf jsval).
Abbreviation MetadataMap := (gmap string (PathMetadataOf jsval)).
Abbreviation fieldlist := (list (string * jsval)).

(** Induction over the data of a value: elements of sequences and values of
    properties (the records behind [meta] are not descended into). *)
Section jsval_induction.
Variable P : jsval -> Prop.
Hypothesis HUndef : P VUndef.
Hypothesis HNull : P VNull.
Hypothesis HBool : forall b, P (VBool b).
Hypothesis HNum : forall n, P (VNum n).
Hypothesis HStr : forall s, P (VStr s).
Hypothesis HArr : forall xs, Forall P xs -> P (VArr xs).
Hypothesis HObj : forall m fs, Forall (fun kv => P (snd kv)) fs -> P (VObj m fs).

Fixpoint jsval_ind (v : jsval) : P v :=
  match v with
  | VUndef => HUndef
  | VNull => HNull
  | VBool b => HBool b
  | VNum n => HNum n
  | VStr s => HStr s
  | VArr xs =>
      HArr xs ((fix all (l : list jsval) : Forall P l :=
                  match l with
                  | [] => @List.Forall_nil _ P
                  | x :: r => @List.Forall_cons _ P x r (jsval_ind x) (all r)
                  end) xs)
  | VObj m fs =>
      HObj m fs ((fix all (l : fieldlist) : Forall (fun kv => P (snd kv)) l :=
                    match l with
                    | [] => @List.Forall_nil _ _
                    | kv :: r =>
                        @List.Forall_cons _ _ kv r (jsval_ind (snd kv)) (all r)
                    end) fs)
  end.
End jsval_induction.

(** *** Own properties of an object *)

(** [Object.prototype.hasOwnProperty.call(obj, key)] and [obj[key]] on the
    property list. *)
Fixpoint get_field (key : string) (fs : fieldlist) : option jsval :=
  match fs with
  | [] => None
  | (k, v) :: r => if String.eqb k key then Some v else get_field key r
  end.

(** The names of the members of [Object.prototype]: what [obj[key]] reads
    at such a key, when [obj] does not own the key, is the inherited
    member and not [undefined]. *)
Definition inherited (key : string) : bool :=
  bool_decide
    (key ∈ ["__proto__"; "constructor"; "hasOwnProperty"; "isPrototypeOf";
            "propertyIsEnumerable"; "toLocaleString"; "toString"; "valueOf";
            "__defineGetter__"; "__defineSetter__"; "__lookupGetter__";
            "__lookupSetter__"]).

(** [obj[key] = v]: an existing property keeps its place, a new one goes
    last. The key [__proto__] of an object that does not own it is the
    accessor of [Object.prototype]: the assignment runs its setter and
    creates no own property (with an object or [null] for [v] the setter
    replaces the prototype of [obj], with any other value it does
    nothing). *)
Fixpoint set_field (key : string) (v : jsval) (fs : fieldlist) : fieldlist :=
  match fs with
  | [] => if String.eqb key "__proto__" then [] else [(key, v)]
  | (k, w) :: r =>
      if String.eqb k key then (k, v) :: r else (k, w) :: set_field key v r
  end.

(** [delete obj[key]]. *)
Fixpoint delete_field (key : string) (fs : fieldlist) : fieldlist :=
  match fs with
  | [] => []
  | (k, w) :: r =>
      if String.eqb k key then delete_field key r else (k, w) :: delete_field key r
  end.

Definition keys (fs : fieldlist) : list string := fst <$> fs.

Definition hasOwnProperty (obj : jsval) (key : string) : bool :=
  match obj with
  | VObj _ fs => bool_decide (is_Some (get_field key fs))
  | _ => false
  end.

(** [obj[key]] for a string key that [obj] owns or that is not [inherited]:
    a missing property reads as [undefined]. *)
Definition prop (key : string) (obj : jsval) : jsval :=
  match obj with
  | VObj _ fs => default VUndef (get_field key fs)
  | _ => VUndef
  end.

(** [obj[key] = v] on an object; the hidden property is untouched. *)
Definition assign (key : string) (v : jsval) (obj : jsval) : jsval :=
  match obj with
  | VObj m fs => VObj m (set_field key v fs)
  | _ => obj
  end.

(** [Object.keys(obj)]. *)
Definition Object_keys (obj : jsval) : list string :=
  match obj with
  | VObj _ fs => keys fs
  | _ => []
  end.

(** *** lodash *)

Definition isArray (v : jsval) : bool :=
  match v with VArr _ => true | _ => false end.

Definition isObject (v : jsval) : bool :=
  match v with VArr _ | VObj _ _ => true | _ => false end.

(** [cloneDeep]: a fresh copy of the own enumerable properties, recursively;
    the non-enumerable [GET_METADATA_SYMBOL] property is not copied. *)
Fixpoint cloneDeep (v : jsval) : jsval :=
  match v with
  | VArr xs => VArr (map cloneDeep xs)
  | VObj _ fs => VObj None (map (fun kv => (fst kv, cloneDeep (snd kv))) fs)
  | _ => v
  end.

(** [cloneDeep] of a [PathMetadata] record (a plain object of three
    properties). *)
Definition cloneDeepMeta (m : PathMetadata) : PathMetadata :=
  mkPathMetadata (cloneDeep (sourceId m)) (path m) (cloneDeep (value m)).

(** [isEqual]: same kind of value and, for sequences, equal elements in
    order; for objects, as many own enumerable keys and every key of the
    first an own key of the second with an equal value. *)
Fixpoint isEqual (a b : jsval) {struct a} : bool :=
  match a, b with
  | VUndef, VUndef => true
  | VNull, VNull => true
  | VBool x, VBool y => Bool.eqb x y
  | VNum x, VNum y => Z.eqb x y
  | VStr x, VStr y => String.eqb x y
  | VArr xs, VArr ys =>
      (fix all2 (xs ys : list jsval) : bool :=
         match xs, ys with
         | [], [] => true
         | x :: xs', y :: ys' => isEqual x y && all2 xs' ys'
         | _, _ => false
         end) xs ys
  | VObj _ fs, VObj _ gs =>
      Nat.eqb (length fs) (length gs) &&
      (fix all (fs : fieldlist) : bool :=
         match fs with
         | [] => true
         | (k, v) :: fs' =>
             match get_field k gs with
             | Some w => isEqual v w
             | None => false
             end && all fs'
         end) fs
  | _, _ => false
  end.

(** The representation invariant of objects: distinct keys, at every
    depth. *)
Fixpoint wf (v : jsval) : Prop :=
  match v with
  | VArr xs => (fix all (l : list jsval) : Prop :=
                  match l with [] => True | x :: r => wf x /\ all r end) xs
  | VObj _ fs =>
      NoDup (keys fs) /\
      (fix all (l : fieldlist) : Prop :=
         match l with [] => True | kv :: r => wf (snd kv) /\ all r end) fs
  | _ => True
  end.

(** Values without a hidden property anywhere: the JSON values and
    [undefined]. [cloneDeep] returns such a value and is the identity on
    them. *)
Fixpoint plain (v : jsval) : Prop :=
  match v with
  | VArr xs => (fix all (l : list jsval) : Prop :=
                  match l with [] => True | x :: r => plain x /\ all r end) xs
  | VObj m fs =>
      m = None /\
      (fix all (l : fieldlist) : Prop :=
         match l with [] => True | kv :: r => plain (snd kv) /\ all r end) fs
  | _ => True
  end.

(** ** Options *)

Inductive ArrayMergeStrategy := replace | concat.
Inductive ArrayDiffStrategy := diff_replace | elements.

Record MergeOptions := { arrayStrategy : option ArrayMergeStrategy }.
Record DiffOptions := { diffArrayStrategy : option ArrayDiffStrategy }.

(** The default parameter value [{}]. *)
Definition noMergeOptions : MergeOptions := {| arrayStrategy := None |}.
Definition noDiffOptions : DiffOptions := {| diffArrayStrategy := None |}.

(** ** Merge handlers *)

Definition _mergeArrays (arr1 arr2 : list jsval) (options : MergeOptions)
  : list jsval :=
  let strategy := default replace (arrayStrategy options) in
  match strategy with
  | concat => arr1 ++ map cloneDeep arr2
  | replace => map cloneDeep arr2
  end.

(** The loop of [_mergeObjects] over the own properties of [obj2], with the
    recursive [_mergeValues] as a parameter. [val1] is the own property of
    [result]; at a key that [result] does not own and that is [inherited],
    the code reads the inherited member instead (a value that is not a
    [jsval]), and an assignment to [__proto__] can replace the prototype
    that later reads go through: the statements about [merge] exclude
    these keys. *)
Definition _mergeObjects_loop (mergeValues : jsval -> jsval -> jsval)
    (result : jsval) (fs2 : fieldlist) : jsval :=
  fold_left
    (fun result kv =>
       let key := fst kv in
       let val1 := prop key result in
       let val2 := snd kv in
       assign key (mergeValues val1 val2) result)
    fs2 result.

Fixpoint _mergeValues (options : MergeOptions) (val1 val2 : jsval)
    {struct val2} : jsval :=
  match val1, val2 with
  | VArr arr1, VArr arr2 => VArr (_mergeArrays arr1 arr2 options)
  | VObj _ _, VObj _ fs2 =>
      _mergeObjects_loop (_mergeValues options) (cloneDeep val1) fs2
  | _, _ => cloneDeep val2
  end.

Definition _mergeObjects (obj1 obj2 : jsval) (options : MergeOptions) : jsval :=
  let result := cloneDeep obj1 in
  match obj2 with
  | VObj _ fs2 => _mergeObjects_loop (_mergeValues options) result fs2
  | _ => result
  end.

(** ** Diff handlers *)

Definition _diffArrays (arr1 arr2 : list jsval) (options : DiffOptions)
  : jsval :=
  let strategy := default diff_replace (diffArrayStrategy options) in
  match strategy with
  | elements =>
      if negb (isEqual (VArr arr1) (VArr arr2))
      then VArr (map cloneDeep arr2) else VUndef
  | diff_replace =>
      if negb (isEqual (VArr arr1) (VArr arr2))
      then VArr (map cloneDeep arr2) else VUndef
  end.

Definition is_undefined (v : jsval) : bool :=
  match v with VUndef => true | _ => false end.

(** The body of the loop of [_diffObjects] for a key that both objects
    own, given the result [valueDiff] of [_diffValues] on the two values. *)
Definition _diffObjects_both (key : string) (val1 val2 valueDiff : jsval)
    (diff : fieldlist) : fieldlist :=
  if negb (is_undefined valueDiff) || negb (isEqual val1 val2) then
    if isObject valueDiff && negb (isArray valueDiff)
       && Nat.eqb (length (Object_keys valueDiff)) 0
       && negb (isEqual val1 val2)
    then set_field key (cloneDeep val2) diff
    else if negb (is_undefined valueDiff) then set_field key valueDiff diff
    else if negb (isEqual val1 val2) then set_field key (cloneDeep val2) diff
    else diff
  else diff.

(** The keys of [obj2] that [obj1] does not own: the rest of [allKeys]. *)
Definition _diffObjects_added (fs1 fs2 : fieldlist) (diff : fieldlist)
  : fieldlist :=
  fold_left
    (fun diff kv =>
       let key := fst kv in
       match get_field key fs1 with
       | None => set_field key (cloneDeep (snd kv)) diff
       | Some _ => diff
       end)
    fs2 diff.

(** [_diffObjects] walks [allKeys]: the keys of [obj1], then the keys that
    only [obj2] has. *)
Definition _diffObjects_loop (diffValues : jsval -> jsval -> jsval)
    (fs1 fs2 : fieldlist) : fieldlist :=
  let diff :=
    fold_left
      (fun diff kv =>
         let key := fst kv in
         let val1 := snd kv in
         match get_field key fs2 with
         | None => set_field key VUndef diff
         | Some val2 =>
             _diffObjects_both key val1 val2 (diffValues val1 val2) diff
         end)
      fs1 [] in
  _diffObjects_added fs1 fs2 diff.

Fixpoint _diffValues (options : DiffOptions) (val1 val2 : jsval)
    {struct val1} : jsval :=
  if isEqual val1 val2 then VUndef
  else
    match val1, val2 with
    | VArr arr1, VArr arr2 => _diffArrays arr1 arr2 options
    | VObj _ fs1, VObj _ fs2 =>
        let objDiff := _diffObjects_loop (_diffValues options) fs1 fs2 in
        if Nat.ltb 0 (length (keys objDiff)) then VObj None objDiff else VUndef
    | _, _ => cloneDeep val2
    end.

Definition _diffObjects (obj1 obj2 : jsval) (options : DiffOptions) : jsval :=
  match obj1, obj2 with
  | VObj _ fs1, VObj _ fs2 =>
      VObj None (_diffObjects_loop (_diffValues options) fs1 fs2)
  | _, _ => VObj None []
  end.

(** ** Public API: merge and diff *)

Definition merge (obj1 obj2 : jsval) (options : MergeOptions) : jsval :=
  let base := cloneDeep obj1 in
  _mergeValues options base obj2.

Definition mergeAll (objects : list jsval) (options : MergeOptions) : jsval :=
  if Nat.eqb (length objects) 0 then VObj None []
  else
    fold_left
      (fun accumulator currentObject => merge accumulator currentObject options)
      objects (VObj None []).

(** [x ?? {}]. *)
Definition nullish_or (x dflt : jsval) : jsval :=
  match x with VUndef | VNull => dflt | _ => x end.

Definition diff (obj1 obj2 : jsval) (options : DiffOptions) : jsval :=
  nullish_or (_diffValues options obj1 obj2) (VObj None []).

(** The loop of [diffAll]: [i] runs from [0] to [objects.length - 2] and
    only [i = 0] assigns. *)
Definition diffAll (objects : list jsval) (options : DiffOptions) : jsval :=
  if Nat.ltb (length objects) 2 then VObj None []
  else
    fold_left
      (fun accumulatedDiff i =>
         if Nat.eqb i 0
         then diff (nth 0 objects VUndef)
                   (nth (length objects - 1) objects VUndef) options
         else accumulatedDiff)
      (seq 0 (length objects - 1)) (VObj None []).

(** ** Merge with the identity of objects

    [toBe] compares references. To tell a clone from its original, the
    values of this section carry, on every sequence and mapping, the
    location of the object; the operations that create an object take a
    fresh location from a counter. The merge handlers are embedded a second
    time on these values; [Ref.erase] forgets the locations. *)
Module Ref.

Definition loc := nat.

Unset Elimination Schemes.
Inductive rval : Type :=
| RUndef
| RNull
| RBool (b : bool)
| RNum (n : Z)
| RStr (s : string)
| RArr (l : loc) (items : list rval)
| RObj (l : loc) (fields : list (string * rval)).
Set Elimination Schemes.

Section rval_induction.
Variable P : rval -> Prop.
Hypothesis HUndef : P RUndef.
Hypothesis HNull : P RNull.
Hypothesis HBool : forall b, P (RBool b).
Hypothesis HNum : forall n, P (RNum n).
Hypothesis HStr : forall s, P (RStr s).
Hypothesis HArr : forall l xs, Forall P xs -> P (RArr l xs).
Hypothesis HObj : forall l fs, Forall (fun kv => P (snd kv)) fs -> P (RObj l fs).

Fixpoint rval_ind (v : rval) : P v :=
  match v with
  | RUndef => HUndef
  | RNull => HNull
  | RBool b => HBool b
  | RNum n => HNum n
  | RStr s => HStr s
  | RArr l xs =>
      HArr l xs ((fix all (xs : list rval) : Forall P xs :=
                    match xs with
                    | [] => @List.Forall_nil _ P
                    | x :: r => @List.Forall_cons _ P x r (rval_ind x) (all r)
                    end) xs)
  | RObj l fs =>
      HObj l fs ((fix all (fs : list (string * rval))
                    : Forall (fun kv => P (snd kv)) fs :=
                    match fs with
                    | [] => @List.Forall_nil _ _
                    | kv :: r =>
                        @List.Forall_cons _ _ kv r (rval_ind (snd kv)) (all r)
                    end) fs)
  end.
End rval_induction.

(** Computations that allocate: from the next free location to a result
    and the next free location. *)
Definition alloc (A : Type) : Type := loc -> A * loc.

Definition ret {A} (a : A) : alloc A := fun next => (a, next).

Definition bind {A B} (m : alloc A) (f : A -> alloc B) : alloc B :=
  fun next => f (fst (m next)) (snd (m next)).

Definition fresh : alloc loc := fun next => (next, S next).

Fixpoint mapM {A B} (f : A -> alloc B) (l : list A) : alloc (list B) :=
  match l with
  | [] => ret []
  | x :: r => bind (f x) (fun y => bind (mapM f r) (fun ys => ret (y :: ys)))
  end.

Fixpoint foldM {A S} (f : S -> A -> alloc S) (l : list A) (s : S) : alloc S :=
  match l with
  | [] => ret s
  | x :: r => bind (f s x) (fun s' => foldM f r s')
  end.

Fixpoint erase (v : rval) : jsval :=
  match v with
  | RUndef => VUndef
  | RNull => VNull
  | RBool b => VBool b
  | RNum n => VNum n
  | RStr s => VStr s
  | RArr _ xs => VArr (map erase xs)
  | RObj _ fs => VObj None (map (fun kv => (fst kv, erase (snd kv))) fs)
  end.

(** The location of the object that a value is, if it is one. *)
Definition reference (v : rval) : option loc :=
  match v with
  | RArr l _ | RObj l _ => Some l
  | _ => None
  end.

(** All the objects of a value are at locations that satisfy [P]. *)
Fixpoint locations (P : loc -> Prop) (v : rval) : Prop :=
  match v with
  | RArr l xs =>
      P l /\ (fix all (xs : list rval) : Prop :=
                match xs with [] => True | x :: r => locations P x /\ all r end) xs
  | RObj l fs =>
      P l /\ (fix all (fs : list (string * rval)) : Prop :=
                match fs with
                | [] => True
                | kv :: r => locations P (snd kv) /\ all r
                end) fs
  | _ => True
  end.

(** [cloneDeep] creates the copy of an object, then the copies of its
    elements or property values. *)
Fixpoint cloneDeep (v : rval) : alloc rval :=
  match v with
  | RArr _ xs =>
      bind fresh (fun l =>
      bind (mapM cloneDeep xs) (fun ys => ret (RArr l ys)))
  | RObj _ fs =>
      bind fresh (fun l =>
      bind (mapM (fun kv => bind (cloneDeep (snd kv))
                                 (fun w => ret (fst kv, w))) fs)
           (fun gs => ret (RObj l gs)))
  | _ => ret v
  end.

Fixpoint get_field (key : string) (fs : list (string * rval)) : option rval :=
  match fs with
  | [] => None
  | (k, v) :: r => if String.eqb k key then Some v else get_field key r
  end.

Fixpoint set_field (key : string) (v : rval) (fs : list (string * rval))
  : list (string * rval) :=
  match fs with
  | [] => if String.eqb key "__proto__" then [] else [(key, v)]
  | (k, w) :: r =>
      if String.eqb k key then (k, v) :: r else (k, w) :: set_field key v r
  end.

Definition prop (key : string) (obj : rval) : rval :=
  match obj with
  | RObj _ fs => default RUndef (get_field key fs)
  | _ => RUndef
  end.

(** [obj[key] = v] changes the object at its location. *)
Definition assign (key : string) (v : rval) (obj : rval) : rval :=
  match obj with
  | RObj l fs => RObj l (set_field key v fs)
  | _ => obj
  end.

Definition items (v : rval) : list rval :=
  match v with RArr _ xs => xs | _ => [] end.

(** [arr1.concat(cloneDeep(arr2))] creates the clone, then the
    concatenation. *)
Definition _mergeArrays (arr1 : list rval) (arr2 : rval)
    (options : MergeOptions) : alloc rval :=
  let strategy := default replace (arrayStrategy options) in
  match strategy with
  | concat =>
      bind (cloneDeep arr2) (fun c =>
      bind fresh (fun l => ret (RArr l (arr1 ++ items c))))
  | replace => cloneDeep arr2
  end.

Definition _mergeObjects_loop (mergeValues : rval -> rval -> alloc rval)
    (result : rval) (fs2 : list (string * rval)) : alloc rval :=
  foldM
    (fun result kv =>
       let key := fst kv in
       let val1 := prop key result in
       let val2 := snd kv in
       bind (mergeValues val1 val2) (fun r => ret (assign key r result)))
    fs2 result.

Fixpoint _mergeValues (options : MergeOptions) (val1 val2 : rval)
    {struct val2} : alloc rval :=
  match val1, val2 with
  | RArr _ arr1, RArr _ _ => _mergeArrays arr1 val2 options
  | RObj _ _, RObj _ fs2 =>
      bind (cloneDeep val1) (fun result =>
        _mergeObjects_loop (_mergeValues options) result fs2)
  | _, _ => cloneDeep val2
  end.

Definition merge (obj1 obj2 : rval) (options : MergeOptions) : alloc rval :=
  bind (cloneDeep obj1) (fun base => _mergeValues options base obj2).

(** The object literal [{}]. *)
Definition emptyObject : alloc rval := bind fresh (fun l => ret (RObj l [])).

Definition mergeAll (objects : list rval) (options : MergeOptions) : alloc rval :=
  if Nat.eqb (length objects) 0 then emptyObject
  else
    bind emptyObject (fun initial =>
      foldM (fun accumulator currentObject =>
               merge accumulator currentObject options)
            objects initial).

(** A computation started at or after [start] returns a result that
    satisfies [Q] and does not lower the counter. *)
Definition hoare {A} (start : loc) (m : alloc A) (Q : A -> Prop) : Prop :=
  forall next, start <= next -> Q (fst (m next)) /\ next <= snd (m next).

(** The objects of a value were all created at or after [start]. *)
Definition created_since (start : loc) (v : rval) : Prop :=
  locations (fun l => start <= l) v.

End Ref.

(** ** Merge with metadata *)

(** [SourceObject] of [src/types.ts]; [id] is a string or a number. *)
Module SourceObject.
Record t := make { id : jsval; data : jsval }.
End SourceObject.
Abbreviation SourceObject := SourceObject.t.

(** The result of [mergeAllWithMetadata]. *)
Record MergeResult := {
  mergedObject : jsval;
  metadata : MetadataMap
}.

(** Truthiness of a string: it is not empty. *)
Definition truthy_string (s : string) : bool := negb (String.eqb s "").

(** [s.includes(c)] for a one-character [c]. *)
Fixpoint includes (c : ascii) (s : string) : bool :=
  match s with
  | EmptyString => false
  | String a r => Ascii.eqb a c || includes c r
  end.

(** [s.substring(s.lastIndexOf(c) + 1)]: what follows the last [c], and all
    of [s] when it has no [c]. *)
Fixpoint after_last (c : ascii) (s : string) : string :=
  match s with
  | EmptyString => EmptyString
  | String a r =>
      if includes c r then after_last c r
      else if Ascii.eqb a c then r else s
  end.

(** [currentPath ? `${currentPath}.${key}` : key]. *)
Definition propertyPath (currentPath key : string) : string :=
  if truthy_string currentPath then currentPath ++ "." ++ key else key.

(** The [parentKey] of [_mergeRecursiveWithMetadata]. *)
Definition parentKey (currentPath : string) : string :=
  if includes "." currentPath then after_last "." currentPath else currentPath.

(** The closure [mergeValue] of [_mergeRecursiveWithMetadata]. *)
Definition mergeValue (sourceId : jsval) (currentPath : string)
    (value : jsval) (key : option string) : PathMetadata :=
  let path :=
    match key with
    | Some key => propertyPath currentPath key
    | None => currentPath
    end in
  mkPathMetadata sourceId path (cloneDeep value).

(** [if (parentKey) parentChildMetadataMap.set(parentKey, mergeValue(v))]. *)
Definition record_in_parent (sourceId : jsval) (currentPath : string)
    (v : jsval) (parentChildMetadataMap : MetadataMap) : MetadataMap :=
  if truthy_string (parentKey currentPath)
  then <[parentKey currentPath := mergeValue sourceId currentPath v None]>
         parentChildMetadataMap
  else parentChildMetadataMap.

(** The new [childMetadataMap], filled from the hidden property of the
    target when the target has one: one entry per own key of the target
    that the target's map knows. *)
Definition seed_childMetadataMap (target : jsval) : MetadataMap :=
  match target with
  | VObj (Some targetMap) tfs =>
      fold_left
        (fun childMetadataMap key =>
           match targetMap !! key with
           | Some targetMeta => <[key := cloneDeepMeta targetMeta]> childMetadataMap
           | None => childMetadataMap
           end)
        (keys tfs) ∅
  | _ => ∅
  end.

(** The own properties of the initial [resultObject]: those of a clone of
    the target when the target is an object that is not an array, none
    otherwise. *)
Definition init_resultObject (target : jsval) : fieldlist :=
  match cloneDeep target with
  | VObj _ fs => fs
  | _ => []
  end.

(** The loop over [sourceKeys]. Its state is the own properties of
    [resultObject] and the [childMetadataMap] that the hidden property of
    [resultObject] reads. [targetValue] is the own property of
    [resultObject]. At a key that [resultObject] does not own and that
    names a function of [Object.prototype], the code reads the function;
    the recursive call then does what it does for [undefined]: a function
    is no sequence and, as the target of a mapping, lodash clones it to an
    empty mapping, which has no hidden property. An assignment to
    [__proto__] can replace the prototype that later reads go through:
    the statements about the merge exclude this key. *)
Definition _mergeRecursive_loop
    (rec : jsval -> jsval -> string -> MetadataMap -> jsval * MetadataMap)
    (currentPath : string) (sfs : fieldlist)
    (init : fieldlist * MetadataMap) : fieldlist * MetadataMap :=
  fold_left
    (fun st kv =>
       let resultObject := fst st in
       let childMetadataMap := snd st in
       let key := fst kv in
       let sourceValue := snd kv in
       let targetValue := default VUndef (get_field key resultObject) in
       if is_undefined sourceValue then
         (delete_field key resultObject, delete key childMetadataMap)
       else
         let r := rec targetValue sourceValue (propertyPath currentPath key)
                      childMetadataMap in
         (set_field key (fst r) resultObject, snd r))
    sfs init.

(** [_mergeRecursiveWithMetadata] returns the merged value; the
    [parentChildMetadataMap] it mutates is returned with it. *)
Fixpoint _mergeRecursiveWithMetadata (options : MergeOptions)
    (sourceId : jsval) (target source : jsval) (currentPath : string)
    (parentChildMetadataMap : MetadataMap) {struct source}
  : jsval * MetadataMap :=
  match source with
  | VUndef =>
      (target,
       if truthy_string (parentKey currentPath)
          && bool_decide (is_Some (parentChildMetadataMap !! parentKey currentPath))
       then delete (parentKey currentPath) parentChildMetadataMap
       else parentChildMetadataMap)
  | VArr src =>
      let mergedArray :=
        match target, default replace (arrayStrategy options) with
        | VArr tgt, concat => tgt ++ map cloneDeep src
        | _, _ => map cloneDeep src
        end in
      (VArr mergedArray,
       record_in_parent sourceId currentPath (VArr mergedArray)
                        parentChildMetadataMap)
  | VObj _ sfs =>
      let st :=
        _mergeRecursive_loop
          (_mergeRecursiveWithMetadata options sourceId)
          currentPath sfs
          (init_resultObject target, seed_childMetadataMap target) in
      let resultObject := VObj (Some (snd st)) (fst st) in
      (resultObject,
       record_in_parent sourceId currentPath resultObject
                        parentChildMetadataMap)
  | _ =>
      let primitiveValue := cloneDeep source in
      (primitiveValue,
       record_in_parent sourceId currentPath primitiveValue
                        parentChildMetadataMap)
  end.

(** [obj[GET_METADATA_SYMBOL]?.(attributeName)]. *)
Definition getMetadata (obj : jsval) (attributeName : string)
  : option PathMetadata :=
  match obj with
  | VObj (Some childMetadataMap) _ => childMetadataMap !! attributeName
  | _ => None
  end.

(** The closure [collectMetadata] of [mergeAllWithMetadata], with the
    [metadata] object it writes to. *)
Fixpoint collectMetadata (obj : jsval) (metadata : MetadataMap) {struct obj}
  : MetadataMap :=
  match obj with
  | VObj meta fs =>
      fold_left
        (fun metadata kv =>
           let key := fst kv in
           let value := snd kv in
           let metadataForKey := getMetadata obj key in
           let metadata :=
             match metadataForKey with
             | Some m => <[path m := m]> metadata
             | None => metadata
             end in
           collectMetadata value metadata)
        fs metadata
  | VArr xs =>
      fold_left (fun metadata value => collectMetadata value metadata)
                xs metadata
  | _ => metadata
  end.

(** One turn of the loop of [mergeAllWithMetadata]. *)
Definition mergeStep (options : MergeOptions) (st : MergeResult)
    (sourceObject : SourceObject) : MergeResult :=
  let finalMergedData :=
    fst (_mergeRecursiveWithMetadata options
           (SourceObject.id sourceObject) (mergedObject st)
           (SourceObject.data sourceObject) "" ∅) in
  {| mergedObject := finalMergedData;
     metadata := collectMetadata finalMergedData (metadata st) |}.

Definition mergeAllWithMetadata (sourceObjects : list SourceObject)
    (options : MergeOptions) : MergeResult :=
  if Nat.eqb (length sourceObjects) 0
  then {| mergedObject := VObj None []; metadata := ∅ |}
  else
    fold_left (mergeStep options) sourceObjects
              {| mergedObject := VObj None []; metadata := ∅ |}.

(** ** Schema traversal *)

Module SchemaTraversalContext.
Record t := make {
  schemaNode : jsval;
  path : list string;
  propertyName : option string;
  parentSchemaNode : option jsval
}.
End SchemaTraversalContext.
Abbreviation SchemaTraversalContext := SchemaTraversalContext.t.

(** [DataTraversalContext extends SchemaTraversalContext]. *)
Module DataTraversalContext.
Record t := make {
  base : SchemaTraversalContext;
  dataValue : jsval
}.
Definition schemaNode (c : t) := SchemaTraversalContext.schemaNode (base c).
Definition path (c : t) := SchemaTraversalContext.path (base c).
Definition propertyName (c : t) := SchemaTraversalContext.propertyName (base c).
Definition parentSchemaNode (c : t) :=
  SchemaTraversalContext.parentSchemaNode (base c).
End DataTraversalContext.
Abbreviation DataTraversalContext := DataTraversalContext.t.

(** A traversal returns the contexts it has passed to the callback, in the
    order of the calls. *)
Definition SchemaRecursiveFn : Type :=
  jsval -> list string -> option string -> option jsval ->
  list SchemaTraversalContext.

(** Truthiness of a value. *)
Definition truthy (v : jsval) : bool :=
  match v with
  | VUndef | VNull => false
  | VBool b => b
  | VNum n => negb (Z.eqb n 0)
  | VStr s => truthy_string s
  | VArr _ | VObj _ _ => true
  end.

(** [typeof v === 'object']. *)
Definition typeof_object (v : jsval) : bool :=
  match v with VNull | VArr _ | VObj _ _ => true | _ => false end.

Definition is_null (v : jsval) : bool :=
  match v with VNull => true | _ => false end.

(** A use of the own property [key] of [node]: [present] on its value, or
    [absent] when [node] does not own it (it then reads as [undefined],
    on which every handler does nothing). *)
Definition with_prop {A} (node : jsval) (key : string) (absent : A)
    (present : jsval -> A) : A :=
  match node with
  | VObj _ fs =>
      (fix find (fs : fieldlist) : A :=
         match fs with
         | [] => absent
         | (k, v) :: r => if String.eqb k key then present v else find r
         end) fs
  | _ => absent
  end.

(** [for (const key in v)] with [v[key]], for the own enumerable properties
    of an object or a sequence. The own properties of a string are
    one-character strings, which no traversal visits, and the other values
    have none. *)
Definition for_in {A} (v : jsval) (body : string -> jsval -> list A) : list A :=
  match v with
  | VObj _ fs => flat_map (fun kv => body (fst kv) (snd kv)) fs
  | VArr xs =>
      (fix go (i : nat) (l : list jsval) : list A :=
         match l with
         | [] => []
         | x :: r => body (pretty i) x ++ go (S i) r
         end) 0 xs
  | _ => []
  end.

(** [xs.forEach((x, index) => body)]. *)
Definition forEach {A} (xs : list jsval) (body : jsval -> nat -> list A)
  : list A :=
  (fix go (i : nat) (l : list jsval) : list A :=
     match l with
     | [] => []
     | x :: r => body x i ++ go (S i) r
     end) 0 xs.

Definition _handleSchemaProperties (node : jsval) (currentPath : list string)
    (parent : jsval) (traverse : SchemaRecursiveFn)
  : list SchemaTraversalContext :=
  with_prop node "properties" [] (fun properties =>
    if truthy properties then
      for_in properties (fun key sub =>
        traverse sub (currentPath ++ [key]) (Some key) (Some parent))
    else []).

Definition _handleSchemaItems (node : jsval) (currentPath : list string)
    (parent : jsval) (traverse : SchemaRecursiveFn)
  : list SchemaTraversalContext :=
  with_prop node "items" [] (fun items =>
    if truthy items then
      match items with
      | VArr itemSchemas =>
          forEach itemSchemas (fun itemSchema index =>
            traverse itemSchema currentPath (Some (pretty index)) (Some parent))
      | _ => traverse items currentPath None (Some parent)
      end
    else []).

Definition _handleSchemaCombiner (combiner : string) (node : jsval)
    (currentPath : list string) (parent : jsval) (traverse : SchemaRecursiveFn)
  : list SchemaTraversalContext :=
  with_prop node combiner [] (fun subSchemas =>
    match subSchemas with
    | VArr subSchemas =>
        forEach subSchemas (fun subSchema _ =>
          traverse subSchema currentPath None (Some parent))
    | _ => []
    end).

Definition _handleSchemaNot (node : jsval) (currentPath : list string)
    (parent : jsval) (traverse : SchemaRecursiveFn)
  : list SchemaTraversalContext :=
  with_prop node "not" [] (fun sub =>
    if typeof_object sub then traverse sub currentPath None (Some parent)
    else []).

Definition _handleSchemaConditional (keyword : string) (node : jsval)
    (currentPath : list string) (parent : jsval) (traverse : SchemaRecursiveFn)
  : list SchemaTraversalContext :=
  with_prop node keyword [] (fun sub =>
    if truthy sub && typeof_object sub
    then traverse sub currentPath None (Some parent)
    else []).

Definition _handleSchemaDependentSchemas (node : jsval)
    (currentPath : list string) (parent : jsval) (traverse : SchemaRecursiveFn)
  : list SchemaTraversalContext :=
  with_prop node "dependentSchemas" [] (fun dependentSchemas =>
    if truthy dependentSchemas then
      for_in dependentSchemas (fun _ sub =>
        traverse sub currentPath None (Some parent))
    else []).

Definition _handleSchemaAdditionalOrPatternProperties (node : jsval)
    (currentPath : list string) (parent : jsval) (traverse : SchemaRecursiveFn)
  : list SchemaTraversalContext :=
  with_prop node "additionalProperties" [] (fun sub =>
    if typeof_object sub then traverse sub currentPath None (Some parent)
    else [])
  ++
  with_prop node "patternProperties" [] (fun patternProperties =>
    if truthy patternProperties then
      for_in patternProperties (fun _ sub =>
        traverse sub currentPath None (Some parent))
    else []).

(** One turn of the loop over [schemaKeywordHandlers]: [visits] is what the
    handler of [keyword] does. *)
Definition on_keyword {A} (node : jsval) (keyword : string) (visits : list A)
  : list A :=
  if hasOwnProperty node keyword then visits else [].

Fixpoint _traverseSchemaRecursive (schemaNode : jsval)
    (currentPath : list string) (propertyName : option string)
    (parentSchemaNode : option jsval) {struct schemaNode}
  : list SchemaTraversalContext :=
  if negb (typeof_object schemaNode) || is_null schemaNode then []
  else
    let context :=
      SchemaTraversalContext.make schemaNode currentPath propertyName
                                  parentSchemaNode in
    let node := schemaNode in
    let traverse := _traverseSchemaRecursive in
    context ::
      on_keyword node "properties"
        (_handleSchemaProperties node currentPath node traverse)
      ++ on_keyword node "items"
        (_handleSchemaItems node currentPath node traverse)
      ++ on_keyword node "allOf"
        (_handleSchemaCombiner "allOf" node currentPath node traverse)
      ++ on_keyword node "anyOf"
        (_handleSchemaCombiner "anyOf" node currentPath node traverse)
      ++ on_keyword node "oneOf"
        (_handleSchemaCombiner "oneOf" node currentPath node traverse)
      ++ on_keyword node "not"
        (_handleSchemaNot node currentPath node traverse)
      ++ on_keyword node "if"
        (_handleSchemaConditional "if" node currentPath node traverse)
      ++ on_keyword node "then"
        (_handleSchemaConditional "then" node currentPath node traverse)
      ++ on_keyword node "else"
        (_handleSchemaConditional "else" node currentPath node traverse)
      ++ on_keyword node "dependentSchemas"
        (_handleSchemaDependentSchemas node currentPath node traverse)
      ++ on_keyword node "additionalProperties"
        (_handleSchemaAdditionalOrPatternProperties node currentPath node traverse)
      ++ on_keyword node "patternProperties"
        (_handleSchemaAdditionalOrPatternProperties node currentPath node traverse).

Definition traverseSchema (schema : jsval) : list SchemaTraversalContext :=
  _traverseSchemaRecursive schema [] None None.

(** ** Data traversal *)

(** The outcome of code that may throw. [Throws] is a [TypeError]; it also
    stands for the member accesses on a value of the wrong shape that the
    embedding does not follow further ([.length] and an index on a value
    that is not a sequence, [hasOwnProperty] on one that is not a
    mapping). *)
Inductive outcome (A : Type) : Type :=
| Returns (a : A)
| Throws.
Arguments Returns {A} _.
Arguments Throws {A}.

Definition bind {A B} (m : outcome A) (f : A -> outcome B) : outcome B :=
  match m with
  | Returns a => f a
  | Throws => Throws
  end.

(** Two statements in sequence, each with its visits. *)
Definition andThen {A} (m1 m2 : outcome (list A)) : outcome (list A) :=
  bind m1 (fun v1 => bind m2 (fun v2 => Returns (v1 ++ v2))).

Definition DataRecursiveFn : Type :=
  jsval -> jsval -> list string -> option string -> option jsval ->
  outcome (list DataTraversalContext).

(** [for_in] and [forEach] for a body that may throw. *)
Definition for_inM {A} (v : jsval) (body : string -> jsval -> outcome (list A))
  : outcome (list A) :=
  match v with
  | VObj _ fs =>
      (fix go (l : fieldlist) : outcome (list A) :=
         match l with
         | [] => Returns []
         | kv :: r => andThen (body (fst kv) (snd kv)) (go r)
         end) fs
  | VArr xs =>
      (fix go (i : nat) (l : list jsval) : outcome (list A) :=
         match l with
         | [] => Returns []
         | x :: r => andThen (body (pretty i) x) (go (S i) r)
         end) 0 xs
  | _ => Returns []
  end.

Definition forEachM {A} (xs : list jsval)
    (body : jsval -> nat -> outcome (list A)) : outcome (list A) :=
  (fix go (i : nat) (l : list jsval) : outcome (list A) :=
     match l with
     | [] => Returns []
     | x :: r => andThen (body x i) (go (S i) r)
     end) 0 xs.

Definition _isDataCompatible (keyword : string) (node dataValue : jsval) : bool :=
  if (String.eqb keyword "properties" || String.eqb keyword "dependentSchemas")
     && (negb (typeof_object dataValue) || is_null dataValue || isArray dataValue)
  then false
  else if String.eqb keyword "items" && negb (isArray dataValue) then false
  else true.

(** [dataValue?.[key]] is the own property of the data: at a key that the
    data does not own and that is [inherited], the code passes the
    inherited member (a value that is not a [jsval]); the statements about
    the value of a property exclude this case. *)
Definition _handleDataProperties (node dataValue : jsval)
    (currentPath : list string) (parent : jsval) (traverse : DataRecursiveFn)
  : outcome (list DataTraversalContext) :=
  with_prop node "properties" (Returns []) (fun properties =>
    if truthy properties then
      for_inM properties (fun key sub =>
        traverse sub (prop key dataValue) (currentPath ++ [key]) (Some key)
                 (Some parent))
    else Returns []).

Definition _handleDataItems (node dataValue : jsval)
    (currentPath : list string) (parent : jsval) (traverse : DataRecursiveFn)
  : outcome (list DataTraversalContext) :=
  with_prop node "items" (Returns []) (fun items =>
    if truthy items then
      match items with
      | VArr itemSchemas =>
          forEachM itemSchemas (fun itemSchema i =>
            match dataValue with
            | VArr dataItems =>
                if Nat.ltb i (length dataItems)
                then traverse itemSchema (nth i dataItems VUndef) currentPath
                              (Some (pretty i)) (Some parent)
                else Returns []
            | _ => Throws
            end)
      | _ =>
          match dataValue with
          | VArr dataItems =>
              forEachM dataItems (fun itemData i =>
                traverse items itemData currentPath (Some (pretty i))
                         (Some parent))
          | _ => Throws
          end
      end
    else Returns []).

Definition _handleDataCombiner (combiner : string) (node dataValue : jsval)
    (currentPath : list string) (parent : jsval) (traverse : DataRecursiveFn)
  : outcome (list DataTraversalContext) :=
  with_prop node combiner (Returns []) (fun subSchemas =>
    match subSchemas with
    | VArr subSchemas =>
        forEachM subSchemas (fun subSchema _ =>
          traverse subSchema dataValue currentPath None (Some parent))
    | _ => Returns []
    end).

Definition _handleDataNot (node dataValue : jsval)
    (currentPath : list string) (parent : jsval) (traverse : DataRecursiveFn)
  : outcome (list DataTraversalContext) :=
  with_prop node "not" (Returns []) (fun sub =>
    if truthy sub && typeof_object sub
    then traverse sub dataValue currentPath None (Some parent)
    else Returns []).

Definition _handleDataConditional (keyword : string) (node dataValue : jsval)
    (currentPath : list string) (parent : jsval) (traverse : DataRecursiveFn)
  : outcome (list DataTraversalContext) :=
  with_prop node keyword (Returns []) (fun sub =>
    if truthy sub && typeof_object sub
    then traverse sub dataValue currentPath None (Some parent)
    else Returns []).

Definition _handleDataDependentSchemas (node dataValue : jsval)
    (currentPath : list string) (parent : jsval) (traverse : DataRecursiveFn)
  : outcome (list DataTraversalContext) :=
  with_prop node "dependentSchemas" (Returns []) (fun dependentSchemas =>
    if truthy dependentSchemas then
      for_inM dependentSchemas (fun key sub =>
        match dataValue with
        | VObj _ _ =>
            if hasOwnProperty dataValue key
            then traverse sub dataValue currentPath None (Some parent)
            else Returns []
        | _ => Throws
        end)
    else Returns []).

(** One turn of the loop over [dataKeywordHandlers]: [visits] is what the
    handler of [keyword] does. *)
Definition on_data_keyword {A} (node dataValue : jsval) (keyword : string)
    (visits : outcome (list A)) : outcome (list A) :=
  if hasOwnProperty node keyword then
    if _isDataCompatible keyword node dataValue then visits else Returns []
  else Returns [].

Fixpoint _traverseDataRecursive (schemaNode dataValue : jsval)
    (currentPath : list string) (propertyName : option string)
    (parentSchemaNode : option jsval) {struct schemaNode}
  : outcome (list DataTraversalContext) :=
  if negb (typeof_object schemaNode) || is_null schemaNode then Returns []
  else
    let context :=
      DataTraversalContext.make
        (SchemaTraversalContext.make schemaNode currentPath propertyName
                                     parentSchemaNode)
        dataValue in
    let node := schemaNode in
    let traverse := _traverseDataRecursive in
    andThen (Returns [context])
   (andThen (on_data_keyword node dataValue "properties"
               (_handleDataProperties node dataValue currentPath node traverse))
   (andThen (on_data_keyword node dataValue "items"
               (_handleDataItems node dataValue currentPath node traverse))
   (andThen (on_data_keyword node dataValue "allOf"
               (_handleDataCombiner "allOf" node dataValue currentPath node traverse))
   (andThen (on_data_keyword node dataValue "anyOf"
               (_handleDataCombiner "anyOf" node dataValue currentPath node traverse))
   (andThen (on_data_keyword node dataValue "oneOf"
               (_handleDataCombiner "oneOf" node dataValue currentPath node traverse))
   (andThen (on_data_keyword node dataValue "not"
               (_handleDataNot node dataValue currentPath node traverse))
   (andThen (on_data_keyword node dataValue "if"
               (_handleDataConditional "if" node dataValue currentPath node traverse))
   (andThen (on_data_keyword node dataValue "then"
               (_handleDataConditional "then" node dataValue currentPath node traverse))
   (andThen (on_data_keyword node dataValue "else"
               (_handleDataConditional "else" node dataValue currentPath node traverse))
            (on_data_keyword node dataValue "dependentSchemas"
               (_handleDataDependentSchemas node dataValue currentPath node
                                            traverse))))))))))).

Definition traverseData (schema data : jsval)
  : outcome (list DataTraversalContext) :=
  _traverseDataRecursive schema data [] None None.

(** ** Schema enrichment *)

(** [path.join('.')]. *)
Fixpoint Array_join (sep : string) (segments : list string) : string :=
  match segments with
  | [] => ""
  | [s] => s
  | s :: r => s ++ sep ++ Array_join sep r
  end.

(** The annotation written for a path that has provenance. *)
Definition widget (metadataForPath : PathMetadata) : jsval :=
  VObj None
    [("widget",
      VObj None
        [("sourceIds",
          if isArray (sourceId metadataForPath)
          then sourceId metadataForPath
          else VArr [sourceId metadataForPath]);
         ("inheritedValue", value metadataForPath)])].

(** The annotation written for a path at which [metadata[path]] is a
    member that the [metadata] object inherits from [Object.prototype]: a
    function, or [Object.prototype] itself for [__proto__]. It is truthy,
    and its [sourceId] and [value] are [undefined]. *)
Definition inherited_widget : jsval :=
  VObj None
    [("widget",
      VObj None [("sourceIds", VArr [VUndef]); ("inheritedValue", VUndef)])].

(** [schemaUI[key] = v] on the own properties of the object [schemaUI]: as
    for [set_field], an assignment to the key [__proto__] of an object
    that does not own it creates no property. *)
Definition schemaUI_set (key : string) (v : jsval)
    (schemaUI : gmap string jsval) : gmap string jsval :=
  if String.eqb key "__proto__"
     && negb (bool_decide (is_Some (schemaUI !! key)))
  then schemaUI
  else <[key := v]> schemaUI.

(** The callback of [enrichSchema] on one context, with the [schemaUI] it
    writes to. [metadata[key]] is the own entry of the object returned by
    [mergeAllWithMetadata] or, for a key that is [inherited], the member
    of [Object.prototype]. *)
Definition enrichVisitor (metadata : MetadataMap) (schemaUI : gmap string jsval)
    (context : DataTraversalContext) : gmap string jsval :=
  let key := Array_join "." (DataTraversalContext.path context) in
  match metadata !! key with
  | Some metadataForPath => schemaUI_set key (widget metadataForPath) schemaUI
  | None =>
      if inherited key then schemaUI_set key inherited_widget schemaUI
      else schemaUI
  end.

Module EnrichResult.
Record t := make {
  schema : jsval;
  schemaUI : gmap string jsval;
  mergedJson : jsval
}.
End EnrichResult.

Definition nullish (v : jsval) : bool :=
  match v with VUndef | VNull => true | _ => false end.

(** [json.id]: a [TypeError] on [null] and on [undefined]. *)
Definition json_id (json : jsval) : outcome jsval :=
  if nullish json then Throws else Returns (prop "id" json).

(** [jsonArray.map((json) => ({ id: json.id, data: json }))]. *)
Fixpoint sourceObjectsOf (jsonArray : list jsval)
  : outcome (list SourceObject) :=
  match jsonArray with
  | [] => Returns []
  | json :: r =>
      bind (json_id json) (fun id =>
      bind (sourceObjectsOf r) (fun sourceObjects =>
      Returns (SourceObject.make id json :: sourceObjects)))
  end.

Definition enrichSchema (schema : jsval) (schemaUI : gmap string jsval)
    (jsonArray : list jsval) : outcome EnrichResult.t :=
  bind (sourceObjectsOf jsonArray) (fun sourceObjects =>
  let r := mergeAllWithMetadata sourceObjects noMergeOptions in
  bind (traverseData schema (mergedObject r)) (fun visits =>
    Returns
      (EnrichResult.make schema
         (fold_left (enrichVisitor (metadata r)) visits schemaUI)
         (mergedObject r)))).

(** ** Paths of attributes *)

(** The keys whose provenance the program can address: not empty, without
    the separator of paths, and other than [__proto__], which an
    assignment does not create. *)
Definition goodkey (key : string) : bool :=
  truthy_string key && negb (includes "." key)
  && negb (String.eqb key "__proto__").

(** The keys of a value that are met on the way from the root through
    mappings only (sequences are not entered) are all good. *)
Fixpoint goodkeys (v : jsval) : bool :=
  match v with
  | VObj _ fs =>
      (fix all (l : fieldlist) : bool :=
         match l with
         | [] => true
         | kv :: r => goodkey (fst kv) && goodkeys (snd kv) && all r
         end) fs
  | _ => true
  end.

(** The [currentPath] that [_mergeRecursiveWithMetadata] has built when it
    has descended from the root along the keys [ks]. *)
Definition pathOf (ks : list string) : string := fold_left propertyPath ks "".

(** The value found from the root along the keys [ks], through mappings. *)
Fixpoint lookup_path (ks : list string) (v : jsval) : option jsval :=
  match ks with
  | [] => Some v
  | k :: r =>
      match v with
      | VObj _ fs =>
          match get_field k fs with
          | Some x => lookup_path r x
          | None => None
          end
      | _ => None
      end
  end.

(** The values that provenance treats as leaves: all but mappings. *)
Definition is_leaf (v : jsval) : bool :=
  match v with VObj _ _ => false | _ => true end.

(** The entries that [collectMetadata obj] writes, in the order of the
    writes. *)
Fixpoint collected (obj : jsval) : list PathMetadata :=
  match obj with
  | VObj meta fs =>
      flat_map
        (fun kv =>
           match getMetadata obj (fst kv) with
           | Some m => [m]
           | None => []
           end ++ collected (snd kv))
        fs
  | VArr xs => flat_map collected xs
  | _ => []
  end.

(** Provenance completeness, as the specification states it: every leaf
    path of the merged value has an entry in the metadata whose value
    deep-equals the value at the path. *)
Definition provenance_complete (merged : jsval) (metadata : MetadataMap) : Prop :=
  forall ks x,
    ks <> [] ->
    lookup_path ks merged = Some x ->
    is_leaf x = true ->
    exists m, metadata !! Array_join "." ks = Some m
              /\ isEqual (value m) x = true.

(** ** The invariant of the merge with metadata *)

(** The merged value of [_mergeRecursiveWithMetadata]. *)
Definition mergedValue (options : MergeOptions) (sourceId target source : jsval)
    (currentPath : string) : jsval :=
  fst (_mergeRecursiveWithMetadata options sourceId target source currentPath ∅).

(** The merged value of the attribute [key], whose value in the source is
    [sourceValue], when the result object starts with the properties
    [f0]. *)
Definition merged_child (options : MergeOptions) (sourceId : jsval)
    (currentPath : string) (f0 : fieldlist)
    (key : string) (sourceValue : jsval) : jsval :=
  mergedValue options sourceId (default VUndef (get_field key f0)) sourceValue
              (propertyPath currentPath key).

(** The entry that the hidden property of the mapping found along all but
    the last of the keys [ks] holds for the last key. *)
Fixpoint recorded (ks : list string) (v : jsval) : option PathMetadata :=
  match ks with
  | [] => None
  | k :: r =>
      match r with
      | [] => getMetadata v k
      | _ =>
          match v with
          | VObj _ fs =>
              match get_field k fs with
              | Some x => recorded r x
              | None => None
              end
          | _ => None
          end
      end
  end.

(** The writes of [collectMetadata], one entry at a time. *)
Definition write_all (l : list PathMetadata) (metadata : MetadataMap)
  : MetadataMap :=
  fold_left (fun metadata m => <[path m := m]> metadata) l metadata.

(** The keys met from the root through mappings are good. *)
Definition keys_good (v : jsval) : Prop :=
  forall ks x, lookup_path ks v = Some x ->
               Forall (fun k => goodkey k = true) ks.

(** The sequences met from the root through mappings hold no hidden
    property. *)
Definition arrays_plain (v : jsval) : Prop :=
  forall ks xs, lookup_path ks v = Some (VArr xs) -> plain (VArr xs).

(** Every entry of a hidden property, in a value found at the keys
    [prefix] from the root, is for an attribute that exists, names the
    path of the attribute and holds a clone of its value. *)
Definition stores_ok (prefix : list string) (v : jsval) : Prop :=
  forall ks m, recorded ks v = Some m ->
    exists x, lookup_path ks v = Some x
              /\ path m = pathOf (prefix ++ ks)
              /\ value m = cloneDeep x.

Definition treeinv (prefix : list string) (v : jsval) : Prop :=
  keys_good v /\ arrays_plain v /\ stores_ok prefix v.

(** What a merge pass leaves of the target: an attribute of the result has
    an entry in the hidden property of its mapping, or it was in the target
    with the same data. *)
Definition touched_or_kept (target result : jsval) : Prop :=
  forall ks x, ks <> [] -> lookup_path ks result = Some x ->
    is_Some (recorded ks result)
    \/ exists x0, lookup_path ks target = Some x0 /\ cloneDeep x = cloneDeep x0.

(** The hidden property of the root knows every attribute of the root. *)
Definition root_complete (v : jsval) : Prop :=
  forall k, is_Some (lookup_path [k] v) -> is_Some (getMetadata v k).

(** The invariant of the loop of [mergeAllWithMetadata]. *)
Definition merge_invariant (st : MergeResult) : Prop :=
  wf (mergedObject st)
  /\ treeinv [] (mergedObject st)
  /\ root_complete (mergedObject st)
  /\ forall ks x, ks <> [] -> lookup_path ks (mergedObject st) = Some x ->
       exists m, metadata st !! pathOf ks = Some m /\ value m = cloneDeep x.

(** The sources whose keys the program can address. *)
Definition good_source (s : SourceObject) : Prop :=
  wf (SourceObject.data s) /\ goodkeys (SourceObject.data s) = true.

(** Results of traversals *)

Definition returns {A} (m : outcome A) : Prop := exists a, m = Returns a.

(** Every call of [_traverseDataRecursive] on a schema node returns, and so
    do the calls on its elements or property values. *)
Definition traversal_returns (schemaNode : jsval) : Prop :=
  forall dataValue currentPath propertyName parentSchemaNode,
    returns (_traverseDataRecursive schemaNode dataValue currentPath
               propertyName parentSchemaNode).

Definition children_return (schemaNode : jsval) : Prop :=
  match schemaNode with
  | VArr xs => Forall traversal_returns xs
  | VObj _ fs => Forall (fun kv => traversal_returns (snd kv)) fs
  | _ => True
  end.


(** The number of visits of a schema node that deep-equals [node]. *)
Definition schema_visits (node : jsval) (visits : list SchemaTraversalContext)
  : nat :=
  length (filter (fun c => isEqual (SchemaTraversalContext.schemaNode c) node = true)
                 visits).

Definition data_visits (node : jsval) (visits : outcome (list DataTraversalContext))
  : option nat :=
  match visits with
  | Returns l =>
      Some (length (filter (fun c => isEqual (DataTraversalContext.schemaNode c) node
                                     = true) l))
  | Throws => None
  end.

(** The scalars of JSON. *)
Definition scalar (v : jsval) : bool :=
  match v with
  | VNull | VBool _ | VNum _ | VStr _ => true
  | _ => false
  end.

(** A flat mapping: all its values are scalars. *)
Definition flat (fs : fieldlist) : Prop :=
  Forall (fun kv => scalar (snd kv) = true) fs.

(** ** Further notions *)

(** What [_diffObjects] stores under a key that both objects own, when the
    two values are not deep-equal. *)
Definition diff_entry (options : DiffOptions) (val1 val2 : jsval) : jsval :=
  let valueDiff := _diffValues options val1 val2 in
  if isObject valueDiff && negb (isArray valueDiff)
     && Nat.eqb (length (Object_keys valueDiff)) 0
  then cloneDeep val2
  else if negb (is_undefined valueDiff) then valueDiff
  else cloneDeep val2.

(** The values that hold no [undefined]: they are not [undefined], and no
    attribute met from the root through mappings is (sequences are not
    entered). *)
Fixpoint defined (v : jsval) : bool :=
  match v with
  | VUndef => false
  | VObj _ fs =>
      (fix all (l : fieldlist) : bool :=
         match l with
         | [] => true
         | kv :: r => defined (snd kv) && all r
         end) fs
  | _ => true
  end.

(** The values whose keys, met from the root through mappings (sequences
    are not entered), are not names of members of [Object.prototype]: the
    assignments and the reads of the program, at these keys, are of own
    properties. *)
Fixpoint ownkeys (v : jsval) : bool :=
  match v with
  | VObj _ fs =>
      (fix all (l : fieldlist) : bool :=
         match l with
         | [] => true
         | kv :: r => negb (inherited (fst kv)) && ownkeys (snd kv) && all r
         end) fs
  | _ => true
  end.

(** A source writes the attribute at the keys [ks] when its data holds,
    along [ks] through mappings, a value other than [undefined]. *)
Definition writes (ks : list string) (s : SourceObject) : bool :=
  match lookup_path ks (SourceObject.data s) with
  | Some v => negb (is_undefined v)
  | None => false
  end.

(** The [id] of the last source of a list that writes the attribute at the
    keys [ks]. *)
Definition last_writer (ks : list string) (sources : list SourceObject)
  : option jsval :=
  fold_left
    (fun w s => if writes ks s then Some (SourceObject.id s) else w)
    sources None.

(** A visit of the schema traversal and a visit of the data traversal are
    of the same node when they agree on the schema node, the path and the
    parent. *)
Definition same_node (c' : SchemaTraversalContext) (c : DataTraversalContext)
  : Prop :=
  SchemaTraversalContext.schemaNode c' = DataTraversalContext.schemaNode c
  /\ SchemaTraversalContext.path c' = DataTraversalContext.path c
  /\ SchemaTraversalContext.parentSchemaNode c'
     = DataTraversalContext.parentSchemaNode c.

(** The visits of a part of the data traversal, when it returns, are all
    of nodes that a part of the schema traversal visits. *)
Definition covers (d : outcome (list DataTraversalContext))
    (s : list SchemaTraversalContext) : Prop :=
  forall l, d = Returns l ->
    forall c, c ∈ l -> exists c', c' ∈ s /\ same_node c' c.

(** Whatever the data and the property names, the data traversal from a
    schema node visits only nodes that the schema traversal from it
    visits. *)
Definition covered (schemaNode : jsval) : Prop :=
  forall dataValue currentPath propertyName propertyName' parentSchemaNode,
    covers (_traverseDataRecursive schemaNode dataValue currentPath
              propertyName parentSchemaNode)
           (_traverseSchemaRecursive schemaNode currentPath propertyName'
              parentSchemaNode).

Definition children_covered (schemaNode : jsval) : Prop :=
  match schemaNode with
  | VArr xs => Forall covered xs
  | VObj _ fs => Forall (fun kv => covered (snd kv)) fs
  | _ => True
  end.

(** The visits under the keywords of a schema node that hand the data on
    as it is: the combiners, [not] and the conditionals, in the order of
    the table of handlers. *)
Definition same_data_visits (node dataValue : jsval)
    (currentPath : list string) : outcome (list DataTraversalContext) :=
  let traverse := _traverseDataRecursive in
  andThen (on_data_keyword node dataValue "allOf"
             (_handleDataCombiner "allOf" node dataValue currentPath node traverse))
 (andThen (on_data_keyword node dataValue "anyOf"
             (_handleDataCombiner "anyOf" node dataValue currentPath node traverse))
 (andThen (on_data_keyword node dataValue "oneOf"
             (_handleDataCombiner "oneOf" node dataValue currentPath node traverse))
 (andThen (on_data_keyword node dataValue "not"
             (_handleDataNot node dataValue currentPath node traverse))
 (andThen (on_data_keyword node dataValue "if"
             (_handleDataConditional "if" node dataValue currentPath node traverse))
 (andThen (on_data_keyword node dataValue "then"
             (_handleDataConditional "then" node dataValue currentPath node traverse))
          (on_data_keyword node dataValue "else"
             (_handleDataConditional "else" node dataValue currentPath node
                                     traverse))))))).

(** Every visit of a part of the data traversal, when it returns,
    satisfies [P]. *)
Definition visits_all (P : DataTraversalContext -> Prop)
    (d : outcome (list DataTraversalContext)) : Prop :=
  forall l, d = Returns l -> Forall P l.

(** On data that is neither a mapping nor a sequence, the data traversal
    from a schema node stays at the path and with the data that it starts
    with. *)
Definition stays (schemaNode : jsval) : Prop :=
  forall dataValue currentPath propertyName parentSchemaNode,
    is_leaf dataValue = true -> isArray dataValue = false ->
    visits_all
      (fun c => DataTraversalContext.path c = currentPath
                /\ DataTraversalContext.dataValue c = dataValue)
      (_traverseDataRecursive schemaNode dataValue currentPath propertyName
                              parentSchemaNode).

Definition children_stay (schemaNode : jsval) : Prop :=
  match schemaNode with
  | VArr xs => Forall stays xs
  | VObj _ fs => Forall (fun kv => stays (snd kv)) fs
  | _ => True
  end.

(** The size of a value: the number of its nodes. *)
Fixpoint jsize (v : jsval) : nat :=
  match v with
  | VArr xs =>
      S ((fix sum (l : list jsval) : nat :=
            match l with [] => 0 | x :: r => jsize x + sum r end) xs)
  | VObj _ fs =>
      S ((fix sum (l : fieldlist) : nat :=
            match l with [] => 0 | kv :: r => jsize (snd kv) + sum r end) fs)
  | _ => 1
  end.

(** A visit of a node inside the schema node [s]: its parent is a schema
    node that is not larger than [s]. *)
Definition below (s : jsval) (c : DataTraversalContext) : Prop :=
  exists q, DataTraversalContext.parentSchemaNode c = Some q
            /\ jsize q <= jsize s.

(** The visits of the data traversal from a schema node, after the first,
    are of nodes inside it. *)
Definition parents_below (schemaNode : jsval) : Prop :=
  forall dataValue currentPath propertyName parentSchemaNode l,
    _traverseDataRecursive schemaNode dataValue currentPath propertyName
                           parentSchemaNode = Returns l ->
    Forall (below schemaNode) (tail l).

Definition children_parents_below (schemaNode : jsval) : Prop :=
  match schemaNode with
  | VArr xs => Forall parents_below xs
  | VObj _ fs => Forall (fun kv => parents_below (snd kv)) fs
  | _ => True
  end.

(** Exactly one of the visits is [c]: the callback is called once with
    it. *)
Definition once (c : DataTraversalContext) (l : list DataTraversalContext)
  : Prop :=
  exists l1 l2, l = l1 ++ c :: l2 /\ (c ∉ l1) /\ (c ∉ l2).

(** The schema of the property found from the root of a schema along the
    keys [ks], each looked up in the [properties] of the schema before. *)
Fixpoint schema_at (ks : list string) (schema : jsval) : option jsval :=
  match ks with
  | [] => Some schema
  | k :: r =>
      match schema with
      | VObj _ fs =>
          match get_field "properties" fs with
          | Some (VObj _ pfs) =>
              match get_field k pfs with
              | Some sub => schema_at r sub
              | None => None
              end
          | _ => None
          end
      | _ => None
      end
  end.

(** Every key of a mapping of the first value is a key of the mapping at
    the same place in the second value, at every depth where both values
    hold mappings. *)
Fixpoint keys_within (a b : jsval) {struct a} : bool :=
  match a, b with
  | VObj _ fa, VObj _ fb =>
      (fix all (l : fieldlist) : bool :=
         match l with
         | [] => true
         | kv :: r =>
             match get_field (fst kv) fb with
             | Some w => keys_within (snd kv) w
             | None => false
             end && all r
         end) fa
  | _, _ => true
  end.

(** * Properties *)

(** ** Own properties: basic facts *)

Section fields.
Implicit Types (fs : fieldlist) (k key : string) (v : jsval).

Lemma not_inherited_proto key : inherited key = false -> key <> "__proto__".
Proof. by intros H ->. Qed.

Lemma not_inherited_keys (l : list string) :
  Forall (fun k => inherited k = false) l -> "__proto__" ∉ l.
Proof.
  intros H Hin. rewrite Forall_forall in H. by specialize (H _ Hin).
Qed.

Lemma get_field_None key fs : get_field key fs = None <-> key ∉ keys fs.
Proof.
  induction fs as [|[k w] r IH]; simpl.
  - split; [intros _; apply not_elem_of_nil | done].
  - destruct (String.eqb_spec k key) as [->|Hne].
    + split; [done | intros H; exfalso; apply H; left].
    + rewrite IH, not_elem_of_cons. naive_solver.
Qed.

Lemma get_field_is_Some key fs : is_Some (get_field key fs) <-> key ∈ keys fs.
Proof.
  rewrite <- not_eq_None_Some, get_field_None.
  destruct (decide (key ∈ keys fs)); naive_solver.
Qed.

Lemma get_field_elem_of key v fs : get_field key fs = Some v -> (key, v) ∈ fs.
Proof.
  induction fs as [|[k w] r IH]; simpl; [done|].
  destruct (String.eqb_spec k key) as [->|Hne].
  - intros [= ->]. left.
  - intros H. right. auto.
Qed.

Lemma elem_of_get_field key v fs :
  NoDup (keys fs) -> (key, v) ∈ fs -> get_field key fs = Some v.
Proof.
  induction fs as [|[k w] r IH]; simpl; intros Hnd Hin.
  - by apply elem_of_nil in Hin.
  - apply NoDup_cons in Hnd as [Hk Hnd].
    apply elem_of_cons in Hin as [[= -> ->]|Hin].
    + by rewrite String.eqb_refl.
    + destruct (String.eqb_spec k key) as [->|Hne]; [|auto].
      exfalso. apply Hk. apply (list_elem_of_fmap_2 fst) in Hin. exact Hin.
Qed.

Lemma set_field_proto v fs :
  "__proto__" ∉ keys fs -> set_field "__proto__" v fs = fs.
Proof.
  induction fs as [|[k w] r IH]; simpl; [done|].
  rewrite not_elem_of_cons. intros [Hne Hr].
  destruct (String.eqb_spec k "__proto__"); [congruence|]. by rewrite IH.
Qed.

Lemma get_field_set_field key k v fs :
  k <> "__proto__" ->
  get_field key (set_field k v fs)
  = if decide (k = key) then Some v else get_field key fs.
Proof.
  intros Hk. induction fs as [|[k' w] r IH]; simpl.
  - destruct (String.eqb_spec k "__proto__"); [done|]. simpl.
    destruct (String.eqb_spec k key), (decide (k = key)); congruence.
  - destruct (String.eqb_spec k' k) as [->|Hne]; simpl.
    + destruct (String.eqb_spec k key), (decide (k = key)); congruence.
    + destruct (String.eqb_spec k' key) as [->|Hne'].
      * destruct (decide (k = key)); congruence.
      * exact IH.
Qed.

(** An assignment leaves the other properties as they are, whatever the
    key. *)
Lemma get_field_set_field_ne key k v fs :
  k <> key -> get_field key (set_field k v fs) = get_field key fs.
Proof.
  intros Hk. induction fs as [|[k' w] r IH]; simpl.
  - destruct (String.eqb_spec k "__proto__"); [done|]. simpl.
    by destruct (String.eqb_spec k key).
  - destruct (String.eqb_spec k' k) as [->|Hne]; simpl.
    + by destruct (String.eqb_spec k key).
    + by destruct (String.eqb_spec k' key).
Qed.

(** An assignment to a property that the object owns, whatever the key. *)
Lemma get_field_set_field_own k v fs :
  k ∈ keys fs -> get_field k (set_field k v fs) = Some v.
Proof.
  induction fs as [|[k' w] r IH]; simpl; intros Hin.
  - by apply elem_of_nil in Hin.
  - destruct (String.eqb_spec k' k) as [->|Hne]; simpl.
    + by rewrite String.eqb_refl.
    + destruct (String.eqb_spec k' k); [done|].
      apply elem_of_cons in Hin as [->|Hin]; [done | auto].
Qed.

Lemma set_field_absent key v fs :
  key <> "__proto__" ->
  key ∉ keys fs -> set_field key v fs = fs ++ [(key, v)].
Proof.
  intros Hk. induction fs as [|[k w] r IH]; simpl.
  - by destruct (String.eqb_spec key "__proto__").
  - rewrite not_elem_of_cons. intros [Hne Hr].
    destruct (String.eqb_spec k key); [congruence|]. by rewrite IH.
Qed.

Lemma elem_of_keys_set_field key k v fs :
  k <> "__proto__" ->
  key ∈ keys (set_field k v fs) <-> key = k \/ key ∈ keys fs.
Proof.
  intros Hk. rewrite <- !get_field_is_Some, get_field_set_field by done.
  destruct (decide (k = key)) as [->|]; [|naive_solver].
  split; [auto | by eauto].
Qed.

(** An assignment adds no key but its own. *)
Lemma elem_of_keys_set_field_1 key k v fs :
  key ∈ keys (set_field k v fs) -> key = k \/ key ∈ keys fs.
Proof.
  destruct (decide (key = k)) as [->|Hne]; [auto|].
  rewrite <- !get_field_is_Some, get_field_set_field_ne by done. auto.
Qed.

Lemma NoDup_keys_set_field k v fs :
  NoDup (keys fs) -> NoDup (keys (set_field k v fs)).
Proof.
  induction fs as [|[k' w] r IH]; simpl; intros Hnd.
  - destruct (String.eqb k "__proto__"); [done | apply NoDup_singleton].
  - apply NoDup_cons in Hnd as [Hk Hnd].
    destruct (String.eqb_spec k' k) as [->|Hne]; simpl.
    + by apply NoDup_cons.
    + apply NoDup_cons. split; [|auto].
      intros [->|Hin]%elem_of_keys_set_field_1; done.
Qed.

Lemma get_field_delete_field key k fs :
  get_field key (delete_field k fs)
  = if decide (k = key) then None else get_field key fs.
Proof.
  induction fs as [|[k' w] r IH]; simpl.
  - by destruct (decide (k = key)).
  - destruct (String.eqb_spec k' k) as [->|Hne]; simpl.
    + rewrite IH. destruct (decide (k = key)) as [->|Hne]; [done|].
      by destruct (String.eqb_spec k key).
    + destruct (String.eqb_spec k' key) as [->|Hne'].
      * destruct (decide (k = key)); congruence.
      * exact IH.
Qed.

Lemma elem_of_keys_delete_field key k fs :
  key ∈ keys (delete_field k fs) <-> key <> k /\ key ∈ keys fs.
Proof.
  rewrite <- !get_field_is_Some, get_field_delete_field.
  destruct (decide (k = key)) as [->|]; [|naive_solver].
  split; [by intros [? [=]] | naive_solver].
Qed.

Lemma NoDup_keys_delete_field k fs :
  NoDup (keys fs) -> NoDup (keys (delete_field k fs)).
Proof.
  induction fs as [|[k' w] r IH]; simpl; intros Hnd; [done|].
  apply NoDup_cons in Hnd as [Hk Hnd].
  destruct (String.eqb_spec k' k) as [->|Hne]; simpl; [auto|].
  apply NoDup_cons. split; [|auto].
  rewrite elem_of_keys_delete_field. naive_solver.
Qed.

Lemma keys_clone fs :
  keys (map (fun kv => (fst kv, cloneDeep (snd kv))) fs) = keys fs.
Proof. induction fs as [|[k w] r IH]; simpl; [done|]. by f_equal. Qed.

Lemma get_field_clone key fs :
  get_field key (map (fun kv => (fst kv, cloneDeep (snd kv))) fs)
  = cloneDeep <$> get_field key fs.
Proof.
  induction fs as [|[k w] r IH]; simpl; [done|].
  by destruct (String.eqb_spec k key).
Qed.

(** Two objects with distinct keys and the same own keys have as many. *)
Lemma same_keys_length fs gs :
  NoDup (keys fs) -> NoDup (keys gs) ->
  (forall k, k ∈ keys fs <-> k ∈ keys gs) ->
  length fs = length gs.
Proof.
  intros Hf Hg Hkeys.
  assert (keys fs ≡ₚ keys gs) as Hp by (by apply NoDup_Permutation).
  apply Permutation_length in Hp. unfold keys in Hp.
  by rewrite !length_fmap in Hp.
Qed.
End fields.

(** ** [wf], [cloneDeep] and [isEqual] *)

Lemma wf_arr xs : wf (VArr xs) <-> Forall wf xs.
Proof.
  simpl. induction xs as [|x r IH]; [by split|].
  rewrite Forall_cons. by rewrite IH.
Qed.

Lemma wf_obj m fs :
  wf (VObj m fs) <-> NoDup (keys fs) /\ Forall (fun kv => wf (snd kv)) fs.
Proof.
  simpl. apply and_iff_compat_l.
  induction fs as [|kv r IH]; [by split|].
  rewrite Forall_cons. by rewrite IH.
Qed.

Lemma isEqual_arr xs ys :
  isEqual (VArr xs) (VArr ys)
  = (fix all2 (xs ys : list jsval) : bool :=
       match xs, ys with
       | [], [] => true
       | x :: xs', y :: ys' => isEqual x y && all2 xs' ys'
       | _, _ => false
       end) xs ys.
Proof. done. Qed.

Lemma isEqual_obj m fs m' gs :
  isEqual (VObj m fs) (VObj m' gs)
  = Nat.eqb (length fs) (length gs)
    && forallb (fun kv => match get_field (fst kv) gs with
                          | Some w => isEqual (snd kv) w
                          | None => false
                          end) fs.
Proof.
  simpl. f_equal. induction fs as [|[k v] r IH]; simpl; [done|]. by rewrite IH.
Qed.

(** A clone is as equal to any value as the original is. *)
Lemma isEqual_cloneDeep_l a b : isEqual (cloneDeep a) b = isEqual a b.
Proof.
  revert b. induction a as [| | | | |xs IH|m fs IH] using jsval_ind;
    intros c; try done.
  all: rename c into b.
  - destruct b as [| | | | |ys|]; try done.
    change (cloneDeep (VArr xs)) with (VArr (map cloneDeep xs)).
    rewrite !isEqual_arr. revert ys.
    induction IH as [|x r Hx Hr IHr]; intros ys; [done|].
    destruct ys as [|y ys]; simpl; [done|]. by rewrite Hx, IHr.
  - destruct b as [| | | | | |m' gs]; try done.
    change (cloneDeep (VObj m fs))
      with (VObj None (map (fun kv => (fst kv, cloneDeep (snd kv))) fs)).
    rewrite !isEqual_obj, length_map. f_equal.
    induction IH as [|[k v] r Hx Hr IHr]; simpl; [done|].
    rewrite IHr. f_equal. destruct (get_field k gs); [apply Hx | done].
Qed.

Lemma isEqual_refl a : wf a -> isEqual a a = true.
Proof.
  induction a as [| | |n|s|xs IH|m fs IH] using jsval_ind; try done.
  - intros _. simpl. by destruct b.
  - intros _. apply Z.eqb_refl.
  - intros _. apply String.eqb_refl.
  - intros Hwf. apply wf_arr in Hwf. rewrite isEqual_arr.
    induction IH as [|x r Hx Hr IHr]; [done|].
    apply Forall_cons in Hwf as [Hwx Hwr]. by rewrite Hx, IHr.
  - intros Hwf.
    apply wf_obj in Hwf as [Hnd Hwf]. rewrite isEqual_obj, Nat.eqb_refl. simpl.
    apply forallb_forall. intros [k v] Hin. simpl.
    apply list_elem_of_In in Hin.
    rewrite (elem_of_get_field k v fs Hnd Hin).
    rewrite Forall_forall in IH, Hwf. apply (IH (k, v) Hin), (Hwf (k, v) Hin).
Qed.

(** A deep clone deep-equals its original. *)
Lemma isEqual_cloneDeep a : wf a -> isEqual (cloneDeep a) a = true.
Proof. intros Hwf. by rewrite isEqual_cloneDeep_l, isEqual_refl. Qed.

Lemma plain_arr xs : plain (VArr xs) <-> Forall plain xs.
Proof.
  simpl. induction xs as [|x r IH]; [by split|].
  rewrite Forall_cons. by rewrite IH.
Qed.

Lemma plain_obj m fs :
  plain (VObj m fs) <-> m = None /\ Forall (fun kv => plain (snd kv)) fs.
Proof.
  simpl. apply and_iff_compat_l.
  induction fs as [|kv r IH]; [by split|].
  rewrite Forall_cons. by rewrite IH.
Qed.

Lemma plain_cloneDeep v : plain (cloneDeep v).
Proof.
  induction v as [| | | | |xs IH|m fs IH] using jsval_ind; try done.
  - change (plain (VArr (map cloneDeep xs))). apply plain_arr.
    induction IH; simpl; by constructor.
  - change (plain (VObj None (map (fun kv => (fst kv, cloneDeep (snd kv))) fs))).
    apply plain_obj. split; [done|]. induction IH; simpl; by constructor.
Qed.

Lemma cloneDeep_plain v : plain v -> cloneDeep v = v.
Proof.
  induction v as [| | | | |xs IH|m fs IH] using jsval_ind; try done.
  - rewrite plain_arr. intros Hp. simpl. f_equal.
    induction IH as [|x r Hx Hr IHr]; [done|].
    apply Forall_cons in Hp as [Hpx Hpr]. simpl. by rewrite Hx, IHr.
  - rewrite plain_obj. intros [-> Hp]. simpl. f_equal.
    induction IH as [|[k v] r Hx Hr IHr]; [done|].
    apply Forall_cons in Hp as [Hpx Hpr]. simpl in *. by rewrite Hx, IHr.
Qed.

Lemma cloneDeep_idemp v : cloneDeep (cloneDeep v) = cloneDeep v.
Proof. apply cloneDeep_plain, plain_cloneDeep. Qed.

Lemma wf_cloneDeep v : wf v -> wf (cloneDeep v).
Proof.
  induction v as [| | | | |xs IH|m fs IH] using jsval_ind; try done.
  - rewrite wf_arr. intros Hw.
    change (wf (VArr (map cloneDeep xs))). apply wf_arr.
    induction IH as [|x r Hx Hr IHr]; [done|].
    apply Forall_cons in Hw as [Hwx Hwr]. simpl. constructor; auto.
  - rewrite wf_obj. intros [Hnd Hw].
    change (wf (VObj None (map (fun kv => (fst kv, cloneDeep (snd kv))) fs))).
    apply wf_obj. rewrite keys_clone. split; [done|]. clear Hnd.
    induction IH as [|[k v] r Hx Hr IHr]; [done|].
    apply Forall_cons in Hw as [Hwx Hwr]. simpl. constructor; auto.
Qed.

(** ** The handlers of mappings *)

(** [_mergeValues] on two mappings is [_mergeObjects]. *)
Lemma _mergeValues_mergeObjects options m1 fs1 m2 fs2 :
  _mergeValues options (VObj m1 fs1) (VObj m2 fs2)
  = _mergeObjects (VObj m1 fs1) (VObj m2 fs2) options.
Proof. done. Qed.

(** [_diffValues] on two mappings that differ is [_diffObjects], when that
    has an entry. *)
Lemma _diffValues_diffObjects options m1 fs1 m2 fs2 :
  isEqual (VObj m1 fs1) (VObj m2 fs2) = false ->
  _diffValues options (VObj m1 fs1) (VObj m2 fs2)
  = let objDiff := _diffObjects (VObj m1 fs1) (VObj m2 fs2) options in
    if Nat.ltb 0 (length (Object_keys objDiff)) then objDiff else VUndef.
Proof. intros Hne. simpl in *. by rewrite Hne. Qed.

(** ** The loop of [diffAll] *)

Lemma diffAll_loop_skip (d : jsval) (l : list nat) (acc : jsval) :
  Forall (fun i => i <> 0) l ->
  fold_left (fun accumulatedDiff i => if Nat.eqb i 0 then d else accumulatedDiff)
            l acc = acc.
Proof.
  intros Hl. revert acc. induction Hl as [|i r Hi Hr IH]; intros acc; [done|].
  simpl. destruct (Nat.eqb_spec i 0); [done|]. apply IH.
Qed.

Lemma nth_last_index (l : list jsval) (d : jsval) :
  nth (length l - 1) l d = List.last l d.
Proof.
  induction l as [|x [|y r] IH]; try done.
  replace (length (x :: y :: r) - 1) with (S (length (y :: r) - 1))
    by (simpl; lia).
  exact IH.
Qed.

Lemma diffAll_unfold (objects : list jsval) (options : DiffOptions) :
  2 <= length objects ->
  diffAll objects options
  = diff (List.hd VUndef objects) (List.last objects VUndef) options.
Proof.
  intros Hlen. unfold diffAll.
  destruct (Nat.ltb_spec (length objects) 2) as [|_]; [lia|].
  destruct (length objects - 1) as [|m] eqn:Hm; [lia|].
  rewrite <- cons_seq. cbn [fold_left Nat.eqb].
  rewrite <- Hm, nth_last_index, diffAll_loop_skip.
  - by destruct objects.
  - apply Forall_forall. intros i Hi%elem_of_seq. lia.
Qed.

(** ** The loop of [_mergeObjects] into an object that has none of the keys *)

Lemma _mergeValues_undefined options val2 :
  _mergeValues options VUndef val2 = cloneDeep val2.
Proof. by destruct val2. Qed.

Lemma _mergeObjects_loop_fresh options (fs2 acc : fieldlist) :
  NoDup (keys fs2) ->
  "__proto__" ∉ keys fs2 ->
  (forall k, k ∈ keys fs2 -> k ∉ keys acc) ->
  _mergeObjects_loop (_mergeValues options) (VObj None acc) fs2
  = VObj None (acc ++ map (fun kv => (fst kv, cloneDeep (snd kv))) fs2).
Proof.
  unfold _mergeObjects_loop. revert acc.
  induction fs2 as [|[k v] r IH]; intros acc Hnd Hproto Hfresh; simpl.
  - by rewrite app_nil_r.
  - apply NoDup_cons in Hnd as [Hk Hnd].
    apply not_elem_of_cons in Hproto as [Hne Hproto].
    assert (k ∉ keys acc) as Hkacc by (apply Hfresh; left).
    apply get_field_None in Hkacc as Hget. rewrite Hget. simpl.
    rewrite _mergeValues_undefined, set_field_absent by done.
    rewrite IH; [by rewrite <- app_assoc | done.. |].
    intros k' Hk'. unfold keys. rewrite fmap_app, elem_of_app. simpl.
    intros [Hin|Hin%list_elem_of_singleton].
    + revert Hin. apply Hfresh. by right.
    + by subst.
Qed.

Lemma merge_into_empty options m fs :
  NoDup (keys fs) ->
  "__proto__" ∉ keys fs ->
  merge (VObj None []) (VObj m fs) options = cloneDeep (VObj m fs).
Proof.
  intros Hnd Hproto. unfold merge. simpl.
  rewrite _mergeObjects_loop_fresh; [done..|].
  intros k _. apply not_elem_of_nil.
Qed.

Lemma merge_into_empty_wf options x :
  wf x -> "__proto__" ∉ Object_keys x ->
  merge (VObj None []) x options = cloneDeep x.
Proof.
  destruct x as [| | | | |xs|m fs]; try done.
  - intros [Hnd _]%wf_obj Hproto. by apply merge_into_empty.
Qed.

(** ** Traversals return *)

Lemma returns_Returns {A} (a : A) : returns (Returns a).
Proof. by exists a. Qed.

Lemma returns_andThen {A} (m1 m2 : outcome (list A)) :
  returns m1 -> returns m2 -> returns (andThen m1 m2).
Proof. intros [v1 ->] [v2 ->]. by eexists. Qed.

Lemma returns_on_data_keyword {A} node dataValue keyword
    (visits : outcome (list A)) :
  (_isDataCompatible keyword node dataValue = true -> returns visits) ->
  returns (on_data_keyword node dataValue keyword visits).
Proof.
  intros H. unfold on_data_keyword.
  destruct (hasOwnProperty node keyword); [|apply returns_Returns].
  destruct (_isDataCompatible keyword node dataValue);
    [by apply H | apply returns_Returns].
Qed.

Lemma returns_with_prop {A} m fs key (present : jsval -> outcome (list A)) :
  (forall k v, (k, v) ∈ fs -> returns (present v)) ->
  returns (with_prop (VObj m fs) key (Returns []) present).
Proof.
  simpl. induction fs as [|[k v] r IH]; intros H; [apply returns_Returns|].
  destruct (String.eqb k key).
  - apply (H k v). left.
  - apply IH. intros k' v' Hin. apply (H k' v'). by right.
Qed.

Lemma returns_forEachM {A} xs (body : jsval -> nat -> outcome (list A)) :
  (forall x i, x ∈ xs -> returns (body x i)) ->
  returns (forEachM xs body).
Proof.
  unfold forEachM. generalize 0.
  induction xs as [|x r IH]; intros n H; [apply returns_Returns|].
  apply returns_andThen; [apply H; left|].
  apply IH. intros y i Hy. apply H. by right.
Qed.

Lemma returns_for_inM {A} v (body : string -> jsval -> outcome (list A)) :
  (forall xs k x, v = VArr xs -> x ∈ xs -> returns (body k x)) ->
  (forall m fs k x, v = VObj m fs -> (k, x) ∈ fs -> returns (body k x)) ->
  returns (for_inM v body).
Proof.
  destruct v as [| | | | |xs|m fs]; intros Ha Ho; try apply returns_Returns.
  - simpl. specialize (Ha xs). clear Ho. generalize 0.
    induction xs as [|x r IH]; intros n; [apply returns_Returns|].
    apply returns_andThen; [apply Ha; [done | left]|].
    apply IH. intros k y _ Hy. apply Ha; [done | by right].
  - simpl. specialize (Ho m fs). clear Ha.
    induction fs as [|[k x] r IH]; [apply returns_Returns|].
    apply returns_andThen; [apply Ho; [done | left]|].
    apply IH. intros k' y _ Hy. apply Ho; [done | by right].
Qed.

Lemma _traverseDataRecursive_returns schemaNode :
  traversal_returns schemaNode /\ children_return schemaNode.
Proof.
  induction schemaNode as [| | | | |xs IH|m fs IH] using jsval_ind;
    try (split; [intros ????; apply returns_Returns | done]).
  - split; [|eapply Forall_impl; [exact IH | by intros ? []]].
    intros ????. apply returns_Returns.
  - assert (Forall (fun kv => traversal_returns (snd kv)) fs) as Hc
      by (eapply Forall_impl; [exact IH | by intros ? []]).
    assert (Forall (fun kv => children_return (snd kv)) fs) as Hg
      by (eapply Forall_impl; [exact IH | by intros ? []]).
    split; [|exact Hc].
    rewrite Forall_forall in Hc, Hg.
    assert (forall k v, (k, v) ∈ fs -> traversal_returns v) as Hchild
      by (intros k v Hin; apply (Hc (k, v) Hin)).
    assert (forall k v xs x, (k, v) ∈ fs -> v = VArr xs -> x ∈ xs ->
                             traversal_returns x) as Harr.
    { intros k v xs x Hin -> Hx. specialize (Hg (k, VArr xs) Hin).
      simpl in Hg. rewrite Forall_forall in Hg. by apply Hg. }
    assert (forall k v m' gs k' x, (k, v) ∈ fs -> v = VObj m' gs ->
                                   (k', x) ∈ gs -> traversal_returns x) as Hobj.
    { intros k v m' gs k' x Hin -> Hx. specialize (Hg (k, VObj m' gs) Hin).
      simpl in Hg. rewrite Forall_forall in Hg. by apply (Hg (k', x)). }
    intros dataValue currentPath propertyName parentSchemaNode.
    cbn [_traverseDataRecursive typeof_object is_null negb orb].
    repeat (apply returns_andThen); try apply returns_Returns;
      apply returns_on_data_keyword; intros Hcompat.
    + (* properties *)
      apply returns_with_prop. intros k v Hin.
      destruct (truthy v); [|apply returns_Returns].
      apply returns_for_inM.
      * intros xs k' x Hv Hx. by eapply Harr.
      * intros m' gs k' x Hv Hx. by eapply Hobj.
    + (* items *)
      destruct dataValue as [| | | | |dataItems|]; try done.
      apply returns_with_prop. intros k v Hin.
      destruct (truthy v); [|apply returns_Returns].
      destruct v as [| | | | |itemSchemas|m' gs];
        try (apply returns_forEachM; intros x i Hx; by eapply Hchild).
      apply returns_forEachM. intros x i Hx.
      destruct (i <? length dataItems)%nat; [|apply returns_Returns].
      by eapply Harr.
    + apply returns_with_prop. intros k v Hin.
      destruct v as [| | | | |subSchemas|]; try apply returns_Returns.
      apply returns_forEachM. intros x i Hx. by eapply Harr.
    + apply returns_with_prop. intros k v Hin.
      destruct v as [| | | | |subSchemas|]; try apply returns_Returns.
      apply returns_forEachM. intros x i Hx. by eapply Harr.
    + apply returns_with_prop. intros k v Hin.
      destruct v as [| | | | |subSchemas|]; try apply returns_Returns.
      apply returns_forEachM. intros x i Hx. by eapply Harr.
    + apply returns_with_prop. intros k v Hin.
      destruct (truthy v && typeof_object v); [|apply returns_Returns].
      by eapply Hchild.
    + apply returns_with_prop. intros k v Hin.
      destruct (truthy v && typeof_object v); [|apply returns_Returns].
      by eapply Hchild.
    + apply returns_with_prop. intros k v Hin.
      destruct (truthy v && typeof_object v); [|apply returns_Returns].
      by eapply Hchild.
    + apply returns_with_prop. intros k v Hin.
      destruct (truthy v && typeof_object v); [|apply returns_Returns].
      by eapply Hchild.
    + (* dependentSchemas *)
      destruct dataValue as [| | | | | |dm dfs]; try done.
      apply returns_with_prop. intros k v Hin.
      destruct (truthy v); [|apply returns_Returns].
      apply returns_for_inM.
      * intros xs k' x Hv Hx.
        destruct (hasOwnProperty _ _); [|apply returns_Returns]. by eapply Harr.
      * intros m' gs k' x Hv Hx.
        destruct (hasOwnProperty _ _); [|apply returns_Returns]. by eapply Hobj.
Qed.

Lemma traverseData_returns schema data : returns (traverseData schema data).
Proof. apply _traverseDataRecursive_returns. Qed.

(** ** Shapes of data that a keyword does not fit *)

Lemma andThen_Returns {A} (m1 m2 : outcome (list A)) l :
  andThen m1 m2 = Returns l ->
  exists l1 l2, m1 = Returns l1 /\ m2 = Returns l2 /\ l = l1 ++ l2.
Proof.
  destruct m1 as [l1|], m2 as [l2|]; try done.
  intros [= <-]. by exists l1, l2.
Qed.

Lemma andThen_nil_l {A} (m : outcome (list A)) : andThen (Returns []) m = m.
Proof. by destruct m. Qed.

Lemma andThen_nil_r {A} (m : outcome (list A)) : andThen m (Returns []) = m.
Proof. destruct m; [|done]. simpl. by rewrite app_nil_r. Qed.

Lemma andThen_assoc {A} (m1 m2 m3 : outcome (list A)) :
  andThen m1 (andThen m2 m3) = andThen (andThen m1 m2) m3.
Proof.
  destruct m1 as [l1|], m2 as [l2|], m3 as [l3|]; try done.
  simpl. by rewrite app_assoc.
Qed.

(** [properties] and [dependentSchemas] on data that is not a mapping,
    [items] on data that is not a sequence: the handler is not called. *)
Lemma on_data_keyword_mapping {A} node dataValue (visits : outcome (list A)) :
  is_leaf dataValue = true ->
  on_data_keyword node dataValue "properties" visits = Returns []
  /\ on_data_keyword node dataValue "dependentSchemas" visits = Returns [].
Proof.
  intros Hleaf. unfold on_data_keyword.
  destruct dataValue; try done;
    by destruct (hasOwnProperty node "properties"),
                (hasOwnProperty node "dependentSchemas").
Qed.

Lemma on_data_keyword_sequence {A} node dataValue (visits : outcome (list A)) :
  isArray dataValue = false ->
  on_data_keyword node dataValue "items" visits = Returns [].
Proof.
  intros Harr. unfold on_data_keyword.
  destruct dataValue; try done; by destruct (hasOwnProperty node "items").
Qed.

(** On data that is not a mapping, nothing is visited for [properties]
    and [dependentSchemas]; on data that is not a sequence, nothing is
    visited for [items]. *)
Lemma _traverseDataRecursive_not_mapping m fs dataValue currentPath
    propertyName parent :
  is_leaf dataValue = true ->
  let node := VObj m fs in
  _traverseDataRecursive node dataValue currentPath propertyName parent
  = andThen
      (Returns
         [DataTraversalContext.make
            (SchemaTraversalContext.make node currentPath propertyName parent)
            dataValue])
      (andThen
         (on_data_keyword node dataValue "items"
            (_handleDataItems node dataValue currentPath node
                              _traverseDataRecursive))
         (same_data_visits node dataValue currentPath)).
Proof.
  intros Hleaf node.
  subst node. cbn [_traverseDataRecursive typeof_object is_null negb orb].
  rewrite (proj1 (on_data_keyword_mapping _ dataValue _ Hleaf)),
          (proj2 (on_data_keyword_mapping _ dataValue _ Hleaf)).
  rewrite andThen_nil_l. unfold same_data_visits. cbn zeta.
  by rewrite andThen_nil_r.
Qed.

Lemma _traverseDataRecursive_not_sequence m fs dataValue currentPath
    propertyName parent :
  isArray dataValue = false ->
  let node := VObj m fs in
  _traverseDataRecursive node dataValue currentPath propertyName parent
  = andThen
      (Returns
         [DataTraversalContext.make
            (SchemaTraversalContext.make node currentPath propertyName parent)
            dataValue])
      (andThen
         (on_data_keyword node dataValue "properties"
            (_handleDataProperties node dataValue currentPath node
                                   _traverseDataRecursive))
         (andThen
            (same_data_visits node dataValue currentPath)
            (on_data_keyword node dataValue "dependentSchemas"
               (_handleDataDependentSchemas node dataValue currentPath node
                                            _traverseDataRecursive)))).
Proof.
  intros Hseq node.
  subst node. cbn [_traverseDataRecursive typeof_object is_null negb orb].
  rewrite (on_data_keyword_sequence _ dataValue _ Hseq).
  rewrite andThen_nil_l. unfold same_data_visits. cbn zeta.
  by rewrite !andThen_assoc.
Qed.

Section visits_all.
Variable P : DataTraversalContext -> Prop.

Lemma visits_all_nil : visits_all P (Returns []).
Proof. by intros l [= <-]. Qed.

Lemma visits_all_andThen d1 d2 :
  visits_all P d1 -> visits_all P d2 -> visits_all P (andThen d1 d2).
Proof.
  intros H1 H2 l (l1 & l2 & -> & -> & ->)%andThen_Returns.
  apply Forall_app. split; [by apply H1 | by apply H2].
Qed.

Lemma visits_all_with_prop m fs key
    (fd : jsval -> outcome (list DataTraversalContext)) :
  (forall k v, (k, v) ∈ fs -> visits_all P (fd v)) ->
  visits_all P (with_prop (VObj m fs) key (Returns []) fd).
Proof.
  simpl. induction fs as [|[k v] r IH]; intros H; [apply visits_all_nil|].
  destruct (String.eqb k key).
  - apply (H k v). left.
  - apply IH. intros k' v' Hin. apply (H k' v'). by right.
Qed.

Lemma visits_all_forEach xs
    (bd : jsval -> nat -> outcome (list DataTraversalContext)) :
  (forall x i, x ∈ xs -> visits_all P (bd x i)) ->
  visits_all P (forEachM xs bd).
Proof.
  unfold forEachM. generalize 0.
  induction xs as [|x r IH]; intros n H; [apply visits_all_nil|].
  apply visits_all_andThen; [apply H; left|].
  apply IH. intros y i Hy. apply H. by right.
Qed.

Lemma visits_all_Throws : visits_all P Throws.
Proof. by intros l. Qed.

Lemma visits_all_on_keyword node dataValue keyword d :
  visits_all P d -> visits_all P (on_data_keyword node dataValue keyword d).
Proof.
  intros H. unfold on_data_keyword.
  destruct (hasOwnProperty node keyword); [|apply visits_all_nil].
  destruct (_isDataCompatible keyword node dataValue);
    [done | apply visits_all_nil].
Qed.

Lemma visits_all_for_in v
    (bd : string -> jsval -> outcome (list DataTraversalContext)) :
  (forall xs k x, v = VArr xs -> x ∈ xs -> visits_all P (bd k x)) ->
  (forall m fs k x, v = VObj m fs -> (k, x) ∈ fs -> visits_all P (bd k x)) ->
  visits_all P (for_inM v bd).
Proof.
  destruct v as [| | | | |xs|m fs]; intros Ha Ho; try apply visits_all_nil.
  - simpl. specialize (Ha xs). clear Ho. generalize 0.
    induction xs as [|x r IH]; intros n; [apply visits_all_nil|].
    apply visits_all_andThen; [apply Ha; [done | left]|].
    apply IH. intros k y _ Hy. apply Ha; [done | by right].
  - simpl. specialize (Ho m fs). clear Ha.
    induction fs as [|[k x] r IH]; [apply visits_all_nil|].
    apply visits_all_andThen; [apply Ho; [done | left]|].
    apply IH. intros k' y _ Hy. apply Ho; [done | by right].
Qed.
End visits_all.

Lemma _traverseDataRecursive_stays schemaNode :
  stays schemaNode /\ children_stay schemaNode.
Proof.
  induction schemaNode as [| | | | |xs IH|m fs IH] using jsval_ind;
    try (split; [intros ??????; apply visits_all_nil | done]).
  - split; [|eapply Forall_impl; [exact IH | by intros ? []]].
    intros dv p n par _ _ l [= <-]. by repeat constructor.
  - assert (Forall (fun kv => stays (snd kv)) fs) as Hc
      by (eapply Forall_impl; [exact IH | by intros ? []]).
    assert (Forall (fun kv => children_stay (snd kv)) fs) as Hg
      by (eapply Forall_impl; [exact IH | by intros ? []]).
    split; [|exact Hc].
    rewrite Forall_forall in Hc, Hg.
    assert (forall k v, (k, v) ∈ fs -> stays v) as Hchild
      by (intros k v Hin; apply (Hc (k, v) Hin)).
    assert (forall k v xs x, (k, v) ∈ fs -> v = VArr xs -> x ∈ xs -> stays x)
      as Harr.
    { intros k v xs x Hin -> Hx. specialize (Hg (k, VArr xs) Hin).
      simpl in Hg. rewrite Forall_forall in Hg. by apply Hg. }
    intros dataValue currentPath propertyName parentSchemaNode Hleaf Hseq.
    cbn [_traverseDataRecursive typeof_object is_null negb orb].
    rewrite (proj1 (on_data_keyword_mapping _ dataValue _ Hleaf)),
            (proj2 (on_data_keyword_mapping _ dataValue _ Hleaf)),
            (on_data_keyword_sequence _ dataValue _ Hseq).
    apply visits_all_andThen; [intros l [= <-]; by repeat constructor|].
    repeat (apply visits_all_andThen); try apply visits_all_nil;
      unfold on_data_keyword;
      (destruct (hasOwnProperty _ _); [|apply visits_all_nil]);
      (destruct (_isDataCompatible _ _ _); [|apply visits_all_nil]);
      apply visits_all_with_prop; intros k v Hin.
    + destruct v as [| | | | |subSchemas|]; try apply visits_all_nil.
      apply visits_all_forEach. intros x i Hx. by eapply Harr.
    + destruct v as [| | | | |subSchemas|]; try apply visits_all_nil.
      apply visits_all_forEach. intros x i Hx. by eapply Harr.
    + destruct v as [| | | | |subSchemas|]; try apply visits_all_nil.
      apply visits_all_forEach. intros x i Hx. by eapply Harr.
    + destruct (truthy v && typeof_object v); [|apply visits_all_nil].
      by eapply Hchild.
    + destruct (truthy v && typeof_object v); [|apply visits_all_nil].
      by eapply Hchild.
    + destruct (truthy v && typeof_object v); [|apply visits_all_nil].
      by eapply Hchild.
    + destruct (truthy v && typeof_object v); [|apply visits_all_nil].
      by eapply Hchild.
Qed.

(** ** Paths *)

Lemma string_app_cons a (s t : string) : String a s +:+ t = String a (s +:+ t).
Proof. reflexivity. Qed.

Lemma string_app_nil (t : string) : "" +:+ t = t.
Proof. reflexivity. Qed.

Lemma string_app_assoc (s1 s2 s3 : string) : (s1 +:+ s2) +:+ s3 = s1 +:+ s2 +:+ s3.
Proof.
  induction s1 as [|a s1 IH]; [done|]. rewrite !string_app_cons. by rewrite IH.
Qed.

Lemma includes_app c (s1 s2 : string) :
  includes c (s1 +:+ s2) = includes c s1 || includes c s2.
Proof.
  induction s1 as [|a s1 IH]; [done|].
  rewrite string_app_cons. simpl. by rewrite IH, orb_assoc.
Qed.

Lemma includes_sep c (p k : string) : includes c (p +:+ String c k) = true.
Proof.
  rewrite includes_app. simpl. rewrite Ascii.eqb_refl. simpl.
  apply orb_true_r.
Qed.

Lemma after_last_sep c (p k : string) :
  includes c k = false -> after_last c (p +:+ String c k) = k.
Proof.
  intros Hk. induction p as [|a p IH].
  - rewrite string_app_nil. simpl. by rewrite Hk, Ascii.eqb_refl.
  - rewrite string_app_cons. simpl. by rewrite includes_sep.
Qed.

Lemma app_sep_inj c (p p' k : string) :
  includes c k = false -> p +:+ String c k = p' +:+ String c k -> p = p'.
Proof.
  intros Hk. revert p'.
  induction p as [|a p IH]; intros [|a' p'];
    rewrite ?string_app_cons, ?string_app_nil; intros Heq; try done.
  - injection Heq as _ Heq. rewrite Heq, includes_sep in Hk. done.
  - injection Heq as _ Heq. rewrite <- Heq, includes_sep in Hk. done.
  - injection Heq as -> Heq. f_equal. by apply IH.
Qed.

Lemma goodkey_spec key :
  goodkey key = true -> key <> "" /\ includes "." key = false.
Proof.
  unfold goodkey, truthy_string.
  rewrite !andb_true_iff, !negb_true_iff, String.eqb_neq. naive_solver.
Qed.

Lemma goodkey_proto key : goodkey key = true -> key <> "__proto__".
Proof.
  unfold goodkey. rewrite !andb_true_iff, !negb_true_iff, String.eqb_neq.
  naive_solver.
Qed.

Lemma propertyPath_sep (p k : string) :
  truthy_string p = true -> propertyPath p k = p +:+ String "." k.
Proof. unfold propertyPath. by intros ->. Qed.

Lemma propertyPath_root (p k : string) :
  truthy_string p = false -> propertyPath p k = k.
Proof. unfold propertyPath. by intros ->. Qed.

Lemma truthy_string_false (s : string) : truthy_string s = false <-> s = "".
Proof. unfold truthy_string. by rewrite negb_false_iff, String.eqb_eq. Qed.

Lemma truthy_propertyPath (p k : string) :
  goodkey k = true -> truthy_string (propertyPath p k) = true.
Proof.
  intros [Hne _]%goodkey_spec. unfold propertyPath.
  destruct (truthy_string p) eqn:Hp.
  - destruct p; [done|]. done.
  - unfold truthy_string. by rewrite negb_true_iff, String.eqb_neq.
Qed.

(** The [parentKey] of the path of a property is the key of the property,
    when the key is good. *)
Lemma parentKey_propertyPath (p k : string) :
  goodkey k = true -> parentKey (propertyPath p k) = k.
Proof.
  intros [Hne Hdot]%goodkey_spec. unfold parentKey.
  destruct (truthy_string p) eqn:Hp.
  - rewrite propertyPath_sep, includes_sep by done. by apply after_last_sep.
  - rewrite propertyPath_root by done. by rewrite Hdot.
Qed.

Lemma Forall_snoc_inv {A} (P : A -> Prop) (l : list A) (x : A) :
  Forall P (l ++ [x]) -> Forall P l /\ P x.
Proof.
  intros H. apply Forall_app in H as [Hl Hx]. split; [done|].
  by inversion Hx.
Qed.

Lemma pathOf_snoc ks k : pathOf (ks ++ [k]) = propertyPath (pathOf ks) k.
Proof. unfold pathOf. by rewrite fold_left_app. Qed.

Lemma truthy_pathOf ks :
  Forall (fun k => goodkey k = true) ks -> ks <> [] ->
  truthy_string (pathOf ks) = true.
Proof.
  destruct ks as [|k ks _] using rev_ind; [done|].
  intros [_ Hk]%Forall_snoc_inv _.
  rewrite pathOf_snoc. by apply truthy_propertyPath.
Qed.

(** Distinct lists of good keys have distinct paths. *)
Lemma pathOf_inj ks ks' :
  Forall (fun k => goodkey k = true) ks ->
  Forall (fun k => goodkey k = true) ks' ->
  pathOf ks = pathOf ks' -> ks = ks'.
Proof.
  revert ks'. induction ks as [|k ks IH] using rev_ind; intros ks' Hg Hg' Heq.
  - destruct ks' as [|k' ks' _] using rev_ind; [done|].
    apply truthy_pathOf in Hg'; [|by destruct ks'].
    rewrite <- Heq in Hg'. done.
  - destruct ks' as [|k' ks' _] using rev_ind.
    { apply truthy_pathOf in Hg; [|by destruct ks]. rewrite Heq in Hg. done. }
    apply Forall_snoc_inv in Hg as [Hg Hk].
    apply Forall_snoc_inv in Hg' as [Hg' Hk'].
    rewrite !pathOf_snoc in Heq.
    assert (k = k') as <-.
    { rewrite <- (parentKey_propertyPath (pathOf ks) k Hk), Heq.
      by apply parentKey_propertyPath. }
    f_equal. apply IH; [done..|].
    apply goodkey_spec in Hk as [Hne Hdot].
    destruct (truthy_string (pathOf ks)) eqn:Hp,
             (truthy_string (pathOf ks')) eqn:Hp'.
    + rewrite !propertyPath_sep in Heq by done. by eapply app_sep_inj.
    + rewrite propertyPath_sep, propertyPath_root in Heq by done.
      rewrite <- Heq, includes_sep in Hdot. done.
    + rewrite propertyPath_root, propertyPath_sep in Heq by done.
      rewrite Heq, includes_sep in Hdot. done.
    + apply truthy_string_false in Hp, Hp'. congruence.
Qed.

Lemma Array_join_snoc (sep : string) ks k :
  ks <> [] -> Array_join sep (ks ++ [k]) = Array_join sep ks +:+ sep +:+ k.
Proof.
  induction ks as [|a [|b r] IH]; intros Hne; [done..|].
  change (Array_join sep ((a :: b :: r) ++ [k]))
    with (a +:+ sep +:+ Array_join sep ((b :: r) ++ [k])).
  rewrite IH by done.
  change (Array_join sep (a :: b :: r)) with (a +:+ sep +:+ Array_join sep (b :: r)).
  by rewrite !string_app_assoc.
Qed.

(** For good keys, the path that the merge builds is the dotted path. *)
Lemma pathOf_join ks :
  Forall (fun k => goodkey k = true) ks -> pathOf ks = Array_join "." ks.
Proof.
  induction ks as [|k ks IH] using rev_ind; [done|].
  intros [Hg Hk]%Forall_snoc_inv.
  rewrite pathOf_snoc, IH by done.
  destruct ks as [|a r]; [done|].
  rewrite Array_join_snoc by done.
  rewrite propertyPath_sep; [done|].
  rewrite <- IH by done. by apply truthy_pathOf.
Qed.

(** The dotted path of good keys is not [__proto__]. *)
Lemma Array_join_proto ks :
  Forall (fun k => goodkey k = true) ks -> ks <> [] ->
  Array_join "." ks <> "__proto__".
Proof.
  intros Hks Hne. rewrite <- pathOf_join by done.
  destruct ks as [|k ks _] using rev_ind; [done|].
  apply Forall_snoc_inv in Hks as [_ Hk].
  rewrite pathOf_snoc. intros Heq.
  pose proof (parentKey_propertyPath (pathOf ks) k Hk) as Hpk.
  rewrite Heq in Hpk. by apply (goodkey_proto k).
Qed.

(** ** Values along a path *)

Lemma wf_get_field m fs k x : wf (VObj m fs) -> get_field k fs = Some x -> wf x.
Proof.
  intros [_ Hwf]%wf_obj Hget%get_field_elem_of.
  rewrite Forall_forall in Hwf. apply (Hwf (k, x) Hget).
Qed.

Lemma wf_obj_intro m fs :
  NoDup (keys fs) -> (forall k x, get_field k fs = Some x -> wf x) ->
  wf (VObj m fs).
Proof.
  intros Hnd H. apply wf_obj. split; [done|].
  apply Forall_forall. intros [k x] Hin. apply (H k). by apply elem_of_get_field.
Qed.

Lemma plain_get_field m fs k x :
  plain (VObj m fs) -> get_field k fs = Some x -> plain x.
Proof.
  intros [_ Hp]%plain_obj Hget%get_field_elem_of.
  rewrite Forall_forall in Hp. apply (Hp (k, x) Hget).
Qed.

Lemma lookup_path_cons k ks m fs :
  lookup_path (k :: ks) (VObj m fs)
  = match get_field k fs with Some x => lookup_path ks x | None => None end.
Proof. done. Qed.

Lemma lookup_path_leaf k ks v : is_leaf v = true -> lookup_path (k :: ks) v = None.
Proof. by destruct v. Qed.

Lemma lookup_path_wf ks v x : wf v -> lookup_path ks v = Some x -> wf x.
Proof.
  revert v. induction ks as [|k ks IH]; intros v Hwf; simpl.
  - by intros [= <-].
  - destruct v as [| | | | | |m fs]; try done.
    destruct (get_field k fs) as [c|] eqn:Hc; [|done].
    apply IH. by eapply wf_get_field.
Qed.

Lemma lookup_path_plain ks v x : plain v -> lookup_path ks v = Some x -> plain x.
Proof.
  revert v. induction ks as [|k ks IH]; intros v Hp; simpl.
  - by intros [= <-].
  - destruct v as [| | | | | |m fs]; try done.
    destruct (get_field k fs) as [c|] eqn:Hc; [|done].
    apply IH. by eapply plain_get_field.
Qed.

Lemma lookup_path_cloneDeep ks v :
  lookup_path ks (cloneDeep v) = cloneDeep <$> lookup_path ks v.
Proof.
  revert v. induction ks as [|k ks IH]; intros v; [done|].
  destruct v as [| | | | | |m fs]; try done.
  change (cloneDeep (VObj m fs))
    with (VObj None (map (fun kv => (fst kv, cloneDeep (snd kv))) fs)).
  rewrite !lookup_path_cons, get_field_clone.
  destruct (get_field k fs) as [c|]; simpl; [apply IH | done].
Qed.

Lemma recorded_single k v : recorded [k] v = getMetadata v k.
Proof. done. Qed.

Lemma recorded_cons k ks m fs :
  ks <> [] ->
  recorded (k :: ks) (VObj m fs)
  = match get_field k fs with Some x => recorded ks x | None => None end.
Proof. by destruct ks. Qed.

Lemma recorded_leaf ks v : is_leaf v = true -> recorded ks v = None.
Proof. destruct ks as [|k [|k' r]]; by destruct v. Qed.

Lemma recorded_plain ks v : plain v -> recorded ks v = None.
Proof.
  revert v. induction ks as [|k ks IH]; intros v Hp; [done|].
  destruct v as [| | | | | |m fs]; try by apply recorded_leaf.
  destruct (decide (ks = [])) as [->|Hne].
  - apply plain_obj in Hp as [-> _]. done.
  - rewrite recorded_cons by done.
    destruct (get_field k fs) as [c|] eqn:Hc; [|done].
    apply IH. by eapply plain_get_field.
Qed.

Lemma goodkeys_obj m fs :
  goodkeys (VObj m fs) = true
  <-> Forall (fun kv => goodkey (fst kv) = true /\ goodkeys (snd kv) = true) fs.
Proof.
  simpl. induction fs as [|kv r IH]; [by split|].
  rewrite Forall_cons, !andb_true_iff, IH. done.
Qed.

Lemma goodkeys_get_field m fs k x :
  goodkeys (VObj m fs) = true -> get_field k fs = Some x ->
  goodkey k = true /\ goodkeys x = true.
Proof.
  intros Hg%goodkeys_obj Hget%get_field_elem_of.
  rewrite Forall_forall in Hg. apply (Hg (k, x) Hget).
Qed.

Lemma goodkeys_keys_good v : goodkeys v = true -> keys_good v.
Proof.
  intros Hg ks. revert v Hg. induction ks as [|k ks IH]; intros v Hg x; [done|].
  destruct v as [| | | | | |m fs]; try done.
  rewrite lookup_path_cons.
  destruct (get_field k fs) as [c|] eqn:Hc; [|done].
  destruct (goodkeys_get_field m fs k c Hg Hc) as [Hk Hgc].
  intros Hx. constructor; [done|]. by eapply IH.
Qed.

(** ** The invariant on leaves, clones and attributes *)

Lemma keys_good_child m fs k c :
  keys_good (VObj m fs) -> get_field k fs = Some c ->
  goodkey k = true /\ keys_good c.
Proof.
  intros Hg Hc. split.
  - assert (lookup_path [k] (VObj m fs) = Some c) as H by (simpl; by rewrite Hc).
    apply Hg in H. by inversion H.
  - intros ks x Hx.
    assert (lookup_path (k :: ks) (VObj m fs) = Some x) as H
      by (by rewrite lookup_path_cons, Hc).
    apply Hg in H. by inversion H.
Qed.

Lemma keys_good_cloneDeep v : keys_good v -> keys_good (cloneDeep v).
Proof.
  intros Hg ks x. rewrite lookup_path_cloneDeep.
  destruct (lookup_path ks v) as [x0|] eqn:Hx0; [|done]. intros _. by eapply Hg.
Qed.

Lemma keys_good_leaf v : is_leaf v = true -> keys_good v.
Proof.
  intros Hl [|k ks] x; [done|]. by rewrite lookup_path_leaf.
Qed.

Lemma treeinv_plain prefix v : plain v -> keys_good v -> treeinv prefix v.
Proof.
  intros Hp Hg. split; [done|]. split.
  - intros ks xs Hx. by eapply lookup_path_plain.
  - intros ks m. by rewrite recorded_plain.
Qed.

Lemma treeinv_leaf prefix v :
  is_leaf v = true -> (forall xs, v = VArr xs -> plain v) -> treeinv prefix v.
Proof.
  intros Hl Ha. split; [by apply keys_good_leaf|]. split.
  - intros [|k ks] xs; [|by rewrite lookup_path_leaf].
    intros [= ->]. by eapply Ha.
  - intros ks m. by rewrite recorded_leaf.
Qed.

Lemma touched_or_kept_leaf target result :
  is_leaf result = true -> touched_or_kept target result.
Proof.
  intros Hl [|k ks] x Hne; [done|]. by rewrite lookup_path_leaf.
Qed.

(** ** One call of [_mergeRecursiveWithMetadata] *)

Section merge_call.
Variables (options : MergeOptions) (sourceId : jsval).

Abbreviation rec := (_mergeRecursiveWithMetadata options sourceId).
Abbreviation merged := (mergedValue options sourceId).

(** The merged value does not depend on the map of the parent. *)
Lemma merge_fst target source currentPath parentMap :
  fst (rec target source currentPath parentMap) = merged target source currentPath.
Proof. by destruct source. Qed.

(** The map of the parent gets the entry of the merged value, and nothing
    else. *)
Lemma merge_snd target source currentPath parentMap :
  is_undefined source = false ->
  snd (rec target source currentPath parentMap)
  = record_in_parent sourceId currentPath (merged target source currentPath)
                     parentMap.
Proof. by destruct source. Qed.

Lemma record_in_parent_good p k v parentMap :
  goodkey k = true ->
  record_in_parent sourceId (propertyPath p k) v parentMap
  = <[k := mkPathMetadata sourceId (propertyPath p k) (cloneDeep v)]> parentMap.
Proof.
  intros Hk. unfold record_in_parent.
  rewrite parentKey_propertyPath by done.
  apply goodkey_spec in Hk as [Hne _].
  unfold truthy_string. by destruct (String.eqb_spec k "").
Qed.

Lemma record_in_parent_root v parentMap :
  record_in_parent sourceId "" v parentMap = parentMap.
Proof. done. Qed.

Abbreviation merged_child := (merged_child options sourceId).

(** The properties and the map after the loop over the keys of the
    source. *)
Lemma _mergeRecursive_loop_spec currentPath sfs f0 c0 :
  NoDup (keys sfs) ->
  Forall (fun k => goodkey k = true) (keys sfs) ->
  let st := _mergeRecursive_loop rec currentPath sfs (f0, c0) in
  (forall k,
     get_field k (fst st)
     = match get_field k sfs with
       | Some sv => if is_undefined sv then None
                    else Some (merged_child currentPath f0 k sv)
       | None => get_field k f0
       end)
  /\ (forall k,
        snd st !! k
        = match get_field k sfs with
          | Some sv =>
              if is_undefined sv then None
              else Some (mkPathMetadata sourceId (propertyPath currentPath k)
                           (cloneDeep (merged_child currentPath f0 k sv)))
          | None => c0 !! k
          end)
  /\ (NoDup (keys f0) -> NoDup (keys (fst st))).
Proof.
  unfold _mergeRecursive_loop. revert f0 c0.
  induction sfs as [|[k1 sv1] r IH]; intros f0 c0 Hnd Hgood; [done|].
  change (keys ((k1, sv1) :: r)) with (k1 :: keys r) in Hnd, Hgood.
  apply NoDup_cons in Hnd as [Hk1 Hnd].
  apply Forall_cons in Hgood as [Hg1 Hgood].
  cbn [fold_left fst snd].
  set (st1 := if is_undefined sv1 then _ else _).
  specialize (IH (fst st1) (snd st1) Hnd Hgood).
  rewrite <- surjective_pairing in IH.
  destruct IH as (IHf & IHc & IHnd).
  assert (forall k, k ∈ keys r -> k <> k1) as Hne by (intros k Hk ->; done).
  assert (forall k, k <> k1 -> get_field k (fst st1) = get_field k f0) as Hf1.
  { intros k Hk. unfold st1. destruct (is_undefined sv1); simpl.
    - rewrite get_field_delete_field. by destruct (decide (k1 = k)).
    - rewrite get_field_set_field by (by apply goodkey_proto).
      by destruct (decide (k1 = k)). }
  assert (forall k, k <> k1 -> snd st1 !! k = c0 !! k) as Hc1.
  { intros k Hk. unfold st1. destruct (is_undefined sv1) eqn:Hu; simpl.
    - by rewrite lookup_delete_ne.
    - rewrite merge_snd, record_in_parent_good by done.
      by rewrite lookup_insert_ne. }
  split; [|split].
  - intros k. rewrite IHf. simpl.
    destruct (String.eqb_spec k1 k) as [<-|Hk].
    + apply get_field_None in Hk1 as ->. unfold st1.
      destruct (is_undefined sv1); simpl.
      * rewrite get_field_delete_field. by destruct (decide (k1 = k1)).
      * rewrite get_field_set_field, merge_fst by (by apply goodkey_proto).
        by destruct (decide (k1 = k1)).
    + destruct (get_field k r) as [sv|] eqn:Hsv.
      * unfold merged_child. by rewrite Hf1.
      * by apply Hf1.
  - intros k. rewrite IHc. simpl.
    destruct (String.eqb_spec k1 k) as [<-|Hk].
    + apply get_field_None in Hk1 as ->. unfold st1.
      destruct (is_undefined sv1) eqn:Hu; simpl.
      * by rewrite lookup_delete_eq.
      * rewrite merge_snd, record_in_parent_good by done.
        by rewrite lookup_insert_eq.
    + destruct (get_field k r) as [sv|] eqn:Hsv.
      * unfold merged_child. by rewrite Hf1.
      * by apply Hc1.
  - intros Hnd0. apply IHnd. unfold st1. destruct (is_undefined sv1); simpl.
    + by apply NoDup_keys_delete_field.
    + by apply NoDup_keys_set_field.
Qed.

Lemma init_resultObject_obj m tfs :
  init_resultObject (VObj m tfs)
  = map (fun kv => (fst kv, cloneDeep (snd kv))) tfs.
Proof. done. Qed.

Lemma init_resultObject_leaf target :
  is_leaf target = true -> init_resultObject target = [].
Proof. by destruct target. Qed.

Lemma get_field_init_resultObject k target :
  get_field k (init_resultObject target)
  = cloneDeep <$> lookup_path [k] target.
Proof.
  destruct target as [| | | | | |m tfs]; try done.
  rewrite init_resultObject_obj, get_field_clone. simpl.
  by destruct (get_field k tfs).
Qed.

Lemma NoDup_init_resultObject target :
  wf target -> NoDup (keys (init_resultObject target)).
Proof.
  destruct target as [| | | | | |m tfs]; try (intros _; apply NoDup_nil_2).
  intros [Hnd _]%wf_obj. by rewrite init_resultObject_obj, keys_clone.
Qed.

Lemma seed_loop_lookup (targetMap : MetadataMap) (l : list string)
    (acc : MetadataMap) k :
  fold_left
    (fun childMetadataMap key =>
       match targetMap !! key with
       | Some targetMeta => <[key := cloneDeepMeta targetMeta]> childMetadataMap
       | None => childMetadataMap
       end) l acc !! k
  = if decide (k ∈ l)
    then match targetMap !! k with
         | Some targetMeta => Some (cloneDeepMeta targetMeta)
         | None => acc !! k
         end
    else acc !! k.
Proof.
  revert acc. induction l as [|a l IH]; intros acc; cbn [fold_left].
  - destruct (decide (k ∈ [])) as [Hin|]; [|done]. by apply elem_of_nil in Hin.
  - rewrite IH. destruct (decide (k ∈ l)) as [Hin|Hnin].
    + destruct (decide (k ∈ a :: l)) as [_|Hn]; [|exfalso; apply Hn; by right].
      destruct (targetMap !! k) eqn:Hk; [done|].
      destruct (targetMap !! a) eqn:Ha; [|done].
      rewrite lookup_insert_ne; [done|]. congruence.
    + destruct (decide (k = a)) as [->|Hne].
      * destruct (decide (a ∈ a :: l)) as [_|Hn]; [|exfalso; apply Hn; left].
        destruct (targetMap !! a); [by rewrite lookup_insert_eq | done].
      * destruct (decide (k ∈ a :: l)) as [Hin|_].
        { apply elem_of_cons in Hin as [?|?]; done. }
        destruct (targetMap !! a); [by rewrite lookup_insert_ne | done].
Qed.

(** The seeded map knows the keys of the target that the hidden property of
    the target knows, with clones of their entries. *)
Lemma seed_childMetadataMap_lookup target k :
  seed_childMetadataMap target !! k
  = if decide (is_Some (lookup_path [k] target))
    then cloneDeepMeta <$> getMetadata target k
    else None.
Proof.
  destruct target as [| | | | | |[tm|] tfs];
    try (by destruct (decide _) as [[? [=]]|]).
  - unfold seed_childMetadataMap. rewrite seed_loop_lookup, lookup_empty.
    simpl. destruct (decide (k ∈ keys tfs)) as [Hin|Hnin].
    + apply get_field_is_Some in Hin as [x Hx]. rewrite Hx.
      destruct (decide (is_Some (Some x))) as [_|Hn];
        [by destruct (tm !! k) | exfalso; apply Hn; by eexists].
    + apply get_field_None in Hnin. rewrite Hnin.
      by destruct (decide (is_Some None)) as [[? [=]]|].
Qed.
End merge_call.

(** ** A merge pass keeps the invariant of the tree *)

Lemma init_field_lookup target k c ks x :
  get_field k (init_resultObject target) = Some c ->
  lookup_path ks c = Some x ->
  exists x0, lookup_path (k :: ks) target = Some x0 /\ x = cloneDeep x0.
Proof.
  rewrite get_field_init_resultObject.
  destruct target as [| | | | | |m tfs]; try done.
  rewrite lookup_path_cons. simpl.
  destruct (get_field k tfs) as [c0|]; [|done]. simpl. intros [= <-].
  rewrite lookup_path_cloneDeep.
  destruct (lookup_path ks c0) as [x0|]; [|done]. simpl. intros [= <-].
  by exists x0.
Qed.

Lemma init_field_ok target k c :
  wf target -> keys_good target ->
  get_field k (init_resultObject target) = Some c ->
  goodkey k = true /\ wf c /\ plain c /\ keys_good c.
Proof.
  intros Hwf Hg. rewrite get_field_init_resultObject.
  destruct target as [| | | | | |m tfs]; try done. simpl.
  destruct (get_field k tfs) as [c0|] eqn:Hc0; [|done]. simpl. intros [= <-].
  destruct (keys_good_child m tfs k c0 Hg Hc0) as [Hk Hgc].
  split; [done|]. split; [apply wf_cloneDeep; by eapply wf_get_field|].
  split; [apply plain_cloneDeep | by apply keys_good_cloneDeep].
Qed.

Lemma init_child_ok target k :
  wf target -> keys_good target ->
  let tk := default VUndef (get_field k (init_resultObject target)) in
  wf tk /\ plain tk /\ keys_good tk.
Proof.
  intros Hwf Hg tk. subst tk.
  destruct (get_field k (init_resultObject target)) as [c|] eqn:Hc; simpl.
  - by destruct (init_field_ok target k c Hwf Hg Hc) as (_ & ? & ? & ?).
  - split; [done|]. split; [done|]. by apply keys_good_leaf.
Qed.

Lemma mergedValue_obj options sourceId target m sfs currentPath :
  mergedValue options sourceId target (VObj m sfs) currentPath
  = let st := _mergeRecursive_loop
                (_mergeRecursiveWithMetadata options sourceId)
                currentPath sfs
                (init_resultObject target, seed_childMetadataMap target) in
    VObj (Some (snd st)) (fst st).
Proof. done. Qed.

Lemma goodkeys_obj_keys m fs :
  goodkeys (VObj m fs) = true -> Forall (fun k => goodkey k = true) (keys fs).
Proof.
  intros Hg%goodkeys_obj. unfold keys. apply Forall_fmap.
  eapply Forall_impl; [exact Hg | by intros ? []].
Qed.

Section merge_pass.
Variables (options : MergeOptions) (sourceId : jsval).

(** What the loop leaves under a key of the result: the merged value of an
    attribute of the source, with its entry, or a clone of an attribute of
    the target that the source does not have, with a clone of the entry
    that the target had for it. *)
Lemma result_field_cases target prefix sfs k c :
  NoDup (keys sfs) ->
  Forall (fun k => goodkey k = true) (keys sfs) ->
  let f0 := init_resultObject target in
  let st := _mergeRecursive_loop
              (_mergeRecursiveWithMetadata options sourceId)
              (pathOf prefix) sfs (f0, seed_childMetadataMap target) in
  get_field k (fst st) = Some c ->
  (exists sv, get_field k sfs = Some sv /\ is_undefined sv = false
              /\ goodkey k = true
              /\ c = mergedValue options sourceId
                       (default VUndef (get_field k f0)) sv
                       (pathOf (prefix ++ [k]))
              /\ snd st !! k
                 = Some (mkPathMetadata sourceId (pathOf (prefix ++ [k]))
                                        (cloneDeep c)))
  \/ (get_field k sfs = None /\ get_field k f0 = Some c
      /\ snd st !! k = cloneDeepMeta <$> getMetadata target k).
Proof.
  intros Hnd Hgood f0 st.
  destruct (_mergeRecursive_loop_spec options sourceId (pathOf prefix) sfs f0
              (seed_childMetadataMap target) Hnd Hgood) as (Hf & Hc & _).
  fold st in Hf, Hc. rewrite Hf, Hc. rewrite pathOf_snoc.
  destruct (get_field k sfs) as [sv|] eqn:Hsv.
  - destruct (is_undefined sv) eqn:Hu; [done|]. intros [= <-]. left.
    exists sv. repeat split; try done.
    rewrite Forall_forall in Hgood. apply Hgood.
    apply get_field_is_Some. by eexists.
  - intros Hc0. right. repeat split; try done.
    rewrite seed_childMetadataMap_lookup.
    destruct (decide _) as [|Hn]; [done|]. exfalso. apply Hn.
    rewrite <- (fmap_is_Some cloneDeep), <- get_field_init_resultObject.
    fold f0. by eexists.
Qed.

Lemma merge_keeps_treeinv source :
  forall target prefix,
    wf source -> goodkeys source = true ->
    Forall (fun k => goodkey k = true) prefix ->
    wf target -> treeinv prefix target ->
    let res := mergedValue options sourceId target source (pathOf prefix) in
    wf res /\ treeinv prefix res /\ touched_or_kept target res.
Proof.
  induction source as [| | | | |xs IH|m sfs IH] using jsval_ind;
    intros target prefix Hwfs Hgs Hpre Hwft Hinv res.
  - (* undefined: the target is returned *)
    split; [done|]. split; [done|].
    intros ks x _ Hx. right. by exists x.
  - split; [done|]. split; [by apply treeinv_leaf | by apply touched_or_kept_leaf].
  - split; [done|]. split; [by apply treeinv_leaf | by apply touched_or_kept_leaf].
  - split; [done|]. split; [by apply treeinv_leaf | by apply touched_or_kept_leaf].
  - split; [done|]. split; [by apply treeinv_leaf | by apply touched_or_kept_leaf].
  - (* a sequence *)
    assert (wf res /\ plain res) as [Hwr Hpr].
    { pose proof (wf_cloneDeep (VArr xs) Hwfs) as Hwc.
      pose proof (plain_cloneDeep (VArr xs)) as Hpc.
      subst res. unfold mergedValue. cbn [_mergeRecursiveWithMetadata fst].
      destruct target as [| | | | |tgt|]; try done;
        destruct (default replace (arrayStrategy options)); try done.
      destruct Hinv as (_ & Hplain & _).
      specialize (Hplain [] tgt eq_refl).
      apply wf_arr in Hwft, Hwc. apply plain_arr in Hplain, Hpc.
      split; [apply wf_arr | apply plain_arr]; by apply Forall_app. }
    assert (is_leaf res = true) as Hleaf.
    { subst res. unfold mergedValue. by cbn [_mergeRecursiveWithMetadata fst]. }
    split; [done|]. split; [by apply treeinv_leaf | by apply touched_or_kept_leaf].
  - (* a mapping *)
    destruct Hinv as (Hkg & Hap & Hso).
    apply wf_obj in Hwfs as Hwfs'. destruct Hwfs' as [Hnds Hwfc].
    pose proof (goodkeys_obj_keys m sfs Hgs) as Hgks.
    subst res. rewrite mergedValue_obj. cbn zeta.
    destruct (_mergeRecursive_loop_spec options sourceId (pathOf prefix) sfs
                (init_resultObject target)
                (seed_childMetadataMap target) Hnds Hgks) as (Hf & Hcm & Hnd).
    pose proof (fun k c => result_field_cases target prefix sfs k c Hnds Hgks)
      as Hcases. cbn zeta in Hcases.
    remember (init_resultObject target) as f0 eqn:Hf0.
    remember (_mergeRecursive_loop _ _ _ _) as st eqn:Hst.
    (* the merged attributes of the source, by induction *)
    assert (forall k sv,
              get_field k sfs = Some sv -> goodkey k = true ->
              let tk := default VUndef (get_field k f0) in
              let c := mergedValue options sourceId tk sv (pathOf (prefix ++ [k])) in
              wf c /\ treeinv (prefix ++ [k]) c /\ touched_or_kept tk c)
      as Hchild.
    { intros k sv Hsv Hk tk c. apply get_field_elem_of in Hsv as Hin.
      rewrite Forall_forall in IH, Hwfc.
      destruct (init_child_ok target k Hwft Hkg) as (Hwtk & Hptk & Hgtk).
      rewrite <- Hf0 in Hwtk, Hptk, Hgtk.
      destruct (goodkeys_get_field m sfs k sv Hgs Hsv) as [_ Hgsv].
      apply (IH (k, sv) Hin).
      - apply (Hwfc (k, sv) Hin).
      - done.
      - apply Forall_app. split; [done | by constructor].
      - done.
      - by apply treeinv_plain. }
    split; [|split; [split; [|split]|]].
    + (* wf *)
      apply wf_obj_intro; [apply Hnd; subst f0; by apply NoDup_init_resultObject|].
      intros k c Hc.
      destruct (Hcases k c Hc) as [(sv & Hsv & _ & Hk & -> & _)|(_ & Hc0 & _)].
      * by apply Hchild.
      * rewrite Hf0 in Hc0. by destruct (init_field_ok target k c Hwft Hkg Hc0) as (_ & ? & _).
    + (* keys_good *)
      intros [|k ks] x; [done|]. rewrite lookup_path_cons.
      destruct (get_field k (fst st)) as [c|] eqn:Hc; [|done]. intros Hx.
      destruct (Hcases k c Hc) as [(sv & Hsv & _ & Hk & -> & _)|(_ & Hc0 & _)].
      * constructor; [done|].
        destruct (Hchild k sv Hsv Hk) as (_ & (Hg & _) & _). by eapply Hg.
      * rewrite Hf0 in Hc0. destruct (init_field_ok target k c Hwft Hkg Hc0) as (Hk & _ & _ & Hg).
        constructor; [done | by eapply Hg].
    + (* arrays_plain *)
      intros [|k ks] xs; [done|]. rewrite lookup_path_cons.
      destruct (get_field k (fst st)) as [c|] eqn:Hc; [|done]. intros Hx.
      destruct (Hcases k c Hc) as [(sv & Hsv & _ & Hk & -> & _)|(_ & Hc0 & _)].
      * destruct (Hchild k sv Hsv Hk) as (_ & (_ & Ha & _) & _). by eapply Ha.
      * rewrite Hf0 in Hc0. destruct (init_field_ok target k c Hwft Hkg Hc0) as (_ & _ & Hp & _).
        by eapply lookup_path_plain.
    + (* stores_ok *)
      intros [|k ks] r; [done|].
      destruct (decide (ks = [])) as [->|Hne].
      * rewrite recorded_single. cbn [getMetadata]. intros Hr.
        destruct (get_field k (fst st)) as [c|] eqn:Hc.
        -- exists c. split; [by rewrite lookup_path_cons, Hc|].
           destruct (Hcases k c Hc)
             as [(sv & Hsv & _ & Hk & _ & Hrec)|(_ & Hc0 & Hrec)];
             rewrite Hrec in Hr.
           ++ by injection Hr as <-.
           ++ destruct (getMetadata target k) as [r0|] eqn:Hr0; [|done].
              injection Hr as <-.
              destruct (Hso [k] r0) as (x0 & Hx0 & Hpath & Hval); [done|].
              split; [done|]. simpl. rewrite Hval.
              rewrite Hf0, get_field_init_resultObject, Hx0 in Hc0.
              injection Hc0 as <-. by rewrite cloneDeep_idemp.
        -- exfalso. rewrite Hf in Hc. rewrite Hcm in Hr.
           destruct (get_field k sfs) as [sv|];
             [by destruct (is_undefined sv)|].
           rewrite seed_childMetadataMap_lookup in Hr.
           destruct (decide _) as [Hs|]; [|done].
           rewrite <- (fmap_is_Some cloneDeep),
             <- get_field_init_resultObject, <- Hf0, Hc in Hs.
           by destruct Hs.
      * rewrite recorded_cons by done.
        destruct (get_field k (fst st)) as [c|] eqn:Hc; [|done]. intros Hr.
        destruct (Hcases k c Hc) as [(sv & Hsv & _ & Hk & -> & _)|(_ & Hc0 & _)].
        -- destruct (Hchild k sv Hsv Hk) as (_ & (_ & _ & Hs) & _).
           destruct (Hs ks r Hr) as (x & Hx & Hpath & Hval).
           exists x. rewrite lookup_path_cons, Hc.
           split; [done|]. split; [|done]. by rewrite <- app_assoc in Hpath.
        -- rewrite Hf0 in Hc0. destruct (init_field_ok target k c Hwft Hkg Hc0) as (_ & _ & Hp & _).
           by rewrite recorded_plain in Hr.
    + (* touched_or_kept *)
      intros [|k ks] x Hnil; [done|]. rewrite lookup_path_cons.
      destruct (get_field k (fst st)) as [c|] eqn:Hc; [|done]. intros Hx.
      destruct (Hcases k c Hc)
        as [(sv & Hsv & _ & Hk & -> & Hrec)|(_ & Hc0 & _)].
      * destruct (decide (ks = [])) as [->|Hne].
        { left. rewrite recorded_single. cbn [getMetadata]. by rewrite Hrec. }
        destruct (Hchild k sv Hsv Hk) as (_ & _ & Ht).
        destruct (Ht ks x Hne Hx) as [Hr|(x0 & Hx0 & Heq)].
        -- left. by rewrite recorded_cons, Hc.
        -- right.
           destruct (get_field k f0) as [tk|] eqn:Htk;
             [|by destruct ks].
           rewrite Hf0 in Htk.
           destruct (init_field_lookup target k tk ks x0 Htk Hx0)
             as (x00 & Hx00 & ->).
           exists x00. split; [done|]. by rewrite Heq, cloneDeep_idemp.
      * right. rewrite Hf0 in Hc0.
        destruct (init_field_lookup target k c ks x Hc0 Hx)
          as (x0 & Hx0 & ->).
        exists x0. split; [done|]. by rewrite cloneDeep_idemp.
Qed.
End merge_pass.

(** ** What [collectMetadata] writes *)

Lemma write_all_app l1 l2 md :
  write_all (l1 ++ l2) md = write_all l2 (write_all l1 md).
Proof. apply fold_left_app. Qed.

Lemma collectMetadata_collected v :
  forall md, collectMetadata v md = write_all (collected v) md.
Proof.
  induction v as [| | | | |xs IH|m fs IH] using jsval_ind; intros md; try done.
  - simpl. revert md. induction IH as [|x r Hx _ IHr]; intros md; [done|].
    simpl. by rewrite write_all_app, <- Hx, IHr.
  - cbn [collectMetadata collected].
    generalize (VObj m fs). intros obj. revert md.
    induction IH as [|[k x] r Hx _ IHr]; intros md; [done|].
    cbn [fold_left flat_map fst snd].
    rewrite !write_all_app, <- IHr, <- Hx.
    by destruct (getMetadata obj k).
Qed.

Lemma collected_plain v : plain v -> collected v = [].
Proof.
  induction v as [| | | | |xs IH|m fs IH] using jsval_ind; try done.
  - intros Hp%plain_arr. simpl.
    induction IH as [|x r Hx _ IHr]; [done|].
    apply Forall_cons in Hp as [Hpx Hpr]. simpl. by rewrite Hx, IHr.
  - intros [-> Hp]%plain_obj. simpl.
    induction IH as [|[k x] r Hx _ IHr]; [done|].
    apply Forall_cons in Hp as [Hpx Hpr]. simpl in *. by rewrite Hx, IHr.
Qed.

Lemma elem_of_collected_obj m fs r :
  r ∈ collected (VObj m fs) <->
  exists k x, (k, x) ∈ fs
              /\ (getMetadata (VObj m fs) k = Some r \/ r ∈ collected x).
Proof.
  cbn [collected]. generalize (VObj m fs) at 1 2. intros obj.
  rewrite list_elem_of_In, in_flat_map. split.
  - intros ([k x] & Hin%list_elem_of_In & Hr%list_elem_of_In).
    exists k, x. split; [done|]. apply elem_of_app in Hr as [Hr|Hr]; [|by right].
    left. simpl in Hr. destruct (getMetadata obj k); [|by apply elem_of_nil in Hr].
    by apply list_elem_of_singleton in Hr as ->.
  - intros (k & x & Hin & Hr). exists (k, x).
    split; [by apply list_elem_of_In|]. apply list_elem_of_In, elem_of_app.
    destruct Hr as [Hr|Hr]; [left | by right]. simpl. rewrite Hr. left.
Qed.

(** Every entry that is written is the entry of an attribute that exists. *)
Lemma elem_of_collected v r :
  wf v -> arrays_plain v -> r ∈ collected v ->
  exists ks, recorded ks v = Some r /\ is_Some (lookup_path ks v).
Proof.
  induction v as [| | | | |xs IH|m fs IH] using jsval_ind;
    try (intros _ _ Hr; by apply elem_of_nil in Hr).
  - intros _ Hp Hr. rewrite collected_plain in Hr by (by apply (Hp [])).
    by apply elem_of_nil in Hr.
  - intros Hwf Hp (k & x & Hin & Hr)%elem_of_collected_obj.
    apply wf_obj in Hwf as Hwf'. destruct Hwf' as [Hnd _].
    pose proof (elem_of_get_field k x fs Hnd Hin) as Hget.
    destruct Hr as [Hr|Hr].
    + exists [k]. split; [done|]. simpl. rewrite Hget. by eexists.
    + rewrite Forall_forall in IH.
      destruct (IH (k, x) Hin) as (ks & Hrec & Hsome); [| |done|].
      * by eapply wf_get_field.
      * intros ks xs Hx. apply (Hp (k :: ks)). by rewrite lookup_path_cons, Hget.
      * exists (k :: ks). destruct ks as [|k' ks]; [done|].
        rewrite recorded_cons, lookup_path_cons, Hget by done. done.
Qed.

(** The entry of an attribute that exists is written. *)
Lemma recorded_collected ks v r :
  recorded ks v = Some r -> is_Some (lookup_path ks v) -> r ∈ collected v.
Proof.
  revert v. induction ks as [|k ks IH]; intros v; [done|].
  destruct v as [| | | | | |m fs]; try by rewrite recorded_leaf.
  rewrite lookup_path_cons. intros Hr Hsome.
  destruct (get_field k fs) as [x|] eqn:Hx; [|by destruct Hsome].
  apply elem_of_collected_obj. exists k, x.
  split; [by apply get_field_elem_of|].
  destruct (decide (ks = [])) as [->|Hne]; [by left|].
  rewrite recorded_cons, Hx in Hr by done. right. by apply IH.
Qed.

Lemma write_all_lookup_other l md s :
  (forall r, r ∈ l -> path r <> s) -> write_all l md !! s = md !! s.
Proof.
  revert md. induction l as [|a l IH]; intros md Hl; [done|].
  cbn [write_all fold_left]. fold (write_all l (<[path a := a]> md)).
  rewrite IH by (intros r Hr; apply Hl; by right).
  apply lookup_insert_ne, Hl. left.
Qed.

Lemma write_all_lookup l md s r :
  r ∈ l -> path r = s ->
  (forall r', r' ∈ l -> path r' = s -> r' = r) ->
  write_all l md !! s = Some r.
Proof.
  revert md. induction l as [|a l IH] using rev_ind; intros md Hin Hs Huniq.
  - by apply elem_of_nil in Hin.
  - rewrite write_all_app. cbn [write_all fold_left].
    destruct (decide (path a = s)) as [Ha|Ha].
    + rewrite (Huniq a) by (by rewrite ?elem_of_app, ?list_elem_of_singleton; auto).
      subst s. apply lookup_insert_eq.
    + rewrite lookup_insert_ne by done. apply IH; [|done|].
      * apply elem_of_app in Hin as [|Hin%list_elem_of_singleton]; [done|].
        congruence.
      * intros r' Hr'. apply Huniq, elem_of_app. by left.
Qed.

(** ** The invariant of [mergeAllWithMetadata] *)

Lemma mergeStep_mergedObject options st s :
  mergedObject (mergeStep options st s)
  = mergedValue options (SourceObject.id s) (mergedObject st)
                (SourceObject.data s) (pathOf []).
Proof. done. Qed.

Lemma mergeStep_metadata options st s :
  metadata (mergeStep options st s)
  = write_all (collected (mergedObject (mergeStep options st s))) (metadata st).
Proof. unfold mergeStep. simpl. apply collectMetadata_collected. Qed.

Lemma mergeAllWithMetadata_fold sources options :
  mergeAllWithMetadata sources options
  = fold_left (mergeStep options) sources
              {| mergedObject := VObj None []; metadata := ∅ |}.
Proof. by destruct sources. Qed.

Lemma mergeAllWithMetadata_snoc sources s options :
  mergeAllWithMetadata (sources ++ [s]) options
  = mergeStep options (mergeAllWithMetadata sources options) s.
Proof. by rewrite !mergeAllWithMetadata_fold, fold_left_app. Qed.

Lemma root_complete_merge options sourceId target source :
  wf source -> goodkeys source = true ->
  root_complete target ->
  root_complete (mergedValue options sourceId target source (pathOf [])).
Proof.
  intros Hwf Hg Hroot.
  destruct source as [| | | | |xs|m sfs]; try done;
    try (intros k [x Hx]; by rewrite lookup_path_leaf in Hx).
  apply wf_obj in Hwf as [Hnd _]. apply goodkeys_obj_keys in Hg.
  rewrite mergedValue_obj. cbn zeta.
  intros k. rewrite lookup_path_cons. cbn [getMetadata].
  destruct (get_field k (fst _)) as [c|] eqn:Hc; [|by intros [? [=]]].
  intros _.
  destruct (result_field_cases options sourceId target [] sfs k c Hnd Hg Hc)
    as [(sv & _ & _ & _ & _ & ->)|(_ & Hc0 & ->)]; [by eexists|].
  apply fmap_is_Some, Hroot.
  rewrite <- (fmap_is_Some cloneDeep), <- get_field_init_resultObject.
  by eexists.
Qed.

Lemma merge_invariant_init :
  merge_invariant {| mergedObject := VObj None []; metadata := ∅ |}.
Proof.
  split; [apply wf_obj; split; [apply NoDup_nil_2 | done]|].
  split; [by apply treeinv_plain; [|intros [|k ks] x; [|done]]|].
  split; [by intros k [x Hx]|].
  by intros [|k ks] x.
Qed.

Lemma merge_invariant_step options st s :
  merge_invariant st -> good_source s ->
  merge_invariant (mergeStep options st s).
Proof.
  intros (Hwf & Hinv & Hroot & Hmd) [Hws Hgs].
  destruct (merge_keeps_treeinv options (SourceObject.id s)
              (SourceObject.data s) (mergedObject st) [] Hws Hgs
              ltac:(done) Hwf Hinv) as (Hwr & Hir & Htk).
  rewrite <- mergeStep_mergedObject in Hwr, Hir, Htk.
  split; [done|]. split; [done|].
  split; [rewrite mergeStep_mergedObject; by apply root_complete_merge|].
  rewrite mergeStep_metadata.
  set (res := mergedObject (mergeStep options st s)) in *.
  destruct Hir as (Hkg & Hap & Hso).
  (* an entry that is written for the path of [ks] is the entry of [ks] *)
  assert (forall ks x r,
            lookup_path ks res = Some x -> r ∈ collected res ->
            path r = pathOf ks ->
            recorded ks res = Some r /\ value r = cloneDeep x) as Hwritten.
  { intros ks x r Hx Hr Hpath.
    destruct (elem_of_collected res r Hwr Hap Hr) as (ks' & Hrec & _).
    destruct (Hso ks' r Hrec) as (x' & Hx' & Hpath' & Hval). simpl in Hpath'.
    assert (ks' = ks) as ->.
    { apply pathOf_inj; [by eapply Hkg..|congruence]. }
    split; [done | congruence]. }
  intros ks x Hne Hx.
  destruct (decide (Exists (fun r => path r = pathOf ks) (collected res)))
    as [Hex|Hnex].
  - apply Exists_exists in Hex as (r & Hr & Hpath).
    destruct (Hwritten ks x r Hx Hr Hpath) as [Hrec Hval].
    exists r. split; [|done].
    apply write_all_lookup; [done..|].
    intros r' Hr' Hpath'.
    destruct (Hwritten ks x r' Hx Hr' Hpath') as [Hrec' _]. congruence.
  - rewrite write_all_lookup_other.
    2:{ intros r Hr Hpath. apply Hnex, Exists_exists. by exists r. }
    destruct (Htk ks x Hne Hx) as [[r Hrec]|(x0 & Hx0 & Heq)].
    + exfalso. apply Hnex, Exists_exists. exists r.
      split; [apply (recorded_collected ks); [done | by eexists]|].
      by destruct (Hso ks r Hrec) as (_ & _ & ? & _).
    + destruct (Hmd ks x0 Hne Hx0) as (r0 & Hr0 & Hval).
      exists r0. split; [done | congruence].
Qed.

Lemma merge_invariant_all options sources :
  Forall good_source sources ->
  merge_invariant (mergeAllWithMetadata sources options).
Proof.
  induction sources as [|s sources IH] using rev_ind; intros Hgood.
  - apply merge_invariant_init.
  - apply Forall_snoc_inv in Hgood as [Hgood Hs].
    rewrite mergeAllWithMetadata_snoc. apply merge_invariant_step; auto.
Qed.

(** ** The mappings that a source writes into *)

Lemma _mergeRecursive_loop_fields options sourceId currentPath sfs f0 c0 k :
  NoDup (keys sfs) ->
  k <> "__proto__" ->
  get_field k (fst (_mergeRecursive_loop
                      (_mergeRecursiveWithMetadata options sourceId)
                      currentPath sfs (f0, c0)))
  = match get_field k sfs with
    | Some sv => if is_undefined sv then None
                 else Some (merged_child options sourceId currentPath f0 k sv)
    | None => get_field k f0
    end.
Proof.
  unfold _mergeRecursive_loop. revert f0 c0.
  induction sfs as [|[k1 sv1] r IH]; intros f0 c0 Hnd Hproto; [done|].
  change (keys ((k1, sv1) :: r)) with (k1 :: keys r) in Hnd.
  apply NoDup_cons in Hnd as [Hk1 Hnd].
  cbn [fold_left fst snd].
  set (st1 := if is_undefined sv1 then _ else _).
  rewrite (surjective_pairing st1), IH by done. simpl.
  destruct (String.eqb_spec k1 k) as [<-|Hk].
  - apply get_field_None in Hk1 as ->. unfold st1.
    destruct (is_undefined sv1); simpl.
    + rewrite get_field_delete_field. by destruct (decide (k1 = k1)).
    + rewrite get_field_set_field, merge_fst by done.
      by destruct (decide (k1 = k1)).
  - assert (get_field k (fst st1) = get_field k f0) as Hf1.
    { unfold st1. destruct (is_undefined sv1); simpl.
      - rewrite get_field_delete_field. by destruct (decide (k1 = k)).
      - by rewrite get_field_set_field_ne. }
    unfold merged_child. by rewrite Hf1.
Qed.




(** ** Merge and diff of flat mappings *)

Lemma scalar_cloneDeep v : scalar v = true -> cloneDeep v = v.
Proof. by destruct v. Qed.

Lemma scalar_isEqual v w :
  scalar v = true -> scalar w = true -> isEqual v w = true <-> v = w.
Proof.
  destruct v, w; try done; simpl; intros _ _.
  - rewrite Bool.eqb_true_iff. naive_solver.
  - rewrite Z.eqb_eq. naive_solver.
  - rewrite String.eqb_eq. naive_solver.
Qed.

Lemma scalar_mergeValues options val1 val2 :
  scalar val2 = true -> _mergeValues options val1 val2 = val2.
Proof. by destruct val1, val2. Qed.

Lemma scalar_diffValues options val1 val2 :
  scalar val1 = true -> scalar val2 = true ->
  _diffValues options val1 val2 = if isEqual val1 val2 then VUndef else val2.
Proof.
  intros H1 H2. destruct val1, val2; try done; simpl;
    by destruct (_ : bool).
Qed.

Lemma scalar_diffObjects_both options key val1 val2 diff :
  scalar val1 = true -> scalar val2 = true ->
  _diffObjects_both key val1 val2 (_diffValues options val1 val2) diff
  = if isEqual val1 val2 then diff else set_field key val2 diff.
Proof.
  intros H1 H2. rewrite scalar_diffValues by done.
  unfold _diffObjects_both. destruct (isEqual val1 val2); [done|].
  rewrite scalar_cloneDeep by done. by destruct val2.
Qed.

Lemma flat_get_field fs k v : flat fs -> get_field k fs = Some v -> scalar v = true.
Proof.
  intros Hflat Hget%get_field_elem_of. unfold flat in Hflat.
  rewrite Forall_forall in Hflat. apply (Hflat (k, v) Hget).
Qed.

Lemma flat_clone fs :
  flat fs -> map (fun kv => (fst kv, cloneDeep (snd kv))) fs = fs.
Proof.
  induction 1 as [|[k v] r Hv _ IH]; [done|].
  simpl in *. by rewrite scalar_cloneDeep, IH.
Qed.

Section flat_diff.
Variables (options : DiffOptions) (fa fb : fieldlist).
Hypothesis Hfa : flat fa.
Hypothesis Hfb : flat fb.

(** The first part of the loop of [_diffObjects]: the keys of [obj1]. *)
Lemma diff_loop_own fs acc :
  NoDup (keys fs) -> flat fs -> "__proto__" ∉ keys fs ->
  let diff :=
    fold_left
      (fun diff kv =>
         match get_field (fst kv) fb with
         | None => set_field (fst kv) VUndef diff
         | Some val2 =>
             _diffObjects_both (fst kv) (snd kv) val2
                               (_diffValues options (snd kv) val2) diff
         end) fs acc in
  (forall k,
     get_field k diff
     = match get_field k fs with
       | Some v1 =>
           match get_field k fb with
           | None => Some VUndef
           | Some v2 => if isEqual v1 v2 then get_field k acc else Some v2
           end
       | None => get_field k acc
       end)
  /\ (NoDup (keys acc) -> NoDup (keys diff)).
Proof.
  revert acc.
  induction fs as [|[k1 v1] r IH]; intros acc Hnd Hflat Hproto; [done|].
  change (keys ((k1, v1) :: r)) with (k1 :: keys r) in Hnd, Hproto.
  apply NoDup_cons in Hnd as [Hk1 Hnd].
  apply not_elem_of_cons in Hproto as [Hp1 Hproto].
  apply Forall_cons in Hflat as [Hv1 Hflat]. simpl in Hv1.
  cbn [fold_left fst snd].
  set (acc1 := match get_field k1 fb with None => _ | Some _ => _ end).
  destruct (IH acc1 Hnd Hflat Hproto) as [IHf IHnd].
  assert (forall k, get_field k acc1
                    = if decide (k1 = k)
                      then match get_field k1 fb with
                           | None => Some VUndef
                           | Some v2 => if isEqual v1 v2 then get_field k acc
                                        else Some v2
                           end
                      else get_field k acc) as Hacc1.
  { intros k. unfold acc1. destruct (get_field k1 fb) as [v2|] eqn:Hv2.
    - rewrite scalar_diffObjects_both by (by eauto using flat_get_field).
      destruct (isEqual v1 v2); [by destruct (decide (k1 = k)) as [->|]|].
      by apply get_field_set_field.
    - by apply get_field_set_field. }
  split.
  - intros k. rewrite IHf, Hacc1. simpl.
    destruct (String.eqb_spec k1 k) as [<-|Hne].
    + apply get_field_None in Hk1 as ->. by destruct (decide (k1 = k1)).
    + destruct (decide (k1 = k)); [done|].
      destruct (get_field k r); [|done]. by destruct (get_field k fb).
  - intros Hacc. apply IHnd. unfold acc1.
    destruct (get_field k1 fb) as [v2|] eqn:Hv2;
      [|by apply NoDup_keys_set_field].
    rewrite scalar_diffObjects_both by (by eauto using flat_get_field).
    destruct (isEqual v1 v2); [done | by apply NoDup_keys_set_field].
Qed.

(** The second part: the keys that only [obj2] has. *)
Lemma diff_loop_added fs acc :
  NoDup (keys fs) -> flat fs -> "__proto__" ∉ keys fs ->
  let diff := _diffObjects_added fa fs acc in
  (forall k,
     get_field k diff
     = match get_field k fs with
       | Some v2 =>
           match get_field k fa with
           | None => Some v2
           | Some _ => get_field k acc
           end
       | None => get_field k acc
       end)
  /\ (NoDup (keys acc) -> NoDup (keys diff)).
Proof.
  unfold _diffObjects_added. revert acc.
  induction fs as [|[k1 v2] r IH]; intros acc Hnd Hflat Hproto; [done|].
  change (keys ((k1, v2) :: r)) with (k1 :: keys r) in Hnd, Hproto.
  apply NoDup_cons in Hnd as [Hk1 Hnd].
  apply not_elem_of_cons in Hproto as [Hp1 Hproto].
  apply Forall_cons in Hflat as [Hv2 Hflat]. simpl in Hv2.
  cbn [fold_left fst snd].
  set (acc1 := match get_field k1 fa with None => _ | Some _ => _ end).
  destruct (IH acc1 Hnd Hflat Hproto) as [IHf IHnd].
  assert (forall k, get_field k acc1
                    = if decide (k1 = k)
                      then match get_field k1 fa with
                           | None => Some v2
                           | Some _ => get_field k acc
                           end
                      else get_field k acc) as Hacc1.
  { intros k. unfold acc1. destruct (get_field k1 fa) as [v1|] eqn:Hv1.
    - by destruct (decide (k1 = k)) as [->|].
    - rewrite scalar_cloneDeep by done. by apply get_field_set_field. }
  split.
  - intros k. rewrite IHf, Hacc1. simpl.
    destruct (String.eqb_spec k1 k) as [<-|Hne].
    + apply get_field_None in Hk1 as ->. by destruct (decide (k1 = k1)).
    + destruct (decide (k1 = k)); [done|].
      destruct (get_field k r); [|done]. by destruct (get_field k fa).
  - intros Hacc. apply IHnd. unfold acc1.
    destruct (get_field k1 fa); [done | by apply NoDup_keys_set_field].
Qed.

Hypothesis Hnda : NoDup (keys fa).
Hypothesis Hndb : NoDup (keys fb).
Hypothesis Hsub : forall k, k ∈ keys fa -> k ∈ keys fb.
Hypothesis Hproto : "__proto__" ∉ keys fb.

Lemma flat_diff_proto : "__proto__" ∉ keys fa.
Proof. intros H. by apply Hproto, Hsub. Qed.

(** The entries of the diff of two flat mappings: the value in [obj2] of
    every key that is new or whose value has changed. *)
Lemma diff_flat_lookup k :
  get_field k (_diffObjects_loop (_diffValues options) fa fb)
  = match get_field k fb with
    | Some v2 =>
        match get_field k fa with
        | Some v1 => if isEqual v1 v2 then None else Some v2
        | None => Some v2
        end
    | None => None
    end.
Proof.
  unfold _diffObjects_loop. cbn zeta.
  destruct (diff_loop_own fa [] Hnda Hfa flat_diff_proto) as [Hown _].
  cbn zeta in Hown.
  set (own := fold_left _ fa []) in *.
  destruct (diff_loop_added fb own Hndb Hfb Hproto) as [Hadd _].
  cbn zeta in Hadd.
  rewrite Hadd, Hown. simpl.
  destruct (get_field k fb) as [v2|] eqn:Hv2.
  - by destruct (get_field k fa).
  - destruct (get_field k fa) as [v1|] eqn:Hv1; [|done].
    exfalso. apply get_field_None in Hv2. apply Hv2, Hsub.
    apply get_field_is_Some. by eexists.
Qed.

Lemma diff_flat_NoDup :
  NoDup (keys (_diffObjects_loop (_diffValues options) fa fb)).
Proof.
  unfold _diffObjects_loop. cbn zeta.
  destruct (diff_loop_own fa [] Hnda Hfa flat_diff_proto) as [_ Hown].
  cbn zeta in Hown.
  set (own := fold_left _ fa []) in *.
  destruct (diff_loop_added fb own Hndb Hfb Hproto) as [_ Hadd].
  apply Hadd, Hown, NoDup_nil_2.
Qed.
End flat_diff.

(** The loop of [_mergeObjects] when the values to merge in are scalars. *)
Lemma merge_loop_flat options fs2 fs1 :
  NoDup (keys fs2) -> flat fs2 -> "__proto__" ∉ keys fs2 ->
  exists fs,
    _mergeObjects_loop (_mergeValues options) (VObj None fs1) fs2 = VObj None fs
    /\ (forall k, get_field k fs
                  = match get_field k fs2 with
                    | Some v => Some v
                    | None => get_field k fs1
                    end)
    /\ (NoDup (keys fs1) -> NoDup (keys fs)).
Proof.
  unfold _mergeObjects_loop. revert fs1.
  induction fs2 as [|[k1 v] r IH]; intros fs1 Hnd Hflat Hproto.
  - by exists fs1.
  - change (keys ((k1, v) :: r)) with (k1 :: keys r) in Hnd, Hproto.
    apply NoDup_cons in Hnd as [Hk1 Hnd].
    apply not_elem_of_cons in Hproto as [Hp1 Hproto].
    apply Forall_cons in Hflat as [Hv Hflat]. simpl in Hv.
    cbn [fold_left fst snd assign].
    rewrite scalar_mergeValues by done.
    destruct (IH (set_field k1 v fs1) Hnd Hflat Hproto)
      as (fs & -> & Hf & Hndf).
    exists fs. split; [done|]. split.
    + intros k. rewrite Hf, get_field_set_field by done. simpl.
      destruct (String.eqb_spec k1 k) as [<-|Hne].
      * apply get_field_None in Hk1 as ->. by destruct (decide (k1 = k1)).
      * by destruct (decide (k1 = k)).
    + intros H1. by apply Hndf, NoDup_keys_set_field.
Qed.

Lemma _diffValues_obj options m1 fs1 m2 fs2 :
  _diffValues options (VObj m1 fs1) (VObj m2 fs2)
  = if isEqual (VObj m1 fs1) (VObj m2 fs2) then VUndef
    else
      let objDiff := _diffObjects_loop (_diffValues options) fs1 fs2 in
      if Nat.ltb 0 (length (keys objDiff)) then VObj None objDiff else VUndef.
Proof. done. Qed.

(** The diff of two different mappings is the mapping of the entries of
    [_diffObjects]. *)
Lemma diff_obj options m1 fs1 m2 fs2 :
  isEqual (VObj m1 fs1) (VObj m2 fs2) = false ->
  diff (VObj m1 fs1) (VObj m2 fs2) options
  = VObj None (_diffObjects_loop (_diffValues options) fs1 fs2).
Proof.
  intros Hne. unfold diff. rewrite _diffValues_obj, Hne. cbn zeta.
  by destruct (_diffObjects_loop _ fs1 fs2).
Qed.

Lemma diff_equal options a b : isEqual a b = true -> diff a b options = VObj None [].
Proof. intros Heq. unfold diff. destruct a; simpl in *; by rewrite ?Heq. Qed.

Lemma merge_empty options m fs :
  merge (VObj m fs) (VObj None []) options = cloneDeep (VObj m fs).
Proof.
  unfold merge. change (cloneDeep (cloneDeep (VObj m fs)) = cloneDeep (VObj m fs)).
  apply cloneDeep_idemp.
Qed.

Lemma merge_diff_flat_lookup ma fa mb fb dopts mopts :
  NoDup (keys fa) -> NoDup (keys fb) -> flat fa -> flat fb ->
  (forall k, k ∈ keys fa -> k ∈ keys fb) ->
  "__proto__" ∉ keys fb ->
  isEqual (VObj ma fa) (VObj mb fb) = false ->
  exists fs,
    merge (VObj ma fa) (diff (VObj ma fa) (VObj mb fb) dopts) mopts = VObj None fs
    /\ NoDup (keys fs)
    /\ forall k, get_field k fs
                 = match get_field k fb with
                   | Some v2 =>
                       match get_field k fa with
                       | Some v1 => if isEqual v1 v2 then Some v1 else Some v2
                       | None => Some v2
                       end
                   | None => None
                   end.
Proof.
  intros Hnda Hndb Hfa Hfb Hsub Hproto Hne.
  rewrite diff_obj by done.
  set (df := _diffObjects_loop (_diffValues dopts) fa fb).
  pose proof (diff_flat_lookup dopts fa fb Hfa Hfb Hnda Hndb Hsub Hproto)
    as Hdf.
  pose proof (diff_flat_NoDup dopts fa fb Hfa Hfb Hnda Hndb Hsub Hproto)
    as Hnddf.
  fold df in Hdf, Hnddf.
  assert ("__proto__" ∉ keys df) as Hpdf.
  { apply get_field_None. rewrite Hdf.
    by apply get_field_None in Hproto as ->. }
  assert (flat df) as Hfdf.
  { apply Forall_forall. intros [k v] Hin. simpl.
    apply (elem_of_get_field k v df Hnddf) in Hin. rewrite Hdf in Hin.
    destruct (get_field k fb) as [v2|] eqn:Hv2; [|done].
    assert (scalar v2 = true) by (by eapply flat_get_field).
    destruct (get_field k fa) as [v1|]; [|congruence].
    destruct (isEqual v1 v2); congruence. }
  unfold merge. cbn [_mergeValues cloneDeep]. rewrite map_map. cbn [fst snd].
  assert (map (fun x => (fst x, cloneDeep (cloneDeep (snd x)))) fa = fa) as ->.
  { clear -Hfa. induction Hfa as [|[k v] r Hv _ IH]; [done|].
    simpl in *. rewrite !(scalar_cloneDeep v) by done. by rewrite IH. }
  destruct (merge_loop_flat mopts df fa Hnddf Hfdf Hpdf)
    as (fs & -> & Hf & Hndf).
  exists fs. split; [done|]. split; [by apply Hndf|].
  intros k. rewrite Hf, Hdf.
  destruct (get_field k fb) as [v2|] eqn:Hv2.
  - destruct (get_field k fa) as [v1|]; [|done]. by destruct (isEqual v1 v2).
  - destruct (get_field k fa) as [v1|] eqn:Hv1; [|done].
    exfalso. apply get_field_None in Hv2. apply Hv2, Hsub.
    apply get_field_is_Some. by eexists.
Qed.

(** ** The merge that creates objects refines the merge of values *)

Lemma hoare_ret {A} start (a : A) (Q : A -> Prop) :
  Q a -> Ref.hoare start (Ref.ret a) Q.
Proof. by intros Ha next Hn. Qed.

Lemma hoare_bind {A B} start (m : Ref.alloc A) (f : A -> Ref.alloc B)
    (Q : A -> Prop) (R : B -> Prop) :
  Ref.hoare start m Q -> (forall a, Q a -> Ref.hoare start (f a) R) ->
  Ref.hoare start (Ref.bind m f) R.
Proof.
  intros Hm Hf next Hn. destruct (Hm next Hn) as [Ha Hn1]. unfold Ref.bind.
  destruct (Hf _ Ha (snd (m next))) as [Hb Hn2]; [lia|]. split; [done | lia].
Qed.

Lemma hoare_fresh start : Ref.hoare start Ref.fresh (fun l => start <= l).
Proof. intros next Hn. simpl. split; lia. Qed.

Lemma hoare_consequence {A} start (m : Ref.alloc A) (Q R : A -> Prop) :
  Ref.hoare start m Q -> (forall a, Q a -> R a) -> Ref.hoare start m R.
Proof. intros Hm HQR next Hn. destruct (Hm next Hn). auto. Qed.

Lemma hoare_mapM {A B} start (f : A -> Ref.alloc B) (Q : A -> B -> Prop) l :
  Forall (fun x => Ref.hoare start (f x) (Q x)) l ->
  Ref.hoare start (Ref.mapM f l) (Forall2 Q l).
Proof.
  induction 1 as [|x r Hx _ IH]; simpl; [by apply hoare_ret|].
  eapply hoare_bind; [exact Hx|]. intros y Hy.
  eapply hoare_bind; [exact IH|]. intros ys Hys.
  apply hoare_ret. by constructor.
Qed.

Lemma created_since_arr start l xs :
  Ref.created_since start (Ref.RArr l xs)
  <-> start <= l /\ Forall (Ref.created_since start) xs.
Proof.
  unfold Ref.created_since. simpl. apply and_iff_compat_l.
  induction xs as [|x r IH]; [by split|]. rewrite Forall_cons. by rewrite IH.
Qed.

Lemma created_since_obj start l fs :
  Ref.created_since start (Ref.RObj l fs)
  <-> start <= l /\ Forall (fun kv => Ref.created_since start (snd kv)) fs.
Proof.
  unfold Ref.created_since. simpl. apply and_iff_compat_l.
  induction fs as [|x r IH]; [by split|]. rewrite Forall_cons. by rewrite IH.
Qed.

(** A clone erases to the clone of the erased value, and all its objects
    are new. *)
Lemma ref_cloneDeep_spec start v :
  Ref.hoare start (Ref.cloneDeep v)
    (fun c => Ref.erase c = cloneDeep (Ref.erase v) /\ Ref.created_since start c).
Proof.
  induction v as [| | | | |l xs IH|l fs IH] using Ref.rval_ind;
    try (by apply hoare_ret).
  - cbn [Ref.cloneDeep].
    eapply hoare_bind; [apply hoare_fresh|]. intros l' Hl'.
    eapply hoare_bind; [apply hoare_mapM, IH|]. intros ys Hys.
    clear IH. apply hoare_ret. split.
    + simpl. f_equal. induction Hys as [|x y r ys' [Hy _] _ IHr]; [done|].
      simpl. by rewrite Hy, IHr.
    + apply created_since_arr. split; [done|].
      induction Hys as [|x y r ys' [_ Hy] _ IHr]; by constructor.
  - cbn [Ref.cloneDeep].
    eapply hoare_bind; [apply hoare_fresh|]. intros l' Hl'.
    eapply hoare_bind.
    { apply (hoare_mapM start _
               (fun kv kw => fst kw = fst kv
                             /\ Ref.erase (snd kw) = cloneDeep (Ref.erase (snd kv))
                             /\ Ref.created_since start (snd kw))).
      eapply Forall_impl; [exact IH|]. intros [k x] Hx. simpl in *.
      eapply hoare_bind; [exact Hx|]. intros w [Hw Hc]. by apply hoare_ret. }
    intros gs Hgs. clear IH. apply hoare_ret. split.
    + simpl. f_equal.
      induction Hgs as [|[k x] [k' y] r gs' (Hk & Hy & _) _ IHr]; [done|].
      simpl in *. by rewrite Hk, Hy, IHr.
    + apply created_since_obj. split; [done|].
      induction Hgs as [|x y r gs' (_ & _ & Hy) _ IHr]; by constructor.
Qed.

Lemma erase_get_field k fs :
  get_field k (map (fun kv => (fst kv, Ref.erase (snd kv))) fs)
  = Ref.erase <$> Ref.get_field k fs.
Proof.
  induction fs as [|[k' v] r IH]; simpl; [done|]. by destruct (String.eqb k' k).
Qed.

Lemma erase_set_field k v fs :
  map (fun kv => (fst kv, Ref.erase (snd kv))) (Ref.set_field k v fs)
  = set_field k (Ref.erase v) (map (fun kv => (fst kv, Ref.erase (snd kv))) fs).
Proof.
  induction fs as [|[k' w] r IH]; simpl;
    [by destruct (String.eqb k "__proto__")|].
  destruct (String.eqb k' k); simpl; [done | by rewrite IH].
Qed.

Lemma erase_prop k obj : Ref.erase (Ref.prop k obj) = prop k (Ref.erase obj).
Proof.
  destruct obj; try done. simpl. rewrite erase_get_field.
  by destruct (Ref.get_field k fields).
Qed.

Lemma erase_assign k v obj :
  Ref.erase (Ref.assign k v obj) = assign k (Ref.erase v) (Ref.erase obj).
Proof. destruct obj; try done. simpl. by rewrite erase_set_field. Qed.

Lemma created_since_get_field start l fs k v :
  Ref.created_since start (Ref.RObj l fs) -> Ref.get_field k fs = Some v ->
  Ref.created_since start v.
Proof.
  intros [_ Hfs]%created_since_obj. induction Hfs as [|[k' w] r Hw _ IH]; [done|].
  simpl. destruct (String.eqb k' k); [by intros [= <-] | done].
Qed.

Lemma created_since_prop start k obj :
  Ref.created_since start obj -> Ref.created_since start (Ref.prop k obj).
Proof.
  destruct obj; try done. intros Hc. simpl.
  destruct (Ref.get_field k fields) as [v|] eqn:Hv; [|done].
  by eapply created_since_get_field.
Qed.

Lemma created_since_assign start k v obj :
  Ref.created_since start obj -> Ref.created_since start v ->
  Ref.created_since start (Ref.assign k v obj).
Proof.
  destruct obj; try done. intros [Hl Hfs]%created_since_obj Hv. simpl.
  apply created_since_obj. split; [done|].
  induction Hfs as [|[k' w] r Hw Hr IH]; simpl;
    [destruct (String.eqb k "__proto__"); by repeat constructor|].
  destruct (String.eqb k' k); by constructor.
Qed.

(** The result of a merge erases to the merge of the erased values; its
    objects are new or come from the first value. *)
Lemma ref_mergeValues_spec options start val2 :
  forall val1,
    Ref.created_since start val1 ->
    Ref.hoare start (Ref._mergeValues options val1 val2)
      (fun r => Ref.erase r
                = _mergeValues options (Ref.erase val1) (Ref.erase val2)
                /\ Ref.created_since start r).
Proof.
  induction val2 as [| | | | |l2 xs2 _|l2 fs2 IH] using Ref.rval_ind;
    intros val1 H1;
    try (destruct val1;
         (eapply hoare_consequence; [apply (ref_cloneDeep_spec start)|];
          intros c [Hc Hs]; by split)).
  - (* sequences *)
    destruct val1 as [| | | | |l1 xs1|];
      try (eapply hoare_consequence; [apply (ref_cloneDeep_spec start)|];
           intros c [Hc Hs]; by split).
    cbn [Ref._mergeValues]. unfold Ref._mergeArrays.
    change (_mergeValues options (Ref.erase (Ref.RArr l1 xs1))
              (Ref.erase (Ref.RArr l2 xs2)))
      with (VArr (_mergeArrays (map Ref.erase xs1) (map Ref.erase xs2) options)).
    unfold _mergeArrays.
    destruct (default replace (arrayStrategy options)).
    + eapply hoare_consequence; [apply (ref_cloneDeep_spec start)|].
      intros c [Hc Hs]; by split.
    + eapply hoare_bind; [apply (ref_cloneDeep_spec start)|]. intros c [Hc Hs].
      eapply hoare_bind; [apply hoare_fresh|]. intros l Hl.
      apply hoare_ret. apply created_since_arr in H1 as [_ H1].
      destruct c as [| | | | |lc ys|]; try done.
      simpl in Hc. injection Hc as Hc. apply created_since_arr in Hs as [_ Hs].
      split.
      * simpl. by rewrite map_app, Hc.
      * apply created_since_arr. split; [done | by apply Forall_app].
  - (* mappings *)
    destruct val1 as [| | | | | |l1 fs1];
      try (eapply hoare_consequence; [apply (ref_cloneDeep_spec start)|];
           intros c [Hc Hs]; by split).
    cbn [Ref._mergeValues].
    change (_mergeValues options (Ref.erase (Ref.RObj l1 fs1))
              (Ref.erase (Ref.RObj l2 fs2)))
      with (_mergeObjects_loop (_mergeValues options)
              (cloneDeep (Ref.erase (Ref.RObj l1 fs1)))
              (map (fun kv => (fst kv, Ref.erase (snd kv))) fs2)).
    eapply hoare_bind; [apply (ref_cloneDeep_spec start)|].
    intros result [<- Hres]. clear H1. revert result Hres.
    unfold Ref._mergeObjects_loop, _mergeObjects_loop.
    induction IH as [|[k v2] r Hv2 _ IHr]; intros result Hres.
    + by apply hoare_ret.
    + cbn [Ref.foldM map fold_left fst snd].
      eapply hoare_bind.
      { eapply hoare_bind; [apply Hv2; by apply created_since_prop|].
        intros r' [Hr' Hc']. apply hoare_ret.
        instantiate (1 := fun result' =>
          Ref.erase result'
          = assign k (_mergeValues options (prop k (Ref.erase result))
                                   (Ref.erase v2)) (Ref.erase result)
          /\ Ref.created_since start result').
        split; [|by apply created_since_assign].
        by rewrite erase_assign, Hr', erase_prop. }
      intros result' [Heq Hc']. simpl. rewrite <- Heq. by apply IHr.
Qed.

Lemma ref_merge_spec options start obj1 obj2 :
  Ref.hoare start (Ref.merge obj1 obj2 options)
    (fun r => Ref.erase r = merge (Ref.erase obj1) (Ref.erase obj2) options
              /\ Ref.created_since start r).
Proof.
  unfold Ref.merge, merge.
  eapply hoare_bind; [apply (ref_cloneDeep_spec start)|].
  intros base [<- Hbase]. by apply ref_mergeValues_spec.
Qed.

(** [mergeAll] on values with locations refines [mergeAll], and every
    object of its result is new. *)
Lemma ref_mergeAll_spec options start objects :
  Ref.hoare start (Ref.mergeAll objects options)
    (fun r => Ref.erase r = mergeAll (map Ref.erase objects) options
              /\ Ref.created_since start r).
Proof.
  unfold Ref.mergeAll, mergeAll. rewrite length_map.
  destruct objects as [|x objects]; simpl Nat.eqb; cbv iota.
  - eapply hoare_bind; [apply hoare_fresh|]. intros l Hl.
    apply hoare_ret. split; [done|]. by apply created_since_obj.
  - eapply hoare_bind.
    { eapply hoare_bind; [apply hoare_fresh|]. intros l Hl. apply hoare_ret.
      instantiate (1 := fun initial =>
        Ref.erase initial = VObj None [] /\ Ref.created_since start initial).
      split; [done|]. by apply created_since_obj. }
    intros initial [<- Hinit]. revert initial Hinit.
    generalize (x :: objects). clear x objects.
    induction l as [|x objects IH]; intros acc Hacc; [by apply hoare_ret|].
    cbn [Ref.foldM map fold_left].
    eapply hoare_bind; [apply (ref_merge_spec options start)|].
    intros acc' [<- Hacc']. by apply IH.
Qed.

Lemma _mergeObjects_loop_obj options m fs fs2 :
  exists fs', _mergeObjects_loop (_mergeValues options) (VObj m fs) fs2 = VObj m fs'.
Proof.
  unfold _mergeObjects_loop. revert fs.
  induction fs2 as [|[k v] r IH]; intros fs; [by eexists|]. simpl. apply IH.
Qed.

(** Merging an object into the empty mapping gives an object. *)
Lemma merge_into_empty_reference options (x : Ref.rval) l :
  Ref.reference x = Some l ->
  is_undefined (merge (VObj None []) (Ref.erase x) options) = false
  /\ scalar (merge (VObj None []) (Ref.erase x) options) = false.
Proof.
  destruct x as [| | | | |l' xs|l' fs]; try done; intros _.
  unfold merge. cbn [Ref.erase cloneDeep map _mergeValues].
  destruct (_mergeObjects_loop_obj options None []
              (map (fun kv => (fst kv, Ref.erase (snd kv))) fs)) as [fs' ->].
  done.
Qed.

Lemma erase_reference (r : Ref.rval) :
  is_undefined (Ref.erase r) = false -> scalar (Ref.erase r) = false ->
  is_Some (Ref.reference r).
Proof. destruct r; try done; by eexists. Qed.

Lemma locations_reference (P : Ref.loc -> Prop) x l :
  Ref.locations P x -> Ref.reference x = Some l -> P l.
Proof. destruct x; try done; simpl; intros [HP _] [= <-]; done. Qed.

(** ** The merge with metadata computes the merge *)


Lemma defined_obj m fs :
  defined (VObj m fs) = true <-> Forall (fun kv => defined (snd kv) = true) fs.
Proof.
  simpl. induction fs as [|kv r IH].
  - split; [constructor | done].
  - rewrite andb_true_iff, IH, Forall_cons. done.
Qed.

Lemma ownkeys_obj m fs :
  ownkeys (VObj m fs) = true
  <-> Forall (fun kv => inherited (fst kv) = false /\ ownkeys (snd kv) = true) fs.
Proof.
  simpl. induction fs as [|kv r IH]; [by split|].
  rewrite Forall_cons, !andb_true_iff, negb_true_iff, IH. done.
Qed.

Lemma ownkeys_keys m fs :
  ownkeys (VObj m fs) = true -> "__proto__" ∉ keys fs.
Proof.
  intros H%ownkeys_obj. apply not_inherited_keys, Forall_fmap.
  eapply Forall_impl; [exact H|]. by intros kv [? _].
Qed.

Lemma ownkeys_get_field m fs k x :
  ownkeys (VObj m fs) = true -> get_field k fs = Some x ->
  inherited k = false /\ ownkeys x = true.
Proof.
  intros Hg%ownkeys_obj Hget%get_field_elem_of.
  rewrite Forall_forall in Hg. apply (Hg (k, x) Hget).
Qed.

Lemma map_clone_set_field k v fs :
  map (fun kv => (fst kv, cloneDeep (snd kv))) (set_field k v fs)
  = set_field k (cloneDeep v) (map (fun kv => (fst kv, cloneDeep (snd kv))) fs).
Proof.
  induction fs as [|[k1 w] r IH]; simpl;
    [by destruct (String.eqb k "__proto__")|].
  destruct (String.eqb k1 k); simpl; [done|]. by rewrite IH.
Qed.

Lemma map_clone_idemp fs :
  map (fun kv => (fst kv, cloneDeep (snd kv)))
      (map (fun kv => (fst kv, cloneDeep (snd kv))) fs)
  = map (fun kv : string * jsval => (fst kv, cloneDeep (snd kv))) fs.
Proof.
  rewrite map_map. apply map_ext. intros [k v]. simpl.
  by rewrite cloneDeep_idemp.
Qed.

Lemma merged_loop_mergeObjects options sourceId currentPath sfs :
  Forall (fun kv =>
            is_undefined (snd kv) = false
            /\ forall target path,
                 cloneDeep (mergedValue options sourceId target (snd kv) path)
                 = _mergeValues options (cloneDeep target) (snd kv)) sfs ->
  forall f0 c0,
    _mergeObjects_loop (_mergeValues options)
      (VObj None (map (fun kv => (fst kv, cloneDeep (snd kv))) f0)) sfs
    = VObj None
        (map (fun kv => (fst kv, cloneDeep (snd kv)))
           (fst (_mergeRecursive_loop
                   (_mergeRecursiveWithMetadata options sourceId)
                   currentPath sfs (f0, c0)))).
Proof.
  unfold _mergeObjects_loop, _mergeRecursive_loop.
  induction 1 as [|[k sv] r [Hu Hsv] _ IH]; intros f0 c0; [done|].
  cbn [fold_left fst snd prop assign]. simpl in Hu, Hsv. rewrite Hu.
  rewrite merge_fst.
  rewrite <- IH. f_equal. f_equal.
  rewrite map_clone_set_field, Hsv, get_field_clone.
  by destruct (get_field k f0).
Qed.

Lemma mergedValue_mergeValues options sourceId source :
  forall target currentPath,
    wf source -> defined source = true -> ownkeys source = true ->
    cloneDeep (mergedValue options sourceId target source currentPath)
    = _mergeValues options (cloneDeep target) source.
Proof.
  induction source as [| | | | |xs IH|m sfs IH] using jsval_ind;
    intros target currentPath Hwf Hdef Hown; try done;
    try (by destruct target).
  - unfold mergedValue. cbn [_mergeRecursiveWithMetadata fst].
    assert (map cloneDeep (map cloneDeep xs) = map cloneDeep xs) as Hidem.
    { rewrite map_map. apply map_ext, cloneDeep_idemp. }
    destruct target as [| | | | |tgt|mt tfs]; simpl; rewrite ?Hidem; try done.
    unfold _mergeArrays.
    destruct (default replace (arrayStrategy options)); simpl;
      by rewrite ?map_app, ?Hidem.
  - rewrite mergedValue_obj. cbn zeta.
    apply wf_obj in Hwf as [Hnd Hwf]. apply defined_obj in Hdef.
    pose proof (ownkeys_keys m sfs Hown) as Hproto.
    apply ownkeys_obj in Hown.
    assert (Forall (fun kv =>
              is_undefined (snd kv) = false
              /\ forall target path,
                   cloneDeep (mergedValue options sourceId target (snd kv) path)
                   = _mergeValues options (cloneDeep target) (snd kv)) sfs)
      as Hall.
    { rewrite Forall_forall in IH, Hwf, Hdef, Hown. apply Forall_forall.
      intros kv Hkv. split.
      - specialize (Hdef kv Hkv). by destruct (snd kv).
      - intros target' path'. apply IH; auto. by apply Hown. }
    change (cloneDeep (VObj ?a ?fs))
      with (VObj None (map (fun kv => (fst kv, cloneDeep (snd kv))) fs)).
    rewrite <- (merged_loop_mergeObjects options sourceId currentPath sfs Hall).
    destruct target as [| | | | |tgt|mt tfs];
      try (rewrite init_resultObject_leaf by done;
           pose proof (merge_into_empty options m sfs Hnd Hproto) as Hm;
           unfold merge in Hm; simpl in Hm; simpl; by rewrite Hm).
    rewrite init_resultObject_obj.
    change (cloneDeep (VObj mt tfs))
      with (VObj None (map (fun kv => (fst kv, cloneDeep (snd kv))) tfs)).
    cbn [_mergeValues].
    change (cloneDeep (VObj None ?fs))
      with (VObj None (map (fun kv => (fst kv, cloneDeep (snd kv))) fs)).
    done.
Qed.

Lemma fold_mergeStep_merge options sources :
  Forall (fun s => wf (SourceObject.data s)
                   /\ defined (SourceObject.data s) = true
                   /\ ownkeys (SourceObject.data s) = true) sources ->
  forall st,
    cloneDeep (mergedObject (fold_left (mergeStep options) sources st))
    = fold_left (fun accumulator currentObject =>
                   merge accumulator currentObject options)
                (map SourceObject.data sources) (cloneDeep (mergedObject st)).
Proof.
  induction 1 as [|s r (Hwf & Hdef & Hown) _ IH]; intros st; [done|].
  cbn [fold_left map]. rewrite IH. f_equal.
  rewrite mergeStep_mergedObject.
  rewrite mergedValue_mergeValues by done.
  unfold merge. by rewrite cloneDeep_idemp.
Qed.

(** ** The sources of [enrichSchema] *)

Lemma sourceObjectsOf_Returns jsonArray :
  Forall (fun json => nullish json = false) jsonArray ->
  sourceObjectsOf jsonArray
  = Returns (map (fun json => SourceObject.make (prop "id" json) json)
                 jsonArray).
Proof.
  induction 1 as [|json r Hjson _ IH]; [done|].
  cbn [sourceObjectsOf map]. unfold json_id. by rewrite Hjson, IH.
Qed.

Lemma sourceObjectsOf_Throws jsonArray :
  Exists (fun json => nullish json = true) jsonArray ->
  sourceObjectsOf jsonArray = Throws.
Proof.
  induction 1 as [json r Hjson|json r _ IH]; cbn [sourceObjectsOf].
  - unfold json_id. by rewrite Hjson.
  - rewrite IH. by destruct (json_id json).
Qed.

Lemma map_data_sources jsonArray :
  map SourceObject.data
      (map (fun json => SourceObject.make (prop "id" json) json) jsonArray)
  = jsonArray.
Proof. rewrite map_map. simpl. apply map_id. Qed.

(** A property that the source does not hold is left as it is in the
    result, whatever its key. *)
Lemma _mergeRecursive_loop_other
    (rec : jsval -> jsval -> string -> MetadataMap -> jsval * MetadataMap)
    currentPath sfs f0 c0 k :
  k ∉ keys sfs ->
  get_field k (fst (_mergeRecursive_loop rec currentPath sfs (f0, c0)))
  = get_field k f0.
Proof.
  unfold _mergeRecursive_loop. revert f0 c0.
  induction sfs as [|[k1 sv1] r IH]; intros f0 c0 Hk; [done|].
  change (keys ((k1, sv1) :: r)) with (k1 :: keys r) in Hk.
  apply not_elem_of_cons in Hk as [Hne Hk].
  cbn [fold_left fst snd].
  set (st1 := if is_undefined sv1 then _ else _).
  rewrite (surjective_pairing st1), IH by done.
  unfold st1. destruct (is_undefined sv1); simpl.
  - rewrite get_field_delete_field. by destruct (decide (k1 = k)).
  - by rewrite get_field_set_field_ne.
Qed.

(** A value that is not a mapping replaces what was there, with the
    default options. *)
Lemma mergedValue_leaf sourceId target source currentPath :
  is_leaf source = true -> is_undefined source = false ->
  mergedValue noMergeOptions sourceId target source currentPath
  = cloneDeep source.
Proof. destruct source; try done. by destruct target. Qed.

(** ** The tests of the repository, on the embedding *)

Section repository_tests.
Let num (n : Z) := VNum n.
Let obj (fs : fieldlist) := VObj None fs.
Let obj1 := obj [("a", num 1); ("b", obj [("c", num 2)]); ("d", VArr [num 1; num 2])].
Let obj2 := obj [("a", num 10); ("b", obj [("c", num 20); ("e", num 30)]);
                 ("d", VArr [num 3; num 4]); ("f", num 40)].
Let obj3 := obj [("a", num 100); ("d", VArr [num 5]); ("g", num 50)].
Let concatOptions := {| arrayStrategy := Some concat |}.

Example test_merge_simple :
  merge obj1 obj2 noMergeOptions
  = obj [("a", num 10); ("b", obj [("c", num 20); ("e", num 30)]);
         ("d", VArr [num 3; num 4]); ("f", num 40)].
Proof. reflexivity. Qed.

Example test_merge_concat :
  merge obj1 obj2 concatOptions
  = obj [("a", num 10); ("b", obj [("c", num 20); ("e", num 30)]);
         ("d", VArr [num 1; num 2; num 3; num 4]); ("f", num 40)].
Proof. reflexivity. Qed.

Example test_merge_replaces_object_with_scalar :
  merge (obj [("a", obj [("b", num 2)])]) (obj [("a", num 1)]) noMergeOptions
  = obj [("a", num 1)].
Proof. reflexivity. Qed.

Example test_mergeAll_sequential :
  mergeAll [obj1; obj2; obj3] concatOptions
  = obj [("a", num 100); ("b", obj [("c", num 20); ("e", num 30)]);
         ("d", VArr [num 1; num 2; num 3; num 4; num 5]); ("f", num 40);
         ("g", num 50)].
Proof. reflexivity. Qed.

Example test_diff_simple :
  diff (obj [("a", num 1); ("b", num 2); ("c", num 3)])
       (obj [("a", num 1); ("b", num 20); ("d", num 4)]) noDiffOptions
  = obj [("b", num 20); ("c", VUndef); ("d", num 4)].
Proof. reflexivity. Qed.

Example test_diff_nested :
  diff (obj [("a", num 1); ("b", obj [("c", num 2); ("d", num 3)]); ("e", num 5)])
       (obj [("a", num 1); ("b", obj [("c", num 2); ("d", num 30)]); ("f", num 6)])
       noDiffOptions
  = obj [("b", obj [("d", num 30)]); ("e", VUndef); ("f", num 6)].
Proof. reflexivity. Qed.

Example test_diff_identical :
  diff (obj [("a", num 1); ("b", obj [("c", num 2)])])
       (obj [("a", num 1); ("b", obj [("c", num 2)])]) noDiffOptions
  = obj [].
Proof. reflexivity. Qed.

Example test_diff_type_change :
  diff (obj [("a", num 1); ("b", obj [("c", num 2)])])
       (obj [("a", VStr "hello"); ("b", VArr [num 1; num 2])])
       {| diffArrayStrategy := Some elements |}
  = obj [("a", VStr "hello"); ("b", VArr [num 1; num 2])].
Proof. reflexivity. Qed.

Example test_diffAll_first_and_last :
  diffAll [obj [("a", num 1); ("b", num 2)]; obj [("b", num 20)];
           obj [("a", num 1); ("b", num 20); ("c", num 30)]] noDiffOptions
  = obj [("b", num 20); ("c", num 30)].
Proof. reflexivity. Qed.

(** The end-to-end scenario of the specification. *)
Example test_end_to_end :
  let r := mergeAllWithMetadata
             [SourceObject.make (VStr "1")
                (obj [("name", VStr "Alice"); ("age", num 25)]);
              SourceObject.make (VStr "2") (obj [("name", VStr "Bob")]);
              SourceObject.make (VStr "3") (obj [("age", num 30)])]
             noMergeOptions in
  cloneDeep (mergedObject r) = obj [("name", VStr "Bob"); ("age", num 30)]
  /\ metadata r !! "name" = Some (mkPathMetadata (VStr "2") "name" (VStr "Bob"))
  /\ metadata r !! "age" = Some (mkPathMetadata (VStr "3") "age" (num 30)).
Proof. by vm_compute. Qed.

Example test_metadata_into_primitive :
  mergeAllWithMetadata
    [SourceObject.make (VStr "p1") (obj [("a", num 1)]);
     SourceObject.make (VStr "p2") (num 100)] noMergeOptions
  = {| mergedObject := num 100;
       metadata := {["a" := mkPathMetadata (VStr "p1") "a" (num 1)]} |}.
Proof. by vm_compute. Qed.

Example test_traverseSchema_tuple :
  map (fun c => (SchemaTraversalContext.path c,
                 SchemaTraversalContext.propertyName c))
      (traverseSchema
         (obj [("type", VStr "array");
               ("items", VArr [obj [("type", VStr "number")];
                               obj [("type", VStr "string")]])]))
  = [([], None); ([], Some "0"); ([], Some "1")].
Proof. reflexivity. Qed.

Example test_traverseSchema_combiners :
  map SchemaTraversalContext.path
      (traverseSchema
         (obj [("allOf", VArr [obj [("type", VStr "object");
                                    ("properties", obj [("a", obj [("type", VStr "string")])])]]);
               ("anyOf", VArr [obj [("type", VStr "object");
                                    ("properties", obj [("b", obj [("type", VStr "number")])])]]);
               ("oneOf", VArr [obj [("type", VStr "boolean")]])]))
  = [[]; []; ["a"]; []; ["b"]; []].
Proof. reflexivity. Qed.

(** Traversal path stability for arrays. *)
Example test_traverseData_array :
  let items := obj [("type", VStr "string")] in
  let schema := obj [("type", VStr "array"); ("items", items)] in
  let data := VArr [VStr "p"; VStr "q"] in
  traverseData schema data
  = Returns
      [DataTraversalContext.make
         (SchemaTraversalContext.make schema [] None None) data;
       DataTraversalContext.make
         (SchemaTraversalContext.make items [] (Some "0") (Some schema))
         (VStr "p");
       DataTraversalContext.make
         (SchemaTraversalContext.make items [] (Some "1") (Some schema))
         (VStr "q")].
Proof. reflexivity. Qed.

Example test_enrichSchema :
  let schema :=
    obj [("type", VStr "object");
         ("properties", obj [("name", obj [("type", VStr "string")]);
                             ("age", obj [("type", VStr "number")])])] in
  let jsonArray :=
    [obj [("id", VStr "1"); ("name", VStr "Alice"); ("age", num 25)];
     obj [("id", VStr "2"); ("name", VStr "Bob")];
     obj [("id", VStr "3"); ("age", num 30)]] in
  exists r,
    enrichSchema schema ∅ jsonArray = Returns r
    /\ cloneDeep (EnrichResult.mergedJson r)
       = obj [("id", VStr "3"); ("name", VStr "Bob"); ("age", num 30)]
    /\ EnrichResult.schemaUI r
       = {["name" := widget (mkPathMetadata (VStr "2") "name" (VStr "Bob"));
           "age" := widget (mkPathMetadata (VStr "3") "age" (num 30))]}.
Proof. eexists. split; [reflexivity|]. by vm_compute. Qed.
End repository_tests.

(** * The claims *)

(** ** diffAll *)

(** C8. For a list of at least two values, [diffAll] is [diff] of the first
    and the last element, whatever the options; the elements in between
    can be replaced by any others, or removed, without changing the
    result. *)
Theorem diffAll_first_last (objects : list jsval) (options : DiffOptions) :
  2 <= length objects ->
  diffAll objects options
  = diff (List.hd VUndef objects) (List.last objects VUndef) options
  /\ forall middle : list jsval,
       diffAll (List.hd VUndef objects :: middle ++ [List.last objects VUndef])
               options
       = diffAll objects options.
Proof.
  intros Hlen. split; [by apply diffAll_unfold|].
  intros middle. rewrite !diffAll_unfold; [|done|].
  - f_equal. rewrite app_comm_cons. apply List.last_last.
  - simpl. rewrite length_app. simpl. lia.
Qed.

Lemma diffAll_first_last_witness :
  diffAll [VObj None [("a", VNum 1)]; VObj None [("a", VNum 2)];
           VObj None [("a", VNum 1); ("c", VNum 30)]] noDiffOptions
  = VObj None [("c", VNum 30)].
Proof.
  destruct (diffAll_first_last
              [VObj None [("a", VNum 1)]; VObj None [("a", VNum 2)];
               VObj None [("a", VNum 1); ("c", VNum 30)]] noDiffOptions)
    as [H _]; [simpl; lia|].
  rewrite H. reflexivity.
Defined.

(** C10. For a list of fewer than two values, [diffAll] is the empty
    mapping, whatever the options. *)
Theorem diffAll_short (objects : list jsval) (options : DiffOptions) :
  length objects < 2 -> diffAll objects options = VObj None [].
Proof.
  intros Hlen. unfold diffAll.
  by destruct (Nat.ltb_spec (length objects) 2); [|lia].
Qed.

Lemma diffAll_short_witness :
  diffAll [VObj None [("a", VNum 1)]] noDiffOptions = VObj None [].
Proof. apply diffAll_short. simpl. lia. Defined.

(** ** Deletion and last writer *)

(** C1 (amended). After [S1 = {x: 1}] and [S2 = {x: undefined}] the merged
    value has no key [x] and its hidden property knows no attribute [x],
    but the returned metadata still holds, under the path [x], the entry
    recorded after [S1]. *)
Theorem deletion_keeps_stale_metadata (id1 id2 : jsval) (options : MergeOptions) :
  let S1 := SourceObject.make id1 (VObj None [("x", VNum 1)]) in
  let S2 := SourceObject.make id2 (VObj None [("x", VUndef)]) in
  let r := mergeAllWithMetadata [S1; S2] options in
  hasOwnProperty (mergedObject r) "x" = false
  /\ getMetadata (mergedObject r) "x" = None
  /\ metadata r !! "x" = Some (mkPathMetadata id1 "x" (VNum 1)).
Proof. by vm_compute. Qed.

(** C2. After [S1 = {a: {b: 1}}] and [S2 = {a: {c: 2}}] the metadata names
    [S2] for the path [a], [S1] for [a.b] and [S2] for [a.c]. *)
Theorem last_writer_wins (id1 id2 : jsval) (options : MergeOptions) :
  let S1 := SourceObject.make id1 (VObj None [("a", VObj None [("b", VNum 1)])]) in
  let S2 := SourceObject.make id2 (VObj None [("a", VObj None [("c", VNum 2)])]) in
  let r := mergeAllWithMetadata [S1; S2] options in
  sourceId <$> metadata r !! "a" = Some id2
  /\ sourceId <$> metadata r !! "a.b" = Some id1
  /\ sourceId <$> metadata r !! "a.c" = Some id2.
Proof. by vm_compute. Qed.

(** C1, as stated, fails: the entry for the path [x] is still in the
    metadata after [S2] has removed the key. *)
Lemma deletion_metadata_counterexample :
  let S1 := SourceObject.make (VStr "S1") (VObj None [("x", VNum 1)]) in
  let S2 := SourceObject.make (VStr "S2") (VObj None [("x", VUndef)]) in
  let r := mergeAllWithMetadata [S1; S2] noMergeOptions in
  ~ (hasOwnProperty (mergedObject r) "x" = false /\ metadata r !! "x" = None).
Proof. vm_compute. by intros [_ ?]. Qed.

(** ** Provenance completeness *)

(** C3, as stated, fails on a key that holds the separator of paths: for
    the one source [{"a.b": 1}] the merged value has the leaf [a.b] and the
    metadata is empty. *)
Lemma provenance_complete_counterexample :
  let S1 := SourceObject.make (VStr "S1") (VObj None [("a.b", VNum 1)]) in
  let r := mergeAllWithMetadata [S1] noMergeOptions in
  ~ provenance_complete (mergedObject r) (metadata r).
Proof.
  intros S1 r H.
  destruct (H ["a.b"] (VNum 1)) as (m & Hm & _); [done..|].
  vm_compute in Hm. discriminate.
Qed.

(** C3 (amended). When the keys of the sources that are met through
    mappings are not empty, hold no ['.'] and are not [__proto__], then
    after
    [mergeAllWithMetadata] every path of at least one key to a leaf of the
    merged value (a whole sequence is a leaf) has an entry in the metadata,
    and the value of the entry deep-equals the value at the path. *)
Theorem provenance_complete_good_sources sources options :
  Forall good_source sources ->
  let r := mergeAllWithMetadata sources options in
  provenance_complete (mergedObject r) (metadata r).
Proof.
  intros Hgood r ks x Hne Hx _.
  destruct (merge_invariant_all options sources Hgood)
    as (Hwf & (Hkg & _) & _ & Hmd).
  destruct (Hmd ks x Hne Hx) as (m & Hm & Hval).
  exists m. rewrite <- pathOf_join by (by eapply Hkg).
  split; [done|]. rewrite Hval. apply isEqual_cloneDeep.
  by eapply lookup_path_wf.
Qed.

Lemma provenance_complete_good_sources_witness :
  let sources :=
    [SourceObject.make (VStr "1")
       (VObj None [("name", VStr "Alice"); ("age", VNum 25)]);
     SourceObject.make (VStr "2") (VObj None [("name", VStr "Bob")]);
     SourceObject.make (VStr "3") (VObj None [("age", VNum 30)])] in
  let r := mergeAllWithMetadata sources noMergeOptions in
  provenance_complete (mergedObject r) (metadata r).
Proof.
  apply provenance_complete_good_sources.
  repeat apply Forall_cons_2; try apply Forall_nil_2;
    (split; [|reflexivity]); simpl; repeat split;
    by apply (bool_decide_unpack (NoDup _)).
Defined.

(** ** The hidden property of the merged mappings *)


(** The two last cases in detail: after [{b: {c: 10}}] and [{b: {e: 20}}]
    the mapping [b] knows [e] but not [c]; after [{a: {b: 1}}] and
    [{c: 2}] the mapping [a] has no hidden property. *)
Lemma nested_accessor_lost :
  let r1 := mergeAllWithMetadata
              [SourceObject.make (VStr "s1")
                 (VObj None [("b", VObj None [("c", VNum 10)])]);
               SourceObject.make (VStr "s2")
                 (VObj None [("b", VObj None [("e", VNum 20)])])]
              noMergeOptions in
  let r2 := mergeAllWithMetadata
              [SourceObject.make (VStr "s1")
                 (VObj None [("a", VObj None [("b", VNum 1)])]);
               SourceObject.make (VStr "s2") (VObj None [("c", VNum 2)])]
              noMergeOptions in
  getMetadata (prop "b" (mergedObject r1)) "c" = None
  /\ sourceId <$> getMetadata (prop "b" (mergedObject r1)) "e" = Some (VStr "s2")
  /\ prop "a" (mergedObject r2) = VObj None [("b", VNum 1)].
Proof. by vm_compute. Qed.



(** ** Shape mismatches in the traversals *)

(** C5, as stated, fails: a schema node that is not an object is not
    visited at all. In [{properties: {a: true}}] the node [true] is reached
    as a child and neither traversal passes it to the visitor. *)
Lemma scalar_schema_node_counterexample :
  let schema := VObj None [("properties", VObj None [("a", VBool true)])] in
  let data := VObj None [("a", VNum 1)] in
  ~ (schema_visits (VBool true) (traverseSchema schema) = 1
     /\ data_visits (VBool true) (traverseData schema data) = Some 1).
Proof. vm_compute. by intros [? _]. Qed.

(** C5 (amended). [traverseData] returns on every schema and data (and
    [traverseSchema], which uses no operation that can throw, is a total
    function). A keyword whose shape the data does not have is skipped:
    - on data that is not a mapping, the visits from a schema node are the
      node itself, then those of [items], then those of the combiners,
      [not] and the conditionals: nothing is visited for [properties] and
      [dependentSchemas];
    - on data that is not a sequence, the visits from a schema node are
      the node itself, then those of [properties], of the combiners, [not]
      and the conditionals, and of [dependentSchemas]: nothing is visited
      for [items];
    - on data that is neither, every visit of [traverseData] is at the
      root path, with the data itself: no property and no item is entered
      at any depth of the schema.
    A schema node that is not an object ([undefined], a boolean, a number,
    a string) or is [null] is not visited; a schema node that is a sequence
    is visited once, with the context it was reached with, and not
    entered. *)
Theorem traversal_shape_mismatch :
  (forall schema data, returns (traverseData schema data))
  /\ (forall m fs dataValue currentPath propertyName parent,
        is_leaf dataValue = true ->
        let node := VObj m fs in
        _traverseDataRecursive node dataValue currentPath propertyName parent
        = andThen
            (Returns
               [DataTraversalContext.make
                  (SchemaTraversalContext.make node currentPath propertyName
                                               parent)
                  dataValue])
            (andThen
               (on_data_keyword node dataValue "items"
                  (_handleDataItems node dataValue currentPath node
                                    _traverseDataRecursive))
               (same_data_visits node dataValue currentPath)))
  /\ (forall m fs dataValue currentPath propertyName parent,
        isArray dataValue = false ->
        let node := VObj m fs in
        _traverseDataRecursive node dataValue currentPath propertyName parent
        = andThen
            (Returns
               [DataTraversalContext.make
                  (SchemaTraversalContext.make node currentPath propertyName
                                               parent)
                  dataValue])
            (andThen
               (on_data_keyword node dataValue "properties"
                  (_handleDataProperties node dataValue currentPath node
                                         _traverseDataRecursive))
               (andThen
                  (same_data_visits node dataValue currentPath)
                  (on_data_keyword node dataValue "dependentSchemas"
                     (_handleDataDependentSchemas node dataValue currentPath
                                                  node
                                                  _traverseDataRecursive)))))
  /\ (forall schema dataValue visits,
        is_leaf dataValue = true -> isArray dataValue = false ->
        traverseData schema dataValue = Returns visits ->
        Forall (fun c => DataTraversalContext.path c = []
                         /\ DataTraversalContext.dataValue c = dataValue)
               visits)
  /\ (forall sub dataValue currentPath propertyName parent,
        typeof_object sub = false \/ sub = VNull ->
        _traverseDataRecursive sub dataValue currentPath propertyName parent
        = Returns []
        /\ _traverseSchemaRecursive sub currentPath propertyName parent = [])
  /\ (forall xs dataValue currentPath propertyName parent,
        _traverseDataRecursive (VArr xs) dataValue currentPath propertyName
                               parent
        = Returns
            [DataTraversalContext.make
               (SchemaTraversalContext.make (VArr xs) currentPath propertyName
                                            parent)
               dataValue]
        /\ _traverseSchemaRecursive (VArr xs) currentPath propertyName parent
           = [SchemaTraversalContext.make (VArr xs) currentPath propertyName
                                          parent]).
Proof.
  split; [exact traverseData_returns|].
  split; [|split; [|split; [|split]]].
  - intros m fs dataValue currentPath propertyName parent Hleaf.
    by apply _traverseDataRecursive_not_mapping.
  - intros m fs dataValue currentPath propertyName parent Hseq.
    by apply _traverseDataRecursive_not_sequence.
  - intros schema dataValue visits Hleaf Hseq Hv.
    by eapply (proj1 (_traverseDataRecursive_stays schema)).
  - intros sub dataValue currentPath propertyName parent [Hsub| ->]; [|done].
    by destruct sub.
  - done.
Qed.

Lemma traversal_shape_mismatch_witness :
  let schema :=
    VObj None [("type", VStr "object");
               ("properties", VObj None [("prop", VObj None [("type", VStr "string")])])] in
  let data := VArr [VNum 1; VNum 2; VNum 3] in
  _traverseDataRecursive schema data [] None None
  = Returns [DataTraversalContext.make
               (SchemaTraversalContext.make schema [] None None) data]
  /\ _traverseDataRecursive (VBool true) data ["a"] (Some "a") (Some schema)
     = Returns [].
Proof.
  destruct traversal_shape_mismatch as (_ & Hskip & _ & _ & Hscalar & _).
  split.
  - etrans;
      [apply (Hskip None
                [("type", VStr "object");
                 ("properties",
                  VObj None [("prop", VObj None [("type", VStr "string")])])]);
       reflexivity|].
    reflexivity.
  - apply Hscalar. left. reflexivity.
Defined.

(** The test of the repository for a mismatch of shapes: a schema of an
    object with the data [[1, 2, 3]] visits the root and nothing else. *)
Lemma traverseData_mismatch_example :
  let schema :=
    VObj None [("type", VStr "object");
               ("properties", VObj None [("prop", VObj None [("type", VStr "string")])])] in
  let data := VArr [VNum 1; VNum 2; VNum 3] in
  traverseData schema data
  = Returns [DataTraversalContext.make
               (SchemaTraversalContext.make schema [] None None) data].
Proof. reflexivity. Qed.

(** ** Schema enrichment *)

(** C9. [enrichSchema] merges the input objects whole: the data of each
    source is the object itself, with its [id]. For a non-empty input of
    values other than [null] and [undefined] whose last object has the
    string [s] as its [id], the call returns the merged value of the whole
    objects, and:
    - the merged value has the key [id] with the value [s];
    - a key other than [__proto__] that the last object holds with a
      value that is not a mapping and not [undefined] has a clone of that
      value;
    - a key that the last object does not hold is there when the merge of
      the objects before is a mapping with that key, and has a clone of
      the value there;
    - when no object holds [undefined] or a key that is the name of a
      member of [Object.prototype], the merged value, without its hidden
      properties, is the result of [mergeAll] on the objects. *)
Theorem enrichSchema_keeps_id schema schemaUI previous json m fs s :
  Forall (fun json => nullish json = false) previous ->
  json = VObj m fs ->
  NoDup (keys fs) ->
  get_field "id" fs = Some (VStr s) ->
  let sourcesOf :=
    map (fun json => SourceObject.make (prop "id" json) json) in
  let before :=
    mergedObject (mergeAllWithMetadata (sourcesOf previous) noMergeOptions) in
  exists r,
    enrichSchema schema schemaUI (previous ++ [json]) = Returns r
    /\ EnrichResult.mergedJson r
       = mergedObject
           (mergeAllWithMetadata (sourcesOf (previous ++ [json]))
                                 noMergeOptions)
    /\ hasOwnProperty (EnrichResult.mergedJson r) "id" = true
    /\ prop "id" (EnrichResult.mergedJson r) = VStr s
    /\ (forall k v,
          k <> "__proto__" -> get_field k fs = Some v ->
          is_leaf v = true -> is_undefined v = false ->
          hasOwnProperty (EnrichResult.mergedJson r) k = true
          /\ prop k (EnrichResult.mergedJson r) = cloneDeep v)
    /\ (forall k,
          get_field k fs = None ->
          lookup_path [k] (EnrichResult.mergedJson r)
          = cloneDeep <$> lookup_path [k] before)
    /\ (Forall (fun json => wf json /\ defined json = true
                            /\ ownkeys json = true) (previous ++ [json]) ->
        cloneDeep (EnrichResult.mergedJson r)
        = mergeAll (previous ++ [json]) noMergeOptions).
Proof.
  intros Hprev -> Hnd Hid sourcesOf before. unfold enrichSchema.
  rewrite sourceObjectsOf_Returns
    by (apply Forall_app; split; [done | by repeat constructor]).
  cbn [bind]. fold sourcesOf.
  set (r := mergeAllWithMetadata _ _).
  destruct (traverseData_returns schema (mergedObject r)) as [visits ->].
  eexists. split; [reflexivity|]. split; [reflexivity|].
  cbn [bind EnrichResult.mergedJson].
  assert (exists cm fs',
            mergedObject r = VObj cm fs'
            /\ (forall k, k <> "__proto__" ->
                  get_field k fs'
                  = match get_field k fs with
                    | Some sv =>
                        if is_undefined sv then None
                        else Some (merged_child noMergeOptions (VStr s) ""
                                     (init_resultObject before) k sv)
                    | None => get_field k (init_resultObject before)
                    end)
            /\ (forall k, get_field k fs = None ->
                  get_field k fs' = get_field k (init_resultObject before)))
    as (cm & fs' & Hr & Hown & Hother).
  { subst r. unfold sourcesOf. rewrite map_app. cbn [map].
    rewrite mergeAllWithMetadata_snoc, mergeStep_mergedObject.
    cbn [SourceObject.data SourceObject.id prop]. rewrite Hid. cbn [default].
    rewrite mergedValue_obj. cbn zeta. eexists _, _. split; [done|]. split.
    - intros k Hk. by apply _mergeRecursive_loop_fields.
    - intros k Hk. apply _mergeRecursive_loop_other. by apply get_field_None. }
  rewrite Hr. cbn [hasOwnProperty prop].
  split; [|split; [|split; [|split]]].
  - rewrite Hown, Hid by done. by apply bool_decide_eq_true.
  - by rewrite Hown, Hid.
  - intros k v Hk Hv Hleaf Hu. rewrite Hown, Hv, Hu by done.
    unfold merged_child. rewrite mergedValue_leaf by done.
    split; [by apply bool_decide_eq_true | done].
  - intros k Hk. rewrite lookup_path_cons.
    rewrite Hother, get_field_init_resultObject by done.
    by destruct (lookup_path [k] before).
  - intros Hall. rewrite <- Hr. subst r.
    rewrite mergeAllWithMetadata_fold, fold_mergeStep_merge.
    + unfold sourcesOf. rewrite map_data_sources. unfold mergeAll.
      by destruct previous.
    + unfold sourcesOf. apply Forall_fmap.
      eapply Forall_impl; [exact Hall | done].
Qed.

Lemma enrichSchema_keeps_id_witness :
  let schema :=
    VObj None [("type", VStr "object");
               ("properties",
                VObj None [("name", VObj None [("type", VStr "string")]);
                           ("age", VObj None [("type", VStr "number")])])] in
  let previous :=
    [VObj None [("id", VStr "1"); ("name", VStr "Alice"); ("age", VNum 25)];
     VObj None [("id", VStr "2"); ("name", VStr "Bob")]] in
  let json := VObj None [("id", VStr "3"); ("age", VNum 30)] in
  exists r,
    enrichSchema schema ∅ (previous ++ [json]) = Returns r
    /\ prop "id" (EnrichResult.mergedJson r) = VStr "3"
    /\ prop "age" (EnrichResult.mergedJson r) = VNum 30
    /\ prop "name" (EnrichResult.mergedJson r) = VStr "Bob".
Proof.
  intros schema previous json.
  destruct (enrichSchema_keeps_id schema ∅ previous json None
              [("id", VStr "3"); ("age", VNum 30)] "3")
    as (r & Hr & _ & _ & Hid & Hlast & Hkept & _).
  - by repeat constructor.
  - reflexivity.
  - by apply (bool_decide_unpack (NoDup _)).
  - reflexivity.
  - exists r. split; [done|]. split; [done|]. split.
    + by destruct (Hlast "age" (VNum 30)) as [_ ->].
    + pose proof (Hkept "name" eq_refl) as Hname.
      destruct (EnrichResult.mergedJson r) as [| | | | | |cm fs']; try done.
      cbn [lookup_path prop] in Hname |- *.
      destruct (get_field "name" fs') as [x|]; [by injection Hname|done].
Defined.

(** [enrichSchema] throws on an input that holds [null] or [undefined]:
    [json.id] is a [TypeError] there. *)
Lemma enrichSchema_nullish schema schemaUI jsonArray :
  Exists (fun json => nullish json = true) jsonArray ->
  enrichSchema schema schemaUI jsonArray = Throws.
Proof.
  intros H. unfold enrichSchema. by rewrite sourceObjectsOf_Throws.
Qed.

(** ** mergeAll *)

(** [mergeAll] is the fold of [merge] over the list from the empty mapping,
    whatever the options, and the empty list gives the empty mapping. A
    list of one element whose keys are not [inherited] gives a deep clone
    of the element: the value of [cloneDeep], deep-equal to the element,
    and, with the identity of objects, an object that the call has created
    and that shares no object with the element. *)
Lemma mergeAll_fold_clone (options : MergeOptions) :
  (forall objects,
     mergeAll objects options
     = fold_left (fun accumulator currentObject =>
                    merge accumulator currentObject options)
                 objects (VObj None []))
  /\ mergeAll [] options = VObj None []
  /\ (forall x, wf x ->
        Forall (fun k => inherited k = false) (Object_keys x) ->
        mergeAll [x] options = cloneDeep x
        /\ isEqual (mergeAll [x] options) x = true)
  /\ (forall (x : Ref.rval) (next l : Ref.loc),
        Ref.locations (fun l => l < next) x ->
        Ref.reference x = Some l ->
        let r := fst (Ref.mergeAll [x] options next) in
        Ref.erase r = mergeAll [Ref.erase x] options
        /\ Ref.created_since next r
        /\ exists l', Ref.reference r = Some l' /\ l' <> l).
Proof.
  split; [by intros [|x objects]|]. split; [done|]. split.
  - intros x Hwf Hkeys.
    assert (mergeAll [x] options = cloneDeep x) as ->.
    { apply merge_into_empty_wf; [done|]. by apply not_inherited_keys. }
    split; [done | by apply isEqual_cloneDeep].
  - intros x next l Hx Hl r.
    destruct (ref_mergeAll_spec options next [x] next) as [[He Hc] _]; [done|].
    fold r in He, Hc. split; [done|]. split; [done|].
    destruct (merge_into_empty_reference options x l Hl) as [Hu Hs].
    destruct (erase_reference r) as [l' Hl']; [by rewrite He..|].
    exists l'. split; [done|].
    pose proof (locations_reference _ r l' Hc Hl') as Hge.
    pose proof (locations_reference _ x l Hx Hl) as Hlt.
    simpl in Hge, Hlt. lia.
Qed.

(** C6, on a mapping that owns the key [__proto__]. For
    [x = JSON.parse('{"__proto__": 5}')] the call [mergeAll([x])] returns
    the empty mapping: the loop of [_mergeObjects] assigns
    [result["__proto__"] = 5] to a result that does not own the key, which
    runs the setter of [Object.prototype] and creates no property. The
    result is not the deep clone of [x], which owns the key, and does not
    deep-equal [x]. *)
Theorem mergeAll_proto_key (options : MergeOptions) :
  let x := VObj None [("__proto__", VNum 5)] in
  mergeAll [x] options = VObj None []
  /\ cloneDeep x = x
  /\ isEqual (mergeAll [x] options) x = false.
Proof. done. Qed.

(** ** Diff and merge of flat mappings *)

(** For flat mappings [a] and [b] (all values scalars) such that every key
    of [a] is a key of [b] and no key is [__proto__], merging [diff(a, b)]
    into [a] gives a mapping that deep-equals [b], whatever the options. *)
Lemma merge_diff_flat ma fa mb fb dopts mopts :
  NoDup (keys fa) -> NoDup (keys fb) -> flat fa -> flat fb ->
  (forall k, k ∈ keys fa -> k ∈ keys fb) ->
  "__proto__" ∉ keys fb ->
  isEqual (merge (VObj ma fa) (diff (VObj ma fa) (VObj mb fb) dopts) mopts)
          (VObj mb fb) = true.
Proof.
  intros Hnda Hndb Hfa Hfb Hsub Hproto.
  destruct (isEqual (VObj ma fa) (VObj mb fb)) eqn:Heq.
  - rewrite diff_equal, merge_empty by done. by rewrite isEqual_cloneDeep_l.
  - destruct (merge_diff_flat_lookup ma fa mb fb dopts mopts
                Hnda Hndb Hfa Hfb Hsub Hproto Heq) as (fs & -> & Hnd & Hfs).
    rewrite isEqual_obj. apply andb_true_iff. split.
    + apply Nat.eqb_eq, same_keys_length; [done..|].
      intros k. rewrite <- !get_field_is_Some, Hfs.
      destruct (get_field k fb) as [v2|]; [|done].
      destruct (get_field k fa) as [v1|]; [destruct (isEqual v1 v2)|]; naive_solver.
    + apply forallb_forall. intros [k v] Hin%list_elem_of_In. simpl.
      apply (elem_of_get_field k v fs Hnd) in Hin. rewrite Hfs in Hin.
      destruct (get_field k fb) as [v2|] eqn:Hv2; [|done].
      assert (scalar v2 = true) as Hs2 by (by eapply flat_get_field).
      assert (isEqual v2 v2 = true) as Hrefl by (by apply scalar_isEqual).
      destruct (get_field k fa) as [v1|]; [|by injection Hin as <-].
      destruct (isEqual v1 v2) eqn:He; by injection Hin as <-.
Qed.

(** C7, on a mapping that owns the key [__proto__]. For the flat mappings
    [a = {}] and [b = JSON.parse('{"__proto__": 5}')] every key of [a] is a
    key of [b]. [_diffObjects] assigns [diff["__proto__"] = 5] to the
    literal [{}], which runs the setter of [Object.prototype] and creates
    no property: the diff is empty, and merging it into [a] gives the
    empty mapping, which does not deep-equal [b]. *)
Theorem merge_diff_proto_key (dopts : DiffOptions) (mopts : MergeOptions) :
  let a := VObj None [] in
  let b := VObj None [("__proto__", VNum 5)] in
  flat [] /\ flat [("__proto__", VNum 5)]
  /\ diff a b dopts = VObj None []
  /\ merge a (diff a b dopts) mopts = VObj None []
  /\ isEqual (merge a (diff a b dopts) mopts) b = false.
Proof. repeat split; by repeat constructor. Qed.

(** * Further properties of the code *)

(** ** Merge, key by key *)

Lemma set_field_same k v fs : get_field k fs = Some v -> set_field k v fs = fs.
Proof.
  induction fs as [|[k1 w] r IH]; simpl; [done|].
  destruct (String.eqb_spec k1 k) as [->|Hne].
  - by intros [= ->].
  - intros H. by rewrite IH.
Qed.

Lemma _mergeObjects_loop_lookup options fs2 fs1 :
  NoDup (keys fs2) -> "__proto__" ∉ keys fs2 ->
  exists fs,
    _mergeObjects_loop (_mergeValues options) (VObj None fs1) fs2 = VObj None fs
    /\ (forall k, get_field k fs
                  = match get_field k fs2 with
                    | Some v2 =>
                        Some (_mergeValues options
                                (default VUndef (get_field k fs1)) v2)
                    | None => get_field k fs1
                    end)
    /\ (NoDup (keys fs1) -> NoDup (keys fs)).
Proof.
  unfold _mergeObjects_loop. revert fs1.
  induction fs2 as [|[k1 v] r IH]; intros fs1 Hnd Hproto.
  - by exists fs1.
  - change (keys ((k1, v) :: r)) with (k1 :: keys r) in Hnd, Hproto.
    apply NoDup_cons in Hnd as [Hk1 Hnd].
    apply not_elem_of_cons in Hproto as [Hp1 Hproto].
    cbn [fold_left fst snd assign prop].
    destruct (IH (set_field k1
                    (_mergeValues options (default VUndef (get_field k1 fs1)) v)
                    fs1) Hnd Hproto) as (fs & -> & Hf & Hndf).
    exists fs. split; [done|]. split.
    + intros k. rewrite Hf, !get_field_set_field by done. simpl.
      destruct (String.eqb_spec k1 k) as [<-|Hne].
      * apply get_field_None in Hk1 as ->. by destruct (decide (k1 = k1)).
      * destruct (decide (k1 = k)); [done|]. done.
    + intros H1. by apply Hndf, NoDup_keys_set_field.
Qed.

Lemma default_clone (o : option jsval) :
  default VUndef (cloneDeep <$> o) = cloneDeep (default VUndef o).
Proof. by destruct o. Qed.

(** X1. [merge] of two mappings works key by key, when no key of the
    second mapping is the name of a member of [Object.prototype]. For a
    key [k] that is no such name either: the result owns [k] when either
    mapping does (a key that the second mapping holds with the value
    [undefined] stays a key); a key of the second mapping has the merge of
    the two values, a key of the first mapping only has a clone of its
    value. *)
Theorem merge_key_by_key options m1 fs1 m2 fs2 k :
  NoDup (keys fs2) ->
  Forall (fun k2 => inherited k2 = false) (keys fs2) ->
  inherited k = false ->
  hasOwnProperty (merge (VObj m1 fs1) (VObj m2 fs2) options) k
  = hasOwnProperty (VObj m1 fs1) k || hasOwnProperty (VObj m2 fs2) k
  /\ prop k (merge (VObj m1 fs1) (VObj m2 fs2) options)
     = match get_field k fs2 with
       | Some val2 => merge (prop k (VObj m1 fs1)) val2 options
       | None => cloneDeep (prop k (VObj m1 fs1))
       end.
Proof.
  intros Hnd Hkeys%not_inherited_keys _. unfold merge.
  change (cloneDeep (VObj m1 fs1))
    with (VObj None (map (fun kv => (fst kv, cloneDeep (snd kv))) fs1)).
  cbn [_mergeValues].
  change (cloneDeep (VObj None (map (fun kv => (fst kv, cloneDeep (snd kv))) fs1)))
    with (VObj None (map (fun kv => (fst kv, cloneDeep (snd kv)))
                         (map (fun kv => (fst kv, cloneDeep (snd kv))) fs1))).
  destruct (_mergeObjects_loop_lookup options fs2
              (map (fun kv => (fst kv, cloneDeep (snd kv)))
                   (map (fun kv => (fst kv, cloneDeep (snd kv))) fs1)) Hnd
              Hkeys)
    as (fs & -> & Hf & _).
  unfold hasOwnProperty, prop. rewrite Hf, !get_field_clone.
  split.
  - destruct (get_field k fs2) as [v2|], (get_field k fs1) as [v1|]; simpl;
      try done.
  - destruct (get_field k fs2) as [v2|]; simpl.
    + f_equal. destruct (get_field k fs1); simpl; [|done].
      by rewrite cloneDeep_idemp.
    + destruct (get_field k fs1); simpl; [|done]. by rewrite cloneDeep_idemp.
Qed.

Lemma merge_key_by_key_witness :
  prop "b" (merge (VObj None [("a", VNum 1); ("b", VObj None [("c", VNum 2)])])
                  (VObj None [("b", VObj None [("d", VNum 3)]); ("e", VUndef)])
                  noMergeOptions)
  = VObj None [("c", VNum 2); ("d", VNum 3)]
  /\ hasOwnProperty
       (merge (VObj None [("a", VNum 1); ("b", VObj None [("c", VNum 2)])])
              (VObj None [("b", VObj None [("d", VNum 3)]); ("e", VUndef)])
              noMergeOptions) "e" = true.
Proof.
  pose proof (merge_key_by_key noMergeOptions None
                [("a", VNum 1); ("b", VObj None [("c", VNum 2)])] None
                [("b", VObj None [("d", VNum 3)]); ("e", VUndef)]) as H.
  split.
  - destruct (H "b") as [_ ->];
      [by apply (bool_decide_unpack (NoDup _))
      |by repeat (apply Forall_cons_2; [reflexivity|])
      |reflexivity|].
    reflexivity.
  - destruct (H "e") as [-> _];
      [by apply (bool_decide_unpack (NoDup _))
      |by repeat (apply Forall_cons_2; [reflexivity|])
      |reflexivity|].
    reflexivity.
Defined.

(** ** Merging a value into itself *)

Lemma merge_self_values options :
  arrayStrategy options <> Some concat ->
  forall a, wf a -> _mergeValues options (cloneDeep a) a = cloneDeep a.
Proof.
  intros Hopt a. induction a as [| | | | |xs IH|m fs IH] using jsval_ind;
    intros Hwf; try reflexivity.
  - cbn [cloneDeep _mergeValues]. unfold _mergeArrays.
    destruct (arrayStrategy options) as [[]|]; simpl; try done.
  - apply wf_obj in Hwf as [Hnd Hwf].
    change (cloneDeep (VObj m fs))
      with (VObj None (map (fun kv => (fst kv, cloneDeep (snd kv))) fs)).
    cbn [_mergeValues].
    change (cloneDeep (VObj None (map (fun kv => (fst kv, cloneDeep (snd kv))) fs)))
      with (VObj None (map (fun kv => (fst kv, cloneDeep (snd kv)))
                           (map (fun kv => (fst kv, cloneDeep (snd kv))) fs))).
    assert (map (fun kv => (fst kv, cloneDeep (snd kv)))
                (map (fun kv => (fst kv, cloneDeep (snd kv))) fs)
            = map (fun kv => (fst kv, cloneDeep (snd kv))) fs) as ->.
    { rewrite map_map. apply map_ext. intros [k v]. simpl.
      by rewrite cloneDeep_idemp. }
    set (cfs := map (fun kv => (fst kv, cloneDeep (snd kv))) fs).
    assert (forall l, (forall kv, kv ∈ l -> kv ∈ fs) ->
              _mergeObjects_loop (_mergeValues options) (VObj None cfs) l
              = VObj None cfs) as Hloop.
    { unfold _mergeObjects_loop.
      induction l as [|[k v] r IHl]; intros Hsub; [done|].
      cbn [fold_left fst snd prop assign].
      assert ((k, v) ∈ fs) as Hin by (apply Hsub; left).
      assert (get_field k cfs = Some (cloneDeep v)) as Hget.
      { unfold cfs. rewrite get_field_clone.
        by rewrite (elem_of_get_field k v fs Hnd Hin). }
      rewrite Hget. simpl.
      rewrite Forall_forall in IH, Hwf.
      pose proof (IH (k, v) Hin (Hwf (k, v) Hin)) as Hv. simpl in Hv.
      rewrite Hv.
      rewrite (set_field_same k (cloneDeep v) cfs Hget).
      apply IHl. intros kv Hkv. apply Hsub. by right. }
    by apply Hloop.
Qed.

(** X2. Merging a value into itself gives a clone of it, unless sequences
    are concatenated; with [concat] a sequence comes out doubled. *)
Theorem merge_idempotent options a :
  wf a ->
  (arrayStrategy options <> Some concat -> merge a a options = cloneDeep a)
  /\ (arrayStrategy options = Some concat ->
      forall xs, a = VArr xs ->
        merge a a options = VArr (map cloneDeep xs ++ map cloneDeep xs)).
Proof.
  intros Hwf. split.
  - intros Hopt. unfold merge. by apply merge_self_values.
  - intros Hopt xs ->. unfold merge. cbn [cloneDeep _mergeValues].
    unfold _mergeArrays. by rewrite Hopt.
Qed.

Lemma merge_idempotent_witness :
  merge (VObj None [("a", VArr [VNum 1]); ("b", VObj None [("c", VNum 2)])])
        (VObj None [("a", VArr [VNum 1]); ("b", VObj None [("c", VNum 2)])])
        noMergeOptions
  = VObj None [("a", VArr [VNum 1]); ("b", VObj None [("c", VNum 2)])].
Proof.
  refine (proj1 (merge_idempotent noMergeOptions
                   (VObj None [("a", VArr [VNum 1]);
                               ("b", VObj None [("c", VNum 2)])]) _) _).
  - simpl. repeat split; by apply (bool_decide_unpack (NoDup _)).
  - done.
Defined.

(** ** Deep equality of mappings, key by key *)

Lemma forallb_fields (f : string * jsval -> bool) fs :
  forallb f fs = true <-> forall kv, kv ∈ fs -> f kv = true.
Proof.
  induction fs as [|kv r IH]; simpl.
  - split; [|done]. intros _ kv H. by apply elem_of_nil in H.
  - rewrite andb_true_iff, IH. split.
    + intros [H1 H2] kv' [->|H]%elem_of_cons; auto.
    + intros H. split; [apply H; left|intros kv' H'; apply H; by right].
Qed.

Lemma isEqual_obj_pointwise m fs m' gs :
  NoDup (keys fs) -> NoDup (keys gs) ->
  isEqual (VObj m fs) (VObj m' gs) = true
  <-> forall k, match get_field k fs, get_field k gs with
                | Some v, Some w => isEqual v w = true
                | None, None => True
                | _, _ => False
                end.
Proof.
  intros Hfs Hgs. rewrite isEqual_obj, andb_true_iff, Nat.eqb_eq, forallb_fields.
  split.
  - intros [Hlen Hall].
    assert (forall k v, get_field k fs = Some v ->
              exists w, get_field k gs = Some w /\ isEqual v w = true) as Hsub.
    { intros k v Hk%get_field_elem_of. specialize (Hall _ Hk). simpl in Hall.
      destruct (get_field k gs) as [w|]; [by exists w | done]. }
    assert (keys fs ≡ₚ keys gs) as Hperm.
    { apply submseteq_length_Permutation.
      - apply NoDup_submseteq; [done|]. intros k Hk.
        apply get_field_is_Some in Hk as [v Hv].
        destruct (Hsub k v Hv) as (w & Hw & _).
        apply get_field_is_Some. by eexists.
      - unfold keys. rewrite !length_fmap. lia. }
    intros k. destruct (get_field k fs) as [v|] eqn:Hv.
    + destruct (Hsub k v Hv) as (w & -> & Hw). done.
    + destruct (get_field k gs) as [w|] eqn:Hw; [|done].
      apply get_field_None in Hv. apply Hv. rewrite Hperm.
      apply get_field_is_Some. by eexists.
  - intros Hpt. split.
    + apply same_keys_length; [done..|]. intros k. specialize (Hpt k).
      rewrite <- !get_field_is_Some.
      destruct (get_field k fs), (get_field k gs); try done;
        split; intros [? ?]; done || by eexists.
    + intros [k v] Hin. simpl. specialize (Hpt k).
      rewrite (elem_of_get_field k v fs Hfs Hin) in Hpt.
      by destruct (get_field k gs).
Qed.

(** ** The diff of two mappings, key by key *)

Lemma _diffValues_equal options val1 val2 :
  isEqual val1 val2 = true -> _diffValues options val1 val2 = VUndef.
Proof. intros H. destruct val1; simpl; simpl in H; by rewrite H. Qed.

Lemma _diffObjects_both_entry options key val1 val2 diff :
  _diffObjects_both key val1 val2 (_diffValues options val1 val2) diff
  = if isEqual val1 val2 then diff
    else set_field key (diff_entry options val1 val2) diff.
Proof.
  unfold _diffObjects_both, diff_entry.
  destruct (isEqual val1 val2) eqn:Heq.
  - by rewrite _diffValues_equal.
  - cbn zeta. rewrite Bool.orb_true_r. simpl. rewrite Bool.andb_true_r.
    destruct (isObject _ && negb (isArray _) && _); [done|].
    by destruct (negb (is_undefined _)).
Qed.

Lemma diff_entry_leaf options val1 val2 :
  isEqual val1 val2 = false ->
  is_leaf val1 || is_leaf val2 = true ->
  diff_entry options val1 val2 = cloneDeep val2.
Proof.
  intros Heq Hleaf. unfold diff_entry. cbn zeta.
  assert (_diffValues options val1 val2 = cloneDeep val2) as ->.
  { destruct val1, val2; try done; simpl; simpl in Heq; rewrite ?Heq; try done.
    unfold _diffArrays. rewrite isEqual_arr.
    destruct (default diff_replace (diffArrayStrategy options));
      by rewrite Heq. }
  destruct (isObject _ && negb (isArray _) && _); [done|].
  by destruct (negb (is_undefined _)) eqn:Hu; [|destruct (cloneDeep val2)].
Qed.

Section diff_loops.
Variables (options : DiffOptions) (fa fb : fieldlist).

Lemma diff_own_lookup fs acc :
  NoDup (keys fs) -> "__proto__" ∉ keys fs ->
  let diff :=
    fold_left
      (fun diff kv =>
         match get_field (fst kv) fb with
         | None => set_field (fst kv) VUndef diff
         | Some val2 =>
             _diffObjects_both (fst kv) (snd kv) val2
                               (_diffValues options (snd kv) val2) diff
         end) fs acc in
  forall k,
    get_field k diff
    = match get_field k fs with
      | Some v1 =>
          match get_field k fb with
          | None => Some VUndef
          | Some v2 => if isEqual v1 v2 then get_field k acc
                       else Some (diff_entry options v1 v2)
          end
      | None => get_field k acc
      end.
Proof.
  revert acc. induction fs as [|[k1 v1] r IH]; intros acc Hnd Hproto; [done|].
  change (keys ((k1, v1) :: r)) with (k1 :: keys r) in Hnd, Hproto.
  apply NoDup_cons in Hnd as [Hk1 Hnd].
  apply not_elem_of_cons in Hproto as [Hp1 Hproto].
  cbn [fold_left fst snd].
  set (acc1 := match get_field k1 fb with None => _ | Some _ => _ end).
  pose proof (IH acc1 Hnd Hproto) as IHf. cbn zeta in IHf.
  assert (forall k, get_field k acc1
                    = if decide (k1 = k)
                      then match get_field k1 fb with
                           | None => Some VUndef
                           | Some v2 => if isEqual v1 v2 then get_field k acc
                                        else Some (diff_entry options v1 v2)
                           end
                      else get_field k acc) as Hacc1.
  { intros k. unfold acc1. destruct (get_field k1 fb) as [v2|] eqn:Hv2.
    - rewrite _diffObjects_both_entry.
      destruct (isEqual v1 v2); [by destruct (decide (k1 = k)) as [->|]|].
      by apply get_field_set_field.
    - by apply get_field_set_field. }
  intros k. rewrite IHf, Hacc1. simpl.
  destruct (String.eqb_spec k1 k) as [<-|Hne].
  - apply get_field_None in Hk1 as ->. by destruct (decide (k1 = k1)).
  - destruct (decide (k1 = k)); [done|].
    destruct (get_field k r); [|done]. by destruct (get_field k fb).
Qed.

Lemma diff_added_lookup fs acc :
  NoDup (keys fs) -> "__proto__" ∉ keys fs ->
  forall k,
    get_field k (_diffObjects_added fa fs acc)
    = match get_field k fs with
      | Some v2 =>
          match get_field k fa with
          | None => Some (cloneDeep v2)
          | Some _ => get_field k acc
          end
      | None => get_field k acc
      end.
Proof.
  unfold _diffObjects_added. revert acc.
  induction fs as [|[k1 v2] r IH]; intros acc Hnd Hproto; [done|].
  change (keys ((k1, v2) :: r)) with (k1 :: keys r) in Hnd, Hproto.
  apply NoDup_cons in Hnd as [Hk1 Hnd].
  apply not_elem_of_cons in Hproto as [Hp1 Hproto].
  cbn [fold_left fst snd].
  set (acc1 := match get_field k1 fa with None => _ | Some _ => _ end).
  pose proof (IH acc1 Hnd Hproto) as IHf.
  assert (forall k, get_field k acc1
                    = if decide (k1 = k)
                      then match get_field k1 fa with
                           | None => Some (cloneDeep v2)
                           | Some _ => get_field k acc
                           end
                      else get_field k acc) as Hacc1.
  { intros k. unfold acc1. destruct (get_field k1 fa) as [v1|] eqn:Hv1.
    - by destruct (decide (k1 = k)) as [->|].
    - by apply get_field_set_field. }
  intros k. rewrite IHf, Hacc1. simpl.
  destruct (String.eqb_spec k1 k) as [<-|Hne].
  - apply get_field_None in Hk1 as ->. by destruct (decide (k1 = k1)).
  - destruct (decide (k1 = k)); [done|].
    destruct (get_field k r); [|done]. by destruct (get_field k fa).
Qed.

Hypothesis Hnda : NoDup (keys fa).
Hypothesis Hndb : NoDup (keys fb).
Hypothesis Hpa : "__proto__" ∉ keys fa.
Hypothesis Hpb : "__proto__" ∉ keys fb.

Lemma diff_loop_lookup k :
  get_field k (_diffObjects_loop (_diffValues options) fa fb)
  = match get_field k fa, get_field k fb with
    | Some v1, Some v2 =>
        if isEqual v1 v2 then None else Some (diff_entry options v1 v2)
    | Some v1, None => Some VUndef
    | None, Some v2 => Some (cloneDeep v2)
    | None, None => None
    end.
Proof.
  unfold _diffObjects_loop. cbn zeta.
  pose proof (diff_own_lookup fa [] Hnda Hpa) as Hown. cbn zeta in Hown.
  set (own := fold_left _ fa []) in *.
  rewrite (diff_added_lookup fb own Hndb Hpb), Hown. simpl.
  destruct (get_field k fb) as [v2|] eqn:Hv2;
    destruct (get_field k fa) as [v1|] eqn:Hv1; try done.
Qed.

Lemma diff_loop_nonempty m m' :
  isEqual (VObj m fa) (VObj m' fb) = false ->
  Nat.ltb 0 (length (keys (_diffObjects_loop (_diffValues options) fa fb)))
  = true.
Proof.
  intros Hneq. apply Nat.ltb_lt.
  destruct (_diffObjects_loop (_diffValues options) fa fb) as [|kv r] eqn:Hd;
    [|simpl; lia].
  exfalso. apply Bool.not_true_iff_false in Hneq. apply Hneq.
  apply isEqual_obj_pointwise; [done..|]. intros k.
  pose proof (diff_loop_lookup k) as Hk. rewrite Hd in Hk. simpl in Hk.
  destruct (get_field k fa) as [v1|], (get_field k fb) as [v2|]; try done.
  by destruct (isEqual v1 v2).
Qed.
End diff_loops.

Lemma diff_entry_obj options m1 fs1 m2 fs2 :
  NoDup (keys fs1) -> NoDup (keys fs2) ->
  "__proto__" ∉ keys fs1 -> "__proto__" ∉ keys fs2 ->
  isEqual (VObj m1 fs1) (VObj m2 fs2) = false ->
  diff_entry options (VObj m1 fs1) (VObj m2 fs2)
  = diff (VObj m1 fs1) (VObj m2 fs2) options
  /\ exists gs, diff (VObj m1 fs1) (VObj m2 fs2) options = VObj None gs
                /\ gs <> [].
Proof.
  intros H1 H2 Hp1 Hp2 Hneq. unfold diff_entry, diff. cbn zeta.
  rewrite _diffValues_obj, Hneq. cbn zeta.
  rewrite (diff_loop_nonempty options fs1 fs2 H1 H2 Hp1 Hp2 m1 m2 Hneq).
  pose proof (diff_loop_nonempty options fs1 fs2 H1 H2 Hp1 Hp2 m1 m2 Hneq)
    as Hlt.
  apply Nat.ltb_lt in Hlt.
  destruct (_diffObjects_loop (_diffValues options) fs1 fs2) as [|kv r] eqn:Hd;
    [simpl in Hlt; lia|].
  simpl. split; [done|]. by eexists.
Qed.

(** X3. The diff of two mappings, key by key, when no key of the two
    mappings is the name of a member of [Object.prototype], for a key [k]
    that is no such name either. The key is in the diff when one mapping
    only owns it, or when both own it with values that are not deep-equal.
    A key of the first mapping only has the value [undefined], a key of
    the second only has a clone of its value; a key of both has a clone of
    the second value, unless the two values are mappings: for mappings
    without the key [__proto__] it has their diff, which is then not
    empty. *)
Theorem diff_key_by_key options m1 fs1 m2 fs2 k :
  NoDup (keys fs1) -> NoDup (keys fs2) ->
  Forall (fun k1 => inherited k1 = false) (keys fs1) ->
  Forall (fun k2 => inherited k2 = false) (keys fs2) ->
  inherited k = false ->
  let d := diff (VObj m1 fs1) (VObj m2 fs2) options in
  (hasOwnProperty d k = true
   <-> match get_field k fs1, get_field k fs2 with
       | Some val1, Some val2 => isEqual val1 val2 = false
       | None, None => False
       | _, _ => True
       end)
  /\ (get_field k fs2 = None -> prop k d = VUndef)
  /\ (forall val2,
        get_field k fs1 = None -> get_field k fs2 = Some val2 ->
        prop k d = cloneDeep val2)
  /\ (forall val1 val2,
        get_field k fs1 = Some val1 -> get_field k fs2 = Some val2 ->
        isEqual val1 val2 = false ->
        is_leaf val1 || is_leaf val2 = true ->
        prop k d = cloneDeep val2)
  /\ (forall val1 val2,
        get_field k fs1 = Some val1 -> get_field k fs2 = Some val2 ->
        isEqual val1 val2 = false ->
        is_leaf val1 = false -> is_leaf val2 = false ->
        wf val1 -> wf val2 ->
        "__proto__" ∉ Object_keys val1 -> "__proto__" ∉ Object_keys val2 ->
        prop k d = diff val1 val2 options
        /\ exists gs, prop k d = VObj None gs /\ gs <> []).
Proof.
  intros Hnd1 Hnd2 Hp1%not_inherited_keys Hp2%not_inherited_keys _ d.
  destruct (isEqual (VObj m1 fs1) (VObj m2 fs2)) eqn:Heq.
  - assert (d = VObj None []) as Hd by (by apply diff_equal).
    pose proof (proj1 (isEqual_obj_pointwise m1 fs1 m2 fs2 Hnd1 Hnd2) Heq k)
      as Hk.
    rewrite Hd. cbn [hasOwnProperty prop get_field].
    split; [|split; [|split; [|split]]].
    + destruct (get_field k fs1), (get_field k fs2); try done.
      rewrite Hk. split; [|done]. by intros ?%bool_decide_eq_true_1%is_Some_None.
    + done.
    + intros val2 H1 H2. by rewrite H1, H2 in Hk.
    + intros val1 val2 H1 H2 Hne. rewrite H1, H2 in Hk. congruence.
    + intros val1 val2 H1 H2 Hne. rewrite H1, H2 in Hk. congruence.
  - assert (d = VObj None (_diffObjects_loop (_diffValues options) fs1 fs2))
      as Hd by (by apply diff_obj).
    rewrite Hd. cbn [hasOwnProperty prop].
    rewrite (diff_loop_lookup options fs1 fs2 Hnd1 Hnd2 Hp1 Hp2 k).
    split; [|split; [|split; [|split]]].
    + rewrite bool_decide_eq_true.
      destruct (get_field k fs1) as [v1|], (get_field k fs2) as [v2|].
      * destruct (isEqual v1 v2); split; try done; try by eexists.
      * split; [done | by eexists].
      * split; [done | by eexists].
      * split; [by intros ?%is_Some_None | done].
    + intros ->. by destruct (get_field k fs1).
    + by intros val2 -> ->.
    + intros val1 val2 -> -> Hne Hleaf. rewrite Hne. simpl.
      by apply diff_entry_leaf.
    + intros val1 val2 -> -> Hne Hl1 Hl2 Hw1 Hw2 Hq1 Hq2. rewrite Hne. simpl.
      destruct val1 as [| | | | | |n1 g1]; try done.
      destruct val2 as [| | | | | |n2 g2]; try done.
      apply wf_obj in Hw1 as [Hw1 _]. apply wf_obj in Hw2 as [Hw2 _].
      destruct (diff_entry_obj options n1 g1 n2 g2 Hw1 Hw2 Hq1 Hq2 Hne)
        as [-> Hex].
      done.
Qed.

Lemma diff_key_by_key_witness :
  prop "b" (diff (VObj None [("a", VNum 1); ("b", VObj None [("c", VNum 2)])])
                 (VObj None [("b", VObj None [("c", VNum 3)]); ("e", VNum 4)])
                 noDiffOptions)
  = VObj None [("c", VNum 3)]
  /\ hasOwnProperty
       (diff (VObj None [("a", VNum 1); ("b", VObj None [("c", VNum 2)])])
             (VObj None [("b", VObj None [("c", VNum 3)]); ("e", VNum 4)])
             noDiffOptions) "a" = true.
Proof.
  pose proof (diff_key_by_key noDiffOptions None
                [("a", VNum 1); ("b", VObj None [("c", VNum 2)])] None
                [("b", VObj None [("c", VNum 3)]); ("e", VNum 4)]) as H.
  assert (NoDup (keys [("a", VNum 1); ("b", VObj None [("c", VNum 2)])]))
    as H1 by (by apply (bool_decide_unpack (NoDup _))).
  assert (NoDup (keys [("b", VObj None [("c", VNum 3)]); ("e", VNum 4)]))
    as H2 by (by apply (bool_decide_unpack (NoDup _))).
  assert (Forall (fun k1 => inherited k1 = false)
                 (keys [("a", VNum 1); ("b", VObj None [("c", VNum 2)])]))
    as H3 by (by repeat (apply Forall_cons_2; [reflexivity|])).
  assert (Forall (fun k2 => inherited k2 = false)
                 (keys [("b", VObj None [("c", VNum 3)]); ("e", VNum 4)]))
    as H4 by (by repeat (apply Forall_cons_2; [reflexivity|])).
  split.
  - destruct (H "b" H1 H2 H3 H4 eq_refl) as (_ & _ & _ & _ & Hb).
    destruct (Hb (VObj None [("c", VNum 2)]) (VObj None [("c", VNum 3)]))
      as [-> _]; try done.
    + simpl. split; [by apply (bool_decide_unpack (NoDup _)) | done].
    + simpl. split; [by apply (bool_decide_unpack (NoDup _)) | done].
    + by apply (bool_decide_unpack _).
    + by apply (bool_decide_unpack _).
  - destruct (H "a" H1 H2 H3 H4 eq_refl) as (Ha & _). by apply Ha.
Defined.

(** ** The options of [diff] *)

Lemma _diffArrays_options o1 o2 arr1 arr2 :
  _diffArrays arr1 arr2 o1 = _diffArrays arr1 arr2 o2.
Proof.
  unfold _diffArrays.
  by destruct (default diff_replace (diffArrayStrategy o1)),
              (default diff_replace (diffArrayStrategy o2)).
Qed.

Lemma _diffObjects_loop_ext (f g : jsval -> jsval -> jsval) fs1 fs2 :
  Forall (fun kv => forall w, f (snd kv) w = g (snd kv) w) fs1 ->
  _diffObjects_loop f fs1 fs2 = _diffObjects_loop g fs1 fs2.
Proof.
  intros Hext. unfold _diffObjects_loop. cbn zeta. f_equal.
  generalize (@nil (string * jsval)).
  induction Hext as [|[k v] r Hv _ IH]; intros acc; [done|].
  cbn [fold_left fst snd]. simpl in Hv.
  destruct (get_field k fs2) as [w|]; [|apply IH].
  rewrite Hv. apply IH.
Qed.

Lemma _diffValues_options o1 o2 val1 :
  forall val2, _diffValues o1 val1 val2 = _diffValues o2 val1 val2.
Proof.
  induction val1 as [| | | | |xs IH|m fs IH] using jsval_ind; intros val2;
    try reflexivity.
  - cbn [_diffValues]. destruct (isEqual _ _); [done|].
    destruct val2; try done. apply _diffArrays_options.
  - cbn [_diffValues]. destruct (isEqual _ _); [done|].
    destruct val2 as [| | | | | |m2 fs2]; try done.
    cbn zeta. by rewrite (_diffObjects_loop_ext _ (_diffValues o2) fs fs2 IH).
Qed.

(** X4. The options have no effect on a diff: the two strategies for
    sequences do the same, so [diff] and [diffAll] give the same result
    whatever the options. *)
Theorem diff_ignores_options (o1 o2 : DiffOptions) :
  (forall obj1 obj2, diff obj1 obj2 o1 = diff obj1 obj2 o2)
  /\ (forall objects, diffAll objects o1 = diffAll objects o2).
Proof.
  assert (forall obj1 obj2, diff obj1 obj2 o1 = diff obj1 obj2 o2) as Hdiff.
  { intros obj1 obj2. unfold diff. by rewrite (_diffValues_options o1 o2). }
  split; [done|].
  intros objects. unfold diffAll. destruct (Nat.ltb _ 2); [done|].
  by rewrite Hdiff.
Qed.

(** ** Edge cases of [diff] *)

(** X5. [diff] never returns [undefined] or [null]: the diff with a second
    value that is [undefined] or [null] is the empty mapping, as is the
    diff of two values that are deep-equal; a value and itself, a value
    and its clone. *)
Theorem diff_edge_cases options :
  (forall obj1 obj2,
     is_undefined (diff obj1 obj2 options) = false
     /\ is_null (diff obj1 obj2 options) = false)
  /\ (forall obj1,
        diff obj1 VUndef options = VObj None []
        /\ diff obj1 VNull options = VObj None [])
  /\ (forall obj1, wf obj1 ->
        diff obj1 obj1 options = VObj None []
        /\ diff (cloneDeep obj1) obj1 options = VObj None []).
Proof.
  split; [|split].
  - intros obj1 obj2. unfold diff, nullish_or.
    by destruct (_diffValues options obj1 obj2).
  - intros obj1. unfold diff.
    split; destruct obj1; simpl; try done;
      by destruct (_ : bool).
  - intros obj1 Hwf. split; apply diff_equal.
    + by apply isEqual_refl.
    + by apply isEqual_cloneDeep.
Qed.

Lemma diff_edge_cases_witness :
  diff (VObj None [("a", VNum 1)]) (VObj None [("a", VNum 1)]) noDiffOptions
  = VObj None [].
Proof.
  refine (proj1 (proj2 (proj2 (diff_edge_cases noDiffOptions))
                   (VObj None [("a", VNum 1)]) _)).
  simpl. split; [by apply (bool_decide_unpack (NoDup _)) | done].
Defined.

(** ** The merged value of the merge with metadata *)

(** X6. The merge with metadata computes the merge: when no source holds
    [undefined] (as its data, or as the value of an attribute met through
    mappings) and no key met through mappings is the name of a member of
    [Object.prototype], the merged value of [mergeAllWithMetadata], without
    its hidden properties, is the result of [mergeAll] on the data of the
    sources. *)
Theorem mergedObject_is_mergeAll sources options :
  Forall (fun s => wf (SourceObject.data s)
                   /\ defined (SourceObject.data s) = true
                   /\ ownkeys (SourceObject.data s) = true) sources ->
  cloneDeep (mergedObject (mergeAllWithMetadata sources options))
  = mergeAll (map SourceObject.data sources) options.
Proof.
  intros Hall. rewrite mergeAllWithMetadata_fold.
  rewrite (fold_mergeStep_merge options sources Hall).
  unfold mergeAll. by destruct sources.
Qed.

Lemma mergedObject_is_mergeAll_witness :
  let sources :=
    [SourceObject.make (VStr "1")
       (VObj None [("a", VNum 1); ("b", VObj None [("c", VNum 10)])]);
     SourceObject.make (VStr "2")
       (VObj None [("a", VNum 2); ("b", VObj None [("e", VNum 20)])])] in
  cloneDeep (mergedObject (mergeAllWithMetadata sources noMergeOptions))
  = mergeAll (map SourceObject.data sources) noMergeOptions.
Proof.
  intros sources. apply (mergedObject_is_mergeAll sources noMergeOptions).
  repeat (apply Forall_cons_2;
          [split; [simpl; repeat split;
                   by apply (bool_decide_unpack (NoDup _))
                  | split; reflexivity]|]).
  apply Forall_nil_2.
Defined.

(** ** The metadata map over the passes *)

Lemma write_all_is_Some l md p :
  is_Some (md !! p) -> is_Some (write_all l md !! p).
Proof.
  unfold write_all. revert md.
  induction l as [|r l IH]; intros md Hp; [done|].
  cbn [fold_left]. apply IH.
  destruct (decide (path r = p)) as [->|Hne].
  - rewrite lookup_insert_eq. by eexists.
  - by rewrite lookup_insert_ne.
Qed.

Lemma fold_mergeStep_is_Some options more st p :
  is_Some (metadata st !! p) ->
  is_Some (metadata (fold_left (mergeStep options) more st) !! p).
Proof.
  revert st. induction more as [|s r IH]; intros st Hp; [done|].
  cbn [fold_left]. apply IH. rewrite mergeStep_metadata.
  by apply write_all_is_Some.
Qed.

(** X7. The metadata map only grows: a path that has an entry after some
    sources still has one after any further sources, whatever they do to
    the attribute. *)
Theorem metadata_only_grows sources more options p :
  is_Some (metadata (mergeAllWithMetadata sources options) !! p) ->
  is_Some (metadata (mergeAllWithMetadata (sources ++ more) options) !! p).
Proof.
  rewrite !mergeAllWithMetadata_fold, fold_left_app.
  apply fold_mergeStep_is_Some.
Qed.

Lemma metadata_only_grows_witness :
  is_Some (metadata (mergeAllWithMetadata
                       ([SourceObject.make (VStr "S1") (VObj None [("x", VNum 1)])]
                        ++ [SourceObject.make (VStr "S2")
                              (VObj None [("x", VUndef)])])
                       noMergeOptions) !! "x").
Proof.
  apply (metadata_only_grows
           [SourceObject.make (VStr "S1") (VObj None [("x", VNum 1)])]
           [SourceObject.make (VStr "S2") (VObj None [("x", VUndef)])]
           noMergeOptions "x").
  vm_compute. by eexists.
Defined.

(** ** A source without data *)

Lemma write_all_independent l md1 md2 p :
  md1 !! p = md2 !! p \/ (exists r, r ∈ l /\ path r = p) ->
  write_all l md1 !! p = write_all l md2 !! p.
Proof.
  unfold write_all. revert md1 md2.
  induction l as [|r l IH]; intros md1 md2 H.
  - destruct H as [H|(r & Hr & _)]; [done | by apply elem_of_nil in Hr].
  - cbn [fold_left]. apply IH.
    destruct (decide (path r = p)) as [Heq|Hne].
    + left. by rewrite <- Heq, !lookup_insert_eq.
    + destruct H as [H|(r' & Hr' & Hp)].
      * left. by rewrite !lookup_insert_ne.
      * apply elem_of_cons in Hr' as [->|Hr']; [done|]. right. by exists r'.
Qed.

Lemma write_all_idemp l md : write_all l (write_all l md) = write_all l md.
Proof.
  apply map_eq. intros p.
  destruct (decide (Exists (fun r => path r = p) l)) as [Hex|Hno].
  - apply write_all_independent. right.
    apply Exists_exists in Hex as (r & Hr & Hp). by exists r.
  - apply write_all_lookup_other. intros r Hr Hp. apply Hno.
    apply Exists_exists. by exists r.
Qed.

(** X8. A source whose data is [undefined] changes nothing: the merged
    value and the metadata are those of the sources before it. *)
Theorem undefined_source_changes_nothing sources s options :
  SourceObject.data s = VUndef ->
  mergeAllWithMetadata (sources ++ [s]) options
  = mergeAllWithMetadata sources options.
Proof.
  intros Hs. rewrite mergeAllWithMetadata_snoc.
  assert (forall st,
            mergeStep options st s
            = {| mergedObject := mergedObject st;
                 metadata := write_all (collected (mergedObject st))
                                       (metadata st) |}) as Hstep.
  { intros st. unfold mergeStep. rewrite Hs. cbn [_mergeRecursiveWithMetadata fst].
    by rewrite collectMetadata_collected. }
  rewrite Hstep.
  destruct sources as [|s0 r _] using rev_ind; [done|].
  rewrite mergeAllWithMetadata_snoc.
  set (st := mergeStep options (mergeAllWithMetadata r options) s0).
  assert (metadata st
          = write_all (collected (mergedObject st))
                      (metadata (mergeAllWithMetadata r options))) as Hmd
    by apply mergeStep_metadata.
  rewrite Hmd at 1. rewrite write_all_idemp, <- Hmd. by destruct st.
Qed.

Lemma undefined_source_changes_nothing_witness :
  mergeAllWithMetadata
    ([SourceObject.make (VStr "S1") (VObj None [("x", VNum 1)])]
     ++ [SourceObject.make (VStr "S2") VUndef]) noMergeOptions
  = mergeAllWithMetadata
      [SourceObject.make (VStr "S1") (VObj None [("x", VNum 1)])]
      noMergeOptions.
Proof.
  by apply (undefined_source_changes_nothing
              [SourceObject.make (VStr "S1") (VObj None [("x", VNum 1)])]
              (SourceObject.make (VStr "S2") VUndef) noMergeOptions).
Defined.

(** ** The attributes of the root after a pass *)

(** X9. What the last source does to the attributes of the root, when its
    data is a mapping none of whose keys is the name of a member of
    [Object.prototype], for a key [k] that is no such name either: an
    attribute that the source holds with a value other than [undefined] is
    in the merged value, one that it holds with [undefined] is not, and
    one that it does not hold is there when the merged value before the
    source is a mapping with that attribute, and has a clone of the value
    there. *)
Theorem last_source_attributes previous s options m sfs k :
  SourceObject.data s = VObj m sfs ->
  NoDup (keys sfs) ->
  Forall (fun k' => inherited k' = false) (keys sfs) ->
  inherited k = false ->
  let before := mergedObject (mergeAllWithMetadata previous options) in
  let after := mergedObject (mergeAllWithMetadata (previous ++ [s]) options) in
  hasOwnProperty after k
  = match get_field k sfs with
    | Some sourceValue => negb (is_undefined sourceValue)
    | None => bool_decide (is_Some (lookup_path [k] before))
    end
  /\ (get_field k sfs = None ->
      lookup_path [k] after = cloneDeep <$> lookup_path [k] before).
Proof.
  intros Hs Hnd _ Hk%not_inherited_proto before after.
  assert (exists cm fs,
            after = VObj cm fs
            /\ get_field k fs
               = match get_field k sfs with
                 | Some sv =>
                     if is_undefined sv then None
                     else Some (merged_child options (SourceObject.id s) ""
                                  (init_resultObject before) k sv)
                 | None => cloneDeep <$> lookup_path [k] before
                 end) as (cm & fs & Hafter & Hget).
  { unfold after. rewrite mergeAllWithMetadata_snoc, mergeStep_mergedObject, Hs.
    rewrite mergedValue_obj. cbn zeta. eexists _, _. split; [done|].
    rewrite _mergeRecursive_loop_fields by done.
    by rewrite get_field_init_resultObject. }
  rewrite Hafter, lookup_path_cons. cbn [hasOwnProperty]. rewrite Hget.
  split.
  - destruct (get_field k sfs) as [sv|].
    + by destruct (is_undefined sv).
    + by destruct (lookup_path [k] before).
  - intros ->. by destruct (lookup_path [k] before).
Qed.

Lemma last_source_attributes_witness :
  hasOwnProperty
    (mergedObject
       (mergeAllWithMetadata
          ([SourceObject.make (VStr "S1")
              (VObj None [("x", VNum 1); ("y", VNum 2)])]
           ++ [SourceObject.make (VStr "S2") (VObj None [("x", VUndef)])])
          noMergeOptions)) "x" = false.
Proof.
  refine (proj1 (last_source_attributes
                   [SourceObject.make (VStr "S1")
                      (VObj None [("x", VNum 1); ("y", VNum 2)])]
                   (SourceObject.make (VStr "S2") (VObj None [("x", VUndef)]))
                   noMergeOptions None [("x", VUndef)] "x" _ _ _ _)).
  - reflexivity.
  - by apply (bool_decide_unpack (NoDup _)).
  - by repeat (apply Forall_cons_2; [reflexivity|]).
  - reflexivity.
Defined.

(** ** The records of the hidden properties *)

Lemma elem_of_set_field_inv k v fs (kv : string * jsval) :
  kv ∈ set_field k v fs -> kv = (k, v) \/ kv ∈ fs.
Proof.
  induction fs as [|[k1 w] r IH]; simpl.
  - destruct (String.eqb k "__proto__"); [by intros ?%elem_of_nil|].
    intros ->%list_elem_of_singleton. by left.
  - destruct (String.eqb_spec k1 k) as [->|Hne].
    + intros [->|H]%elem_of_cons; [by left | right; by right].
    + intros [->|H]%elem_of_cons; [right; by left|].
      destruct (IH H) as [->|H']; [by left | right; by right].
Qed.

Lemma elem_of_delete_field_inv k fs (kv : string * jsval) :
  kv ∈ delete_field k fs -> kv ∈ fs.
Proof.
  induction fs as [|[k1 w] r IH]; simpl; [done|].
  destruct (String.eqb k1 k).
  - intros H. right. by apply IH.
  - intros [->|H]%elem_of_cons; [by left | right; by apply IH].
Qed.

Lemma truthy_parentKey p :
  truthy_string (parentKey p) = true -> truthy_string p = true.
Proof. by destruct p. Qed.

Section stored_records.
Variables (options : MergeOptions) (sourceId : jsval).
Variable Q : PathMetadata -> Prop.
Hypothesis Qclone : forall r, Q r -> Q (cloneDeepMeta r).
Hypothesis Qnew :
  forall p v, truthy_string p = true ->
              Q (mkPathMetadata sourceId p (cloneDeep v)).

Lemma record_in_parent_records p v pm :
  map_Forall (fun _ r => Q r) pm ->
  map_Forall (fun _ r => Q r) (record_in_parent sourceId p v pm).
Proof.
  intros Hpm. unfold record_in_parent.
  destruct (truthy_string (parentKey p)) eqn:Hp; [|done].
  apply map_Forall_insert_2; [|done].
  apply Qnew. by apply truthy_parentKey.
Qed.

Lemma seed_records target :
  Forall Q (collected target) ->
  map_Forall (fun _ r => Q r) (seed_childMetadataMap target).
Proof.
  intros Htarget k r. rewrite seed_childMetadataMap_lookup.
  destruct (decide _) as [[x Hx]|]; [|done].
  destruct (getMetadata target k) as [r0|] eqn:Hr0; [|done].
  intros [= <-]. apply Qclone.
  rewrite Forall_forall in Htarget. apply Htarget.
  destruct target as [| | | | | |m fs]; try done.
  apply elem_of_collected_obj. simpl in Hx.
  destruct (get_field k fs) as [y|] eqn:Hy; [|done].
  exists k, y. split; [by apply get_field_elem_of | by left].
Qed.

Lemma init_records target kv :
  kv ∈ init_resultObject target -> Forall Q (collected (snd kv)).
Proof.
  unfold init_resultObject. intros Hkv.
  pose proof (plain_cloneDeep target) as Hplain.
  destruct (cloneDeep target) as [| | | | | |m fs];
    try (by apply elem_of_nil in Hkv).
  apply plain_obj in Hplain as [_ Hplain]. rewrite Forall_forall in Hplain.
  by rewrite (collected_plain _ (Hplain kv Hkv)).
Qed.

Lemma loop_records
    (rec : jsval -> jsval -> string -> MetadataMap -> jsval * MetadataMap)
    currentPath sfs :
  Forall (fun kv =>
            forall target p pm,
              Forall Q (collected target) ->
              map_Forall (fun _ r => Q r) pm ->
              Forall Q (collected (fst (rec target (snd kv) p pm)))
              /\ map_Forall (fun _ r => Q r) (snd (rec target (snd kv) p pm)))
         sfs ->
  forall f c,
    (forall kv, kv ∈ f -> Forall Q (collected (snd kv))) ->
    map_Forall (fun _ r => Q r) c ->
    let st := _mergeRecursive_loop rec currentPath sfs (f, c) in
    (forall kv, kv ∈ fst st -> Forall Q (collected (snd kv)))
    /\ map_Forall (fun _ r => Q r) (snd st).
Proof.
  unfold _mergeRecursive_loop.
  induction 1 as [|[k sv] r Hsv _ IH]; intros f c Hf Hc; [done|].
  cbn [fold_left fst snd]. simpl in Hsv.
  destruct (is_undefined sv).
  - apply IH.
    + intros kv Hkv%elem_of_delete_field_inv. by apply Hf.
    + by apply map_Forall_delete.
  - set (tv := default VUndef (get_field k f)).
    assert (Forall Q (collected tv)) as Htv.
    { unfold tv. destruct (get_field k f) as [x|] eqn:Hx; [|by constructor].
      apply (Hf (k, x)). by apply get_field_elem_of. }
    destruct (Hsv tv (propertyPath currentPath k) c Htv Hc) as [H1 H2].
    destruct (rec tv sv (propertyPath currentPath k) c) as [x c'].
    apply IH; [|done].
    intros kv [->|Hkv]%elem_of_set_field_inv; [done | by apply Hf].
Qed.

Lemma merge_records source :
  forall target p pm,
    Forall Q (collected target) ->
    map_Forall (fun _ r => Q r) pm ->
    Forall Q (collected
                (fst (_mergeRecursiveWithMetadata options sourceId target
                        source p pm)))
    /\ map_Forall (fun _ r => Q r)
         (snd (_mergeRecursiveWithMetadata options sourceId target source
                 p pm)).
Proof.
  induction source as [| | | | |xs IH|m sfs IH] using jsval_ind;
    intros target p pm Htarget Hpm;
    try (split; [by constructor | by apply record_in_parent_records]).
  - cbn [_mergeRecursiveWithMetadata fst snd]. split; [done|].
    destruct (_ && _); [by apply map_Forall_delete | done].
  - cbn [_mergeRecursiveWithMetadata fst snd].
    split; [|by apply record_in_parent_records].
    assert (collected (VArr (map cloneDeep xs)) = []) as Hclone.
    { apply collected_plain. apply (plain_cloneDeep (VArr xs)). }
    destruct target as [| | | | |tgt|mt tfs];
      try (rewrite Hclone; by constructor).
    destruct (default replace (arrayStrategy options));
      [rewrite Hclone; by constructor|].
    change (collected (VArr (tgt ++ map cloneDeep xs)))
      with (flat_map collected (tgt ++ map cloneDeep xs)).
    rewrite flat_map_app.
    change (flat_map collected (map cloneDeep xs))
      with (collected (VArr (map cloneDeep xs))).
    rewrite Hclone, app_nil_r. done.
  - cbn [_mergeRecursiveWithMetadata fst snd].
    split; [|by apply record_in_parent_records].
    destruct (loop_records (_mergeRecursiveWithMetadata options sourceId) p sfs
                IH (init_resultObject target) (seed_childMetadataMap target)
                (init_records target) (seed_records target Htarget))
      as [Hf Hc].
    set (st := _mergeRecursive_loop _ p sfs _) in *.
    apply Forall_forall. intros r (k & x & Hkx & [Hr|Hr])%elem_of_collected_obj.
    + simpl in Hr. by apply (Hc k).
    + pose proof (Hf (k, x) Hkx) as Hx. rewrite Forall_forall in Hx.
      by apply Hx.
Qed.
End stored_records.

Lemma write_all_records (Q : PathMetadata -> Prop) l md :
  Forall Q l ->
  map_Forall (fun p r => path r = p /\ Q r) md ->
  map_Forall (fun p r => path r = p /\ Q r) (write_all l md).
Proof.
  unfold write_all. intros Hl. revert md.
  induction Hl as [|r l Hr _ IH]; intros md Hmd; [done|].
  cbn [fold_left]. apply IH. by apply map_Forall_insert_2.
Qed.

Lemma fold_mergeStep_records options (sources l : list SourceObject) :
  Forall (fun s => scalar (SourceObject.id s) = true) sources ->
  (forall s, s ∈ l -> s ∈ sources) ->
  let Q := fun r : PathMetadata =>
             path r <> ""
             /\ exists s, s ∈ sources /\ sourceId r = SourceObject.id s in
  forall st,
    Forall Q (collected (mergedObject st)) ->
    map_Forall (fun p r => path r = p /\ Q r) (metadata st) ->
    map_Forall (fun p r => path r = p /\ Q r)
               (metadata (fold_left (mergeStep options) l st)).
Proof.
  intros Hids Hl Q. induction l as [|s l IH]; intros st Hst Hmd; [done|].
  cbn [fold_left].
  assert (s ∈ sources) as Hs by (apply Hl; left).
  assert (Forall Q (collected (mergedObject (mergeStep options st s)))) as Hst'.
  { unfold mergeStep. cbn [mergedObject].
    apply (merge_records options (SourceObject.id s) Q); [..|done|done].
    - intros r (Hp & s' & Hs' & Hr). split; [done|].
      exists s'. split; [done|]. simpl. rewrite Hr.
      rewrite Forall_forall in Hids. by apply scalar_cloneDeep, Hids.
    - intros p v Hp. split; [by destruct p|]. by exists s. }
  apply IH; [by intros s' Hs'; apply Hl; right | done |].
  rewrite mergeStep_metadata. by apply write_all_records.
Qed.

(** X10. Every entry of the returned metadata is filed under its own path,
    which is not empty (the root has no entry), and names the [id] of one
    of the sources. *)
Theorem metadata_entries sources options p m :
  Forall (fun s => scalar (SourceObject.id s) = true) sources ->
  metadata (mergeAllWithMetadata sources options) !! p = Some m ->
  path m = p /\ p <> ""
  /\ exists s, s ∈ sources /\ sourceId m = SourceObject.id s.
Proof.
  intros Hids Hm. rewrite mergeAllWithMetadata_fold in Hm.
  pose proof (fold_mergeStep_records options sources sources Hids
                (fun s H => H)
                {| mergedObject := VObj None []; metadata := ∅ |}) as H.
  cbn zeta in H.
  destruct (H (Forall_nil_2 _) (map_Forall_empty _) p m Hm)
    as (Hp & Hne & Hs).
  split; [done|]. split; [by rewrite <- Hp | done].
Qed.

Lemma metadata_entries_witness :
  exists s,
    s ∈ [SourceObject.make (VStr "S1") (VObj None [("x", VNum 1)]);
         SourceObject.make (VStr "S2") (VObj None [("x", VUndef)])]
    /\ VStr "S1" = SourceObject.id s.
Proof.
  refine (proj2 (proj2
    (metadata_entries
       [SourceObject.make (VStr "S1") (VObj None [("x", VNum 1)]);
        SourceObject.make (VStr "S2") (VObj None [("x", VUndef)])]
       noMergeOptions "x" (mkPathMetadata (VStr "S1") "x" (VNum 1)) _ _))).
  - by repeat constructor.
  - by vm_compute.
Defined.

(** ** The last writer of an attribute *)

Lemma pathOf_single k : pathOf [k] = k.
Proof. reflexivity. Qed.

Lemma collected_path v r ks :
  wf v -> treeinv [] v ->
  Forall (fun k => goodkey k = true) ks ->
  r ∈ collected v -> path r = pathOf ks -> recorded ks v = Some r.
Proof.
  intros Hwf (Hkeys & Harr & Hstores) Hks Hr Hp.
  destruct (elem_of_collected v r Hwf Harr Hr) as (ks' & Hrec & [x Hx]).
  destruct (Hstores ks' r Hrec) as (x' & _ & Hpath & _). simpl in Hpath.
  assert (ks' = ks) as <-; [|done].
  apply pathOf_inj; [by apply (Hkeys ks' x) | done | congruence].
Qed.

Lemma write_all_collected v md ks :
  wf v -> treeinv [] v ->
  Forall (fun k => goodkey k = true) ks ->
  write_all (collected v) md !! pathOf ks
  = match recorded ks v with
    | Some r => Some r
    | None => md !! pathOf ks
    end.
Proof.
  intros Hwf Hinv Hks.
  destruct (recorded ks v) as [r|] eqn:Hr.
  - destruct Hinv as (Hkeys & Harr & Hstores).
    destruct (Hstores ks r Hr) as (x & Hx & Hpath & _). simpl in Hpath.
    apply write_all_lookup.
    + apply (recorded_collected ks); [done | by eexists].
    + done.
    + intros r' Hr' Hp'.
      pose proof (collected_path v r' ks Hwf
                    (conj Hkeys (conj Harr Hstores)) Hks Hr' Hp') as H.
      congruence.
  - apply write_all_lookup_other. intros r' Hr' Hp'.
    pose proof (collected_path v r' ks Hwf Hinv Hks Hr' Hp') as H.
    congruence.
Qed.

Lemma last_writer_snoc ks l s :
  last_writer ks (l ++ [s])
  = if writes ks s then Some (SourceObject.id s) else last_writer ks l.
Proof. unfold last_writer. by rewrite fold_left_app. Qed.

Lemma last_writer_scalar ks l w :
  Forall (fun s => scalar (SourceObject.id s) = true) l ->
  last_writer ks l = Some w -> scalar w = true.
Proof.
  induction l as [|s l IH] using rev_ind; [done|].
  intros [Hl Hs]%Forall_snoc_inv. rewrite last_writer_snoc.
  destruct (writes ks s).
  - by intros [= <-].
  - by apply IH.
Qed.

Lemma getMetadata_init_field target k :
  forall k', getMetadata
               (default VUndef (get_field k (init_resultObject target))) k'
             = None.
Proof.
  intros k'. rewrite get_field_init_resultObject.
  destruct (lookup_path [k] target) as [y|]; [|done].
  simpl. by destruct y.
Qed.

(** The entries of the hidden properties of the result of a call: an
    attribute that the source writes has an entry that names the source;
    any other entry is a copy of the one that the hidden property of the
    target holds for an attribute of the target itself. *)
Lemma recorded_merged options id source :
  forall target currentPath ks,
    wf source -> goodkeys source = true ->
    is_undefined source = false -> ks <> [] ->
    let result := mergedValue options id target source currentPath in
    (forall v, lookup_path ks source = Some v -> is_undefined v = false ->
               exists r, recorded ks result = Some r
                         /\ sourceId r = id)
    /\ ((forall v, lookup_path ks source = Some v -> is_undefined v = true) ->
        forall r, recorded ks result = Some r ->
          exists k r0, ks = [k] /\ getMetadata target k = Some r0
                       /\ r = cloneDeepMeta r0).
Proof.
  induction source as [| | | | |xs IH|m sfs IH] using jsval_ind;
    intros target currentPath ks Hwf Hgood Hundef Hks result; try done;
    try (split;
         [by destruct ks
         |intros _ r Hr; unfold result in Hr;
          by rewrite recorded_leaf in Hr]).
  destruct ks as [|k ks']; [done|].
  pose proof (proj1 (wf_obj m sfs) Hwf) as [Hnd Hwfs].
  unfold result. rewrite mergedValue_obj. cbn zeta.
  destruct (_mergeRecursive_loop_spec options id currentPath sfs
              (init_resultObject target) (seed_childMetadataMap target) Hnd
              (goodkeys_obj_keys m sfs Hgood)) as (Hf & Hc & _).
  cbn zeta in Hf, Hc.
  set (st := _mergeRecursive_loop _ currentPath sfs _) in *.
  destruct (decide (ks' = [])) as [->|Hne].
  - rewrite recorded_single. cbn [getMetadata lookup_path]. rewrite Hc.
    split.
    + intros v Hv Hu. destruct (get_field k sfs) as [sv|]; [|done].
      injection Hv as ->. rewrite Hu. by eexists.
    + intros Hnot r. destruct (get_field k sfs) as [sv|] eqn:Hsv.
      * by rewrite (Hnot sv eq_refl).
      * rewrite seed_childMetadataMap_lookup.
        destruct (decide _); [|done].
        destruct (getMetadata target k) as [r0|] eqn:Hr0; [|done].
        simpl. intros [= <-]. by exists k, r0.
  - rewrite recorded_cons by done. rewrite Hf.
    rewrite lookup_path_cons.
    destruct (get_field k sfs) as [sv|] eqn:Hsv.
    + pose proof (get_field_elem_of _ _ _ Hsv) as Hin.
      rewrite Forall_forall in IH, Hwfs.
      destruct (goodkeys_get_field m sfs k sv Hgood Hsv) as [_ Hgsv].
      destruct (is_undefined sv) eqn:Hu.
      * split; [by destruct sv, ks' | done].
      * unfold merged_child.
        destruct (IH (k, sv) Hin
                    (default VUndef (get_field k (init_resultObject target)))
                    (propertyPath currentPath k) ks' (Hwfs (k, sv) Hin) Hgsv
                    Hu Hne) as [H1 H2].
        split; [exact H1|].
        intros Hnot r Hr.
        destruct (H2 Hnot r Hr) as (k' & r0 & _ & Hr0 & _).
        by rewrite getMetadata_init_field in Hr0.
    + split; [done|]. intros _ r.
      rewrite get_field_init_resultObject.
      destruct (lookup_path [k] target) as [y|]; [|done]. simpl.
      by rewrite (recorded_plain ks' (cloneDeep y) (plain_cloneDeep y)).
Qed.

Lemma last_writer_invariant options sources :
  Forall good_source sources ->
  Forall (fun s => scalar (SourceObject.id s) = true) sources ->
  forall ks,
    ks <> [] -> Forall (fun k => goodkey k = true) ks ->
    let st := mergeAllWithMetadata sources options in
    sourceId <$> metadata st !! pathOf ks = last_writer ks sources
    /\ forall r, recorded ks (mergedObject st) = Some r ->
                 Some (sourceId r) = last_writer ks sources.
Proof.
  intros Hgood Hids.
  induction sources as [|s l IH] using rev_ind;
    [intros ks Hne Hks; split; [done | by destruct ks as [|k [|k' r']]]|].
  apply Forall_snoc_inv in Hgood as [Hgood Hs].
  apply Forall_snoc_inv in Hids as [Hids Hid].
  specialize (IH Hgood Hids).
  intros ks Hne Hks. cbn zeta.
  destruct (IH ks Hne Hks) as [IHmd IHstore].
  rewrite mergeAllWithMetadata_snoc, last_writer_snoc.
  set (st := mergeAllWithMetadata l options) in *.
  pose proof (merge_invariant_all options l Hgood) as Hinv. fold st in Hinv.
  pose proof (merge_invariant_step options st s Hinv Hs)
    as (Hwf' & Htree' & _ & _).
  assert (forall r,
            recorded ks (mergedObject (mergeStep options st s)) = Some r ->
            Some (sourceId r)
            = if writes ks s then Some (SourceObject.id s)
              else last_writer ks l) as Hstore.
  { intros r. rewrite mergeStep_mergedObject. unfold writes.
    destruct (is_undefined (SourceObject.data s)) eqn:Hu.
    - destruct (SourceObject.data s); try done.
      unfold mergedValue. cbn [_mergeRecursiveWithMetadata fst].
      replace (lookup_path ks VUndef) with (@None jsval) by (by destruct ks).
      apply IHstore.
    - destruct Hs as [Hwfs Hgs].
      destruct (recorded_merged options (SourceObject.id s)
                  (SourceObject.data s) (mergedObject st) (pathOf []) ks
                  Hwfs Hgs Hu Hne) as [H1 H2]. cbn zeta in H1, H2.
      destruct (lookup_path ks (SourceObject.data s)) as [v|] eqn:Hv.
      + destruct (is_undefined v) eqn:Huv; simpl.
        * intros Hr.
          assert (forall v', Some v = Some v' -> is_undefined v' = true)
            as Hnot by (by intros v' [= <-]).
          destruct (H2 Hnot r Hr) as (k & r0 & -> & Hr0 & ->).
          pose proof (IHstore r0 Hr0) as Hlw. rewrite <- Hlw. simpl. f_equal.
          apply scalar_cloneDeep.
          by apply (last_writer_scalar [k] l (sourceId r0) Hids).
        * intros Hr. destruct (H1 v eq_refl Huv) as (r' & Hr' & Hid').
          rewrite Hr' in Hr. injection Hr as <-. by rewrite Hid'.
      + intros Hr.
        assert (forall v', @None jsval = Some v' -> is_undefined v' = true)
          as Hnot by done.
        destruct (H2 Hnot r Hr) as (k & r0 & -> & Hr0 & ->).
        pose proof (IHstore r0 Hr0) as Hlw. rewrite <- Hlw. simpl. f_equal.
        apply scalar_cloneDeep.
        by apply (last_writer_scalar [k] l (sourceId r0) Hids). }
  split; [|done].
  rewrite mergeStep_metadata, write_all_collected by done.
  destruct (recorded ks (mergedObject (mergeStep options st s)))
    as [r|] eqn:Hr.
  - simpl. by apply Hstore.
  - rewrite IHmd.
    destruct (writes ks s) eqn:Hw; [|done].
    exfalso. revert Hr. rewrite mergeStep_mergedObject.
    unfold writes in Hw.
    destruct (lookup_path ks (SourceObject.data s)) as [v|] eqn:Hv; [|done].
    destruct Hs as [Hwfs Hgs].
    assert (is_undefined (SourceObject.data s) = false) as Hu.
    { destruct (SourceObject.data s); try done. by destruct ks. }
    destruct (recorded_merged options (SourceObject.id s)
                (SourceObject.data s) (mergedObject st) (pathOf []) ks
                Hwfs Hgs Hu Hne) as [H1 _]. cbn zeta in H1.
    destruct (H1 v Hv) as (r & -> & _); [by destruct (is_undefined v)|].
    done.
Qed.

(** X11. The metadata names the last writer of every attribute. When the
    keys of the sources that are met through mappings are not empty, hold
    no ['.'] and are not [__proto__], and the [id]s are scalars, the entry
    of the metadata for the attribute at such keys [ks] names the last
    source whose data holds,
    along [ks] through mappings, a value other than [undefined]; there is
    no entry when there is no such source. A later source that removes the
    attribute, or that replaces a mapping above it, does not change the
    entry. *)
Theorem metadata_names_last_writer sources options ks :
  Forall good_source sources ->
  Forall (fun s => scalar (SourceObject.id s) = true) sources ->
  ks <> [] -> Forall (fun k => goodkey k = true) ks ->
  sourceId <$> metadata (mergeAllWithMetadata sources options)
                 !! Array_join "." ks
  = last_writer ks sources.
Proof.
  intros Hgood Hids Hne Hks. rewrite <- (pathOf_join ks Hks).
  by destruct (last_writer_invariant options sources Hgood Hids ks Hne Hks).
Qed.

Lemma metadata_names_last_writer_witness :
  sourceId <$> metadata
    (mergeAllWithMetadata
       [SourceObject.make (VStr "1")
          (VObj None [("a", VObj None [("b", VNum 1)])]);
        SourceObject.make (VStr "2")
          (VObj None [("a", VObj None [("c", VNum 2)])]);
        SourceObject.make (VStr "3") (VObj None [("a", VNum 5)])]
       noMergeOptions) !! "a.b"
  = Some (VStr "1").
Proof.
  apply (metadata_names_last_writer
           [SourceObject.make (VStr "1")
              (VObj None [("a", VObj None [("b", VNum 1)])]);
            SourceObject.make (VStr "2")
              (VObj None [("a", VObj None [("c", VNum 2)])]);
            SourceObject.make (VStr "3") (VObj None [("a", VNum 5)])]
           noMergeOptions ["a"; "b"]).
  - repeat (apply Forall_cons_2;
            [split; [simpl; repeat split;
                     by apply (bool_decide_unpack (NoDup _))
                    | reflexivity]|]).
    apply Forall_nil_2.
  - by repeat constructor.
  - done.
  - by repeat constructor.
Defined.

(** ** The data traversal and the schema traversal *)

Lemma covers_nil s : covers (Returns []) s.
Proof. intros l [= <-] c Hc. by apply elem_of_nil in Hc. Qed.

Lemma covers_Throws s : covers Throws s.
Proof. by intros l. Qed.

Lemma covers_weaken d s s' :
  covers d s -> (forall c, c ∈ s -> c ∈ s') -> covers d s'.
Proof.
  intros H Hs l Hl c Hc. destruct (H l Hl c Hc) as (c' & Hc' & Hsame).
  exists c'. split; [by apply Hs | done].
Qed.

Lemma covers_andThen d1 d2 s1 s2 :
  covers d1 s1 -> covers d2 s2 -> covers (andThen d1 d2) (s1 ++ s2).
Proof.
  intros H1 H2 l (l1 & l2 & -> & -> & ->)%andThen_Returns c
         [Hc|Hc]%elem_of_app.
  - destruct (H1 l1 eq_refl c Hc) as (c' & Hc' & Hsame).
    exists c'. split; [apply elem_of_app; by left | done].
  - destruct (H2 l2 eq_refl c Hc) as (c' & Hc' & Hsame).
    exists c'. split; [apply elem_of_app; by right | done].
Qed.

Lemma covers_on_keyword node dataValue keyword d s :
  covers d s ->
  covers (on_data_keyword node dataValue keyword d) (on_keyword node keyword s).
Proof.
  intros H. unfold on_data_keyword, on_keyword.
  destruct (hasOwnProperty node keyword); [|apply covers_nil].
  destruct (_isDataCompatible keyword node dataValue); [done | apply covers_nil].
Qed.

Lemma covers_with_prop m fs key
    (fd : jsval -> outcome (list DataTraversalContext))
    (fsch : jsval -> list SchemaTraversalContext) :
  (forall k v, (k, v) ∈ fs -> covers (fd v) (fsch v)) ->
  covers (with_prop (VObj m fs) key (Returns []) fd)
         (with_prop (VObj m fs) key [] fsch).
Proof.
  simpl. induction fs as [|[k v] r IH]; intros H; [apply covers_nil|].
  destruct (String.eqb k key).
  - apply (H k v). left.
  - apply IH. intros k' v' Hin. apply (H k' v'). by right.
Qed.

Lemma covers_forEach xs
    (bd : jsval -> nat -> outcome (list DataTraversalContext))
    (bs : jsval -> nat -> list SchemaTraversalContext) :
  (forall x i, x ∈ xs -> covers (bd x i) (bs x i)) ->
  covers (forEachM xs bd) (forEach xs bs).
Proof.
  unfold forEachM, forEach. generalize 0.
  induction xs as [|x r IH]; intros n H; [apply covers_nil|].
  apply covers_andThen; [apply H; left|].
  apply IH. intros y i Hy. apply H. by right.
Qed.

Lemma covers_forEach_const xs
    (bd : jsval -> nat -> outcome (list DataTraversalContext)) s :
  (forall x i, x ∈ xs -> covers (bd x i) s) ->
  covers (forEachM xs bd) s.
Proof.
  unfold forEachM. generalize 0.
  induction xs as [|x r IH]; intros n H; [apply covers_nil|].
  apply (covers_weaken _ (s ++ s)).
  - apply covers_andThen; [apply H; left|].
    apply IH. intros y i Hy. apply H. by right.
  - by intros c [?|?]%elem_of_app.
Qed.

Lemma covers_for_in v
    (bd : string -> jsval -> outcome (list DataTraversalContext))
    (bs : string -> jsval -> list SchemaTraversalContext) :
  (forall xs k x, v = VArr xs -> x ∈ xs -> covers (bd k x) (bs k x)) ->
  (forall m fs k x, v = VObj m fs -> (k, x) ∈ fs -> covers (bd k x) (bs k x)) ->
  covers (for_inM v bd) (for_in v bs).
Proof.
  destruct v as [| | | | |xs|m fs]; intros Ha Ho; try apply covers_nil.
  - simpl. specialize (Ha xs). clear Ho. generalize 0.
    induction xs as [|x r IH]; intros n; [apply covers_nil|].
    apply covers_andThen; [apply Ha; [done | left]|].
    apply IH. intros k y _ Hy. apply Ha; [done | by right].
  - simpl. specialize (Ho m fs). clear Ha.
    induction fs as [|[k x] r IH]; [apply covers_nil|].
    apply covers_andThen; [apply Ho; [done | left]|].
    apply IH. intros k' y _ Hy. apply Ho; [done | by right].
Qed.

Lemma _traverseDataRecursive_covered schemaNode :
  covered schemaNode /\ children_covered schemaNode.
Proof.
  induction schemaNode as [| | | | |xs IH|m fs IH] using jsval_ind;
    try (split; [intros ?????; apply covers_nil | done]).
  - split; [|eapply Forall_impl; [exact IH | by intros ? []]].
    intros dv p n n' par l [= <-] c ->%list_elem_of_singleton.
    eexists. split; [by left | done].
  - assert (Forall (fun kv => covered (snd kv)) fs) as Hc
      by (eapply Forall_impl; [exact IH | by intros ? []]).
    assert (Forall (fun kv => children_covered (snd kv)) fs) as Hg
      by (eapply Forall_impl; [exact IH | by intros ? []]).
    split; [|exact Hc].
    rewrite Forall_forall in Hc, Hg.
    assert (forall k v, (k, v) ∈ fs -> covered v) as Hchild
      by (intros k v Hin; apply (Hc (k, v) Hin)).
    assert (forall k v xs x, (k, v) ∈ fs -> v = VArr xs -> x ∈ xs ->
                             covered x) as Harr.
    { intros k v xs x Hin -> Hx. specialize (Hg (k, VArr xs) Hin).
      simpl in Hg. rewrite Forall_forall in Hg. by apply Hg. }
    assert (forall k v m' gs k' x, (k, v) ∈ fs -> v = VObj m' gs ->
                                   (k', x) ∈ gs -> covered x) as Hobj.
    { intros k v m' gs k' x Hin -> Hx. specialize (Hg (k, VObj m' gs) Hin).
      simpl in Hg. rewrite Forall_forall in Hg. by apply (Hg (k', x)). }
    intros dataValue currentPath propertyName propertyName' parentSchemaNode.
    cbn [_traverseDataRecursive _traverseSchemaRecursive typeof_object is_null
         negb orb].
    apply (covers_andThen (Returns [_]) _ [_]).
    { intros l [= <-] c ->%list_elem_of_singleton.
      eexists. split; [by left | done]. }
    repeat (apply covers_andThen).
    10: { eapply covers_weaken;
            [|intros c0 Hc0; apply elem_of_app; left; exact Hc0].
          apply covers_on_keyword.
          apply covers_with_prop. intros k v Hin.
          destruct (truthy v); [|apply covers_nil].
          apply covers_for_in.
          - intros xs k' x Hv Hx.
            destruct dataValue; try apply covers_Throws.
            destruct (hasOwnProperty _ _); [|apply covers_nil].
            by eapply Harr.
          - intros m' gs k' x Hv Hx.
            destruct dataValue; try apply covers_Throws.
            destruct (hasOwnProperty _ _); [|apply covers_nil].
            by eapply Hobj. }
    all: apply covers_on_keyword.
    + (* properties *)
      apply covers_with_prop. intros k v Hin.
      destruct (truthy v); [|apply covers_nil].
      apply covers_for_in.
      * intros xs k' x Hv Hx. by eapply Harr.
      * intros m' gs k' x Hv Hx. by eapply Hobj.
    + (* items *)
      apply covers_with_prop. intros k v Hin.
      destruct (truthy v); [|apply covers_nil].
      destruct v as [| | | | |itemSchemas|m' gs];
        try (destruct dataValue; try apply covers_Throws;
             apply covers_forEach_const; intros x i Hx; by eapply Hchild).
      apply covers_forEach. intros x i Hx.
      destruct dataValue as [| | | | |dataItems|]; try apply covers_Throws.
      destruct (i <? length dataItems)%nat; [|apply covers_nil].
      by eapply Harr.
    + apply covers_with_prop. intros k v Hin.
      destruct v as [| | | | |subSchemas|]; try apply covers_nil.
      apply covers_forEach. intros x i Hx. by eapply Harr.
    + apply covers_with_prop. intros k v Hin.
      destruct v as [| | | | |subSchemas|]; try apply covers_nil.
      apply covers_forEach. intros x i Hx. by eapply Harr.
    + apply covers_with_prop. intros k v Hin.
      destruct v as [| | | | |subSchemas|]; try apply covers_nil.
      apply covers_forEach. intros x i Hx. by eapply Harr.
    + apply covers_with_prop. intros k v Hin.
      destruct (truthy v); simpl; [|apply covers_nil].
      destruct (typeof_object v); [|apply covers_nil].
      by eapply Hchild.
    + apply covers_with_prop. intros k v Hin.
      destruct (truthy v && typeof_object v); [|apply covers_nil].
      by eapply Hchild.
    + apply covers_with_prop. intros k v Hin.
      destruct (truthy v && typeof_object v); [|apply covers_nil].
      by eapply Hchild.
    + apply covers_with_prop. intros k v Hin.
      destruct (truthy v && typeof_object v); [|apply covers_nil].
      by eapply Hchild.
Qed.

(** X12. The data traversal visits only nodes of the schema traversal:
    every context that [traverseData] passes to the visitor has the schema
    node, the path and the parent of a context that [traverseSchema] passes
    for the same schema, whatever the data. *)
Theorem data_visits_are_schema_visits schema data visits c :
  traverseData schema data = Returns visits ->
  c ∈ visits ->
  exists c', c' ∈ traverseSchema schema /\ same_node c' c.
Proof.
  intros Hv Hc.
  destruct (_traverseDataRecursive_covered schema) as [H _].
  exact (H data [] None None None visits Hv c Hc).
Qed.

Lemma data_visits_are_schema_visits_witness :
  let schema :=
    VObj None [("type", VStr "array");
               ("items", VObj None [("type", VStr "number")])] in
  let c := DataTraversalContext.make
             (SchemaTraversalContext.make
                (VObj None [("type", VStr "number")]) [] (Some "1")
                (Some schema))
             (VNum 20) in
  exists c', c' ∈ traverseSchema schema /\ same_node c' c.
Proof.
  intros schema c.
  refine (data_visits_are_schema_visits schema (VArr [VNum 10; VNum 20])
            _ c _ _).
  - reflexivity.
  - right. right. left.
Defined.

(** ** What the traversals visit *)

Lemma with_prop_get_field {A} m fs key (absent : A) (present : jsval -> A) :
  with_prop (VObj m fs) key absent present
  = match get_field key fs with
    | Some v => present v
    | None => absent
    end.
Proof.
  simpl. induction fs as [|[k v] r IH]; [done|]. simpl.
  by destruct (String.eqb k key).
Qed.

Lemma on_keyword_get_field {A} m fs keyword (visits : list A) :
  on_keyword (VObj m fs) keyword visits
  = if bool_decide (is_Some (get_field keyword fs)) then visits else [].
Proof. done. Qed.

Lemma _traverseSchemaRecursive_head sub currentPath propertyName parent :
  typeof_object sub = true -> is_null sub = false ->
  exists tail,
    _traverseSchemaRecursive sub currentPath propertyName parent
    = SchemaTraversalContext.make sub currentPath propertyName parent :: tail.
Proof. destruct sub; try done; intros _ _; simpl; by eexists. Qed.

(** X13. A schema node that holds both [additionalProperties] and
    [patternProperties] has the schema under [additionalProperties]
    visited twice by the schema traversal, each time with the path of the
    node: the two keywords share one handler, which does both and runs
    once for each. *)
Theorem additionalProperties_visited_twice m fs sub currentPath propertyName
    parent :
  let node := VObj m fs in
  get_field "additionalProperties" fs = Some sub ->
  typeof_object sub = true -> is_null sub = false ->
  is_Some (get_field "patternProperties" fs) ->
  exists l1 l2 l3,
    _traverseSchemaRecursive node currentPath propertyName parent
    = l1 ++ SchemaTraversalContext.make sub currentPath None (Some node)
         :: l2 ++ SchemaTraversalContext.make sub currentPath None (Some node)
         :: l3.
Proof.
  intros node Hadd Hobj Hnull Hpat.
  destruct (_traverseSchemaRecursive_head sub currentPath None (Some node)
              Hobj Hnull) as [tail Htail].
  cbn [_traverseSchemaRecursive typeof_object is_null negb orb node].
  rewrite !on_keyword_get_field, Hadd.
  rewrite (bool_decide_eq_true_2 _ Hpat).
  rewrite (bool_decide_eq_true_2 (is_Some (Some sub))) by (by eexists).
  unfold _handleSchemaAdditionalOrPatternProperties.
  rewrite !with_prop_get_field, Hadd, Hobj. fold node. rewrite Htail.
  set (c := SchemaTraversalContext.make sub currentPath None (Some node)).
  set (rest := match get_field "patternProperties" fs with
               | Some _ => _ | None => _ end).
  match goal with
  | |- exists _ _ _,
         ?ctx :: ?a ++ ?b ++ ?c1 ++ ?d ++ ?e ++ ?f ++ ?g ++ ?h ++ ?i ++ ?j
               ++ _ ++ _ = _ =>
      exists (ctx :: a ++ b ++ c1 ++ d ++ e ++ f ++ g ++ h ++ i ++ j),
             (tail ++ rest), (tail ++ rest)
  end.
  rewrite <- ?app_comm_cons, <- ?app_assoc. simpl.
  by rewrite <- ?app_comm_cons, <- ?app_assoc.
Qed.

Lemma additionalProperties_visited_twice_witness :
  let sub := VObj None [("type", VStr "string")] in
  let node := VObj None [("additionalProperties", sub);
                         ("patternProperties", VObj None [])] in
  exists l1 l2 l3,
    traverseSchema node
    = l1 ++ SchemaTraversalContext.make sub [] None (Some node)
         :: l2 ++ SchemaTraversalContext.make sub [] None (Some node) :: l3.
Proof.
  intros sub node.
  apply (additionalProperties_visited_twice None
           [("additionalProperties", sub);
            ("patternProperties", VObj None [])] sub [] None None);
    try reflexivity.
  by eexists.
Defined.

Lemma on_data_keyword_absent {A} m fs dataValue keyword
    (visits : outcome (list A)) :
  get_field keyword fs = None ->
  on_data_keyword (VObj m fs) dataValue keyword visits = Returns [].
Proof. intros H. unfold on_data_keyword, hasOwnProperty. by rewrite H. Qed.

(** X14. The data traversal has no handler for [additionalProperties] and
    [patternProperties]: on a schema node that holds none of the ten
    keywords [properties], [items], [allOf], [anyOf], [oneOf], [not], [if],
    [then], [else] and [dependentSchemas], it visits the node and nothing
    else, whatever the other keys of the node and the data. *)
Theorem traverseData_ignores_other_keywords m fs dataValue currentPath
    propertyName parent :
  Forall (fun keyword => get_field keyword fs = None)
         ["properties"; "items"; "allOf"; "anyOf"; "oneOf"; "not"; "if";
          "then"; "else"; "dependentSchemas"] ->
  _traverseDataRecursive (VObj m fs) dataValue currentPath propertyName parent
  = Returns [DataTraversalContext.make
               (SchemaTraversalContext.make (VObj m fs) currentPath
                                            propertyName parent)
               dataValue].
Proof.
  intros H. cbn [_traverseDataRecursive typeof_object is_null negb orb].
  repeat (apply Forall_cons in H as [? H]).
  by rewrite !on_data_keyword_absent.
Qed.

Lemma traverseData_ignores_other_keywords_witness :
  let sub := VObj None [("type", VStr "string")] in
  let node := VObj None [("type", VStr "object");
                         ("additionalProperties", sub)] in
  let data := VObj None [("a", VStr "x")] in
  traverseData node data
  = Returns [DataTraversalContext.make
               (SchemaTraversalContext.make node [] None None) data].
Proof.
  intros sub node data.
  apply (traverseData_ignores_other_keywords None
           [("type", VStr "object"); ("additionalProperties", sub)]
           data [] None None).
  by repeat constructor.
Defined.

(** ** Properties and items with their data *)

Lemma _traverseDataRecursive_head sub dataValue currentPath propertyName parent :
  typeof_object sub = true -> is_null sub = false ->
  exists tail,
    _traverseDataRecursive sub dataValue currentPath propertyName parent
    = Returns
        (DataTraversalContext.make
           (SchemaTraversalContext.make sub currentPath propertyName parent)
           dataValue :: tail).
Proof.
  intros Hobj Hnull.
  destruct (proj1 (_traverseDataRecursive_returns sub) dataValue currentPath
              propertyName parent) as [l Hl].
  rewrite Hl. destruct sub; try done.
  - simpl in Hl. injection Hl as <-. by eexists.
  - cbn [_traverseDataRecursive typeof_object is_null negb orb] in Hl.
    apply andThen_Returns in Hl as (l1 & l2 & [= <-] & _ & ->). by eexists.
Qed.

Lemma for_inM_obj_elem {A} m fs (body : string -> jsval -> outcome (list A))
    l k x lx c :
  for_inM (VObj m fs) body = Returns l ->
  (k, x) ∈ fs -> body k x = Returns lx -> c ∈ lx -> c ∈ l.
Proof.
  simpl. revert l. induction fs as [|[k1 x1] r IH]; intros l Hl Hin Hb Hc.
  - by apply elem_of_nil in Hin.
  - unfold andThen in Hl. simpl in Hl.
    destruct (body k1 x1) as [l1|] eqn:H1; [|done]. simpl in Hl.
    match type of Hl with
    | context [bind ?g _] => destruct g as [l2|] eqn:H2; [|done]
    end.
    simpl in Hl. injection Hl as <-.
    apply elem_of_app. apply elem_of_cons in Hin as [[= -> ->]|Hin].
    + left. rewrite Hb in H1. by injection H1 as <-.
    + right. by apply (IH l2).
Qed.

Lemma forEachM_elem {A} xs (body : jsval -> nat -> outcome (list A))
    l i x lx c :
  forEachM xs body = Returns l ->
  xs !! i = Some x -> body x i = Returns lx -> c ∈ lx -> c ∈ l.
Proof.
  unfold forEachM.
  assert (forall n l,
            (fix go (i : nat) (l : list jsval) : outcome (list A) :=
               match l with
               | [] => Returns []
               | x :: r => andThen (body x i) (go (S i) r)
               end) n xs = Returns l ->
            forall i, xs !! i = Some x -> body x (n + i) = Returns lx ->
                      c ∈ lx -> c ∈ l) as H.
  { clear l i. induction xs as [|x1 r IH]; intros n l Hl i Hi Hb Hc; [done|].
    apply andThen_Returns in Hl as (l1 & l2 & H1 & H2 & ->).
    apply elem_of_app. destruct i as [|i].
    - left. injection Hi as ->. rewrite Nat.add_0_r, H1 in Hb.
      by injection Hb as <-.
    - right. apply (IH (S n) l2 H2 i Hi); [|done].
      by replace (S n + i) with (n + S i) by lia. }
  intros Hl Hi Hb Hc. by apply (H 0 l Hl i Hi).
Qed.

Lemma on_data_keyword_present {A} m fs dataValue keyword v
    (visits : outcome (list A)) :
  get_field keyword fs = Some v ->
  _isDataCompatible keyword (VObj m fs) dataValue = true ->
  on_data_keyword (VObj m fs) dataValue keyword visits = visits.
Proof.
  intros H Hc. unfold on_data_keyword, hasOwnProperty. rewrite H, Hc.
  by rewrite bool_decide_eq_true_2 by (by eexists).
Qed.

(** X15. The data traversal visits every property schema with the value of
    the property in the data: on a schema node with the mapping
    [properties] and data that is a mapping, each schema of [properties]
    that is an object is visited with the path extended by its key, the key
    as property name, the node as parent, and the value that the data holds
    under the key; [undefined] when the data does not hold the key and the
    key is not the name of a member of [Object.prototype]. *)
Theorem traverseData_visits_properties m fs pm pfs key sub dm dfs
    currentPath propertyName parent :
  let node := VObj m fs in
  let dataValue := VObj dm dfs in
  get_field "properties" fs = Some (VObj pm pfs) ->
  (key, sub) ∈ pfs ->
  typeof_object sub = true -> is_null sub = false ->
  is_Some (get_field key dfs) \/ inherited key = false ->
  exists visits,
    _traverseDataRecursive node dataValue currentPath propertyName parent
    = Returns visits
    /\ DataTraversalContext.make
         (SchemaTraversalContext.make sub (currentPath ++ [key]) (Some key)
                                      (Some node))
         (prop key dataValue) ∈ visits.
Proof.
  intros node dataValue Hprops Hin Hobj Hnull _.
  destruct (proj1 (_traverseDataRecursive_returns node) dataValue currentPath
              propertyName parent) as [visits Hv].
  exists visits. split; [done|].
  cbn [_traverseDataRecursive typeof_object is_null negb orb node] in Hv.
  apply andThen_Returns in Hv as (l0 & l1 & _ & Hv & ->).
  apply andThen_Returns in Hv as (lp & l2 & Hp & _ & ->).
  apply elem_of_app. right. apply elem_of_app. left.
  rewrite (on_data_keyword_present m fs dataValue "properties" _ _ Hprops)
    in Hp by done.
  unfold _handleDataProperties in Hp.
  rewrite with_prop_get_field, Hprops in Hp. cbn [truthy] in Hp.
  destruct (_traverseDataRecursive_head sub (prop key dataValue)
              (currentPath ++ [key]) (Some key) (Some node) Hobj Hnull)
    as [tail Htail].
  eapply (for_inM_obj_elem pm pfs _ lp key sub); [exact Hp | done | |].
  - exact Htail.
  - left.
Qed.


Lemma traverseData_visits_properties_witness :
  let schema :=
    VObj None [("type", VStr "object");
               ("properties",
                VObj None [("name", VObj None [("type", VStr "string")]);
                           ("age", VObj None [("type", VStr "number")])])] in
  let data := VObj None [("name", VStr "Alice")] in
  exists visits,
    traverseData schema data = Returns visits
    /\ DataTraversalContext.make
         (SchemaTraversalContext.make (VObj None [("type", VStr "number")])
            ["age"] (Some "age") (Some schema))
         VUndef ∈ visits.
Proof.
  intros schema data.
  apply (traverseData_visits_properties None
           [("type", VStr "object");
            ("properties",
             VObj None [("name", VObj None [("type", VStr "string")]);
                        ("age", VObj None [("type", VStr "number")])])]
           None
           [("name", VObj None [("type", VStr "string")]);
            ("age", VObj None [("type", VStr "number")])]
           "age" (VObj None [("type", VStr "number")])
           None [("name", VStr "Alice")] [] None None); try reflexivity.
  - right. left.
  - by right.
Defined.

(** *** The visits of one context *)

Lemma jsize_elem x xs : x ∈ xs -> jsize x < jsize (VArr xs).
Proof.
  intros Hin. cbn [jsize]. apply Nat.lt_succ_r.
  induction Hin as [x r|x y r _ IH]; lia.
Qed.

Lemma jsize_field m fs k v : (k, v) ∈ fs -> jsize v < jsize (VObj m fs).
Proof.
  intros Hin. cbn [jsize]. apply Nat.lt_succ_r.
  revert Hin. induction fs as [|[k1 v1] r IH]; intros Hin.
  - by apply elem_of_nil in Hin.
  - apply elem_of_cons in Hin as [[= -> ->]|Hin]; simpl; [lia|].
    specialize (IH Hin). lia.
Qed.

Lemma below_le s s' c : below s c -> jsize s <= jsize s' -> below s' c.
Proof. intros (q & Hq & Hle) Hs. exists q. split; [done | lia]. Qed.

(** A traversal visits nothing, or its node first. *)
Lemma _traverseDataRecursive_first sub dataValue currentPath propertyName
    parent l :
  _traverseDataRecursive sub dataValue currentPath propertyName parent
  = Returns l ->
  l = []
  \/ exists tl,
       l = DataTraversalContext.make
             (SchemaTraversalContext.make sub currentPath propertyName parent)
             dataValue :: tl.
Proof.
  destruct sub; try (intros [= <-]; by left).
  - intros [= <-]. right. by eexists.
  - cbn [_traverseDataRecursive typeof_object is_null negb orb].
    intros (l1 & l2 & [= <-] & _ & ->)%andThen_Returns. right. by eexists.
Qed.

(** The traversal from a node inside [node], reached from [node]: all its
    visits but the first are of nodes inside the inner node. *)
Lemma visits_all_inner node x dataValue currentPath propertyName :
  jsize x <= jsize node -> parents_below x ->
  visits_all (below node)
    (_traverseDataRecursive x dataValue currentPath propertyName (Some node)).
Proof.
  intros Hle Hx l Hl.
  destruct (_traverseDataRecursive_first _ _ _ _ _ _ Hl) as [->|[tl ->]];
    [done|].
  apply Forall_cons. split; [by exists node|].
  eapply Forall_impl; [apply (Hx _ _ _ _ _ Hl)|].
  intros c Hc. by eapply below_le.
Qed.

Lemma _traverseDataRecursive_parents schemaNode :
  parents_below schemaNode /\ children_parents_below schemaNode.
Proof.
  induction schemaNode as [| | | | |xs IH|m fs IH] using jsval_ind;
    try (split; [by intros ????? [= <-] | done]).
  - split; [|eapply Forall_impl; [exact IH | by intros ? []]].
    by intros ????? [= <-].
  - assert (Forall (fun kv => parents_below (snd kv)) fs) as Hc
      by (eapply Forall_impl; [exact IH | by intros ? []]).
    assert (Forall (fun kv => children_parents_below (snd kv)) fs) as Hg
      by (eapply Forall_impl; [exact IH | by intros ? []]).
    split; [|exact Hc].
    rewrite Forall_forall in Hc, Hg.
    set (node := VObj m fs).
    assert (forall k v d p n, (k, v) ∈ fs ->
              visits_all (below node) (_traverseDataRecursive v d p n (Some node)))
      as Hchild.
    { intros k v d p n Hin. apply visits_all_inner; [|apply (Hc (k, v) Hin)].
      apply Nat.lt_le_incl. by eapply jsize_field. }
    assert (forall k v xs x d p n, (k, v) ∈ fs -> v = VArr xs -> x ∈ xs ->
              visits_all (below node) (_traverseDataRecursive x d p n (Some node)))
      as Harr.
    { intros k v xs x d p n Hin -> Hx. apply visits_all_inner.
      - pose proof (jsize_field m fs k _ Hin). pose proof (jsize_elem x xs Hx).
        fold node in H. lia.
      - specialize (Hg (k, VArr xs) Hin). simpl in Hg.
        rewrite Forall_forall in Hg. by apply Hg. }
    assert (forall k v m' gs k' x d p n, (k, v) ∈ fs -> v = VObj m' gs ->
              (k', x) ∈ gs ->
              visits_all (below node) (_traverseDataRecursive x d p n (Some node)))
      as Hobj.
    { intros k v m' gs k' x d p n Hin -> Hx. apply visits_all_inner.
      - pose proof (jsize_field m fs k _ Hin).
        pose proof (jsize_field m' gs k' x Hx). fold node in H. lia.
      - specialize (Hg (k, VObj m' gs) Hin). simpl in Hg.
        rewrite Forall_forall in Hg. by apply (Hg (k', x)). }
    intros dataValue currentPath propertyName parentSchemaNode l.
    unfold node at 1.
    cbn [_traverseDataRecursive typeof_object is_null negb orb]. fold node.
    intros (l1 & l2 & [= <-] & Hl2 & ->)%andThen_Returns. cbn [tail app].
    revert l2 Hl2.
    match goal with
    | |- forall l2, ?d = Returns l2 -> _ => change (visits_all (below node) d)
    end.
    repeat (apply visits_all_andThen); apply visits_all_on_keyword.
    + (* properties *)
      apply visits_all_with_prop. intros k v Hin.
      destruct (truthy v); [|apply visits_all_nil].
      apply visits_all_for_in.
      * intros xs k' x Hv Hx. by eapply Harr.
      * intros m' gs k' x Hv Hx. by eapply Hobj.
    + (* items *)
      apply visits_all_with_prop. intros k v Hin.
      destruct (truthy v); [|apply visits_all_nil].
      destruct v as [| | | | |itemSchemas|m' gs];
        try (destruct dataValue; try apply visits_all_Throws;
             apply visits_all_forEach; intros x i Hx; by eapply Hchild).
      apply visits_all_forEach. intros x i Hx.
      destruct dataValue as [| | | | |dataItems|]; try apply visits_all_Throws.
      destruct (i <? length dataItems)%nat; [|apply visits_all_nil].
      by eapply Harr.
    + apply visits_all_with_prop. intros k v Hin.
      destruct v as [| | | | |subSchemas|]; try apply visits_all_nil.
      apply visits_all_forEach. intros x i Hx. by eapply Harr.
    + apply visits_all_with_prop. intros k v Hin.
      destruct v as [| | | | |subSchemas|]; try apply visits_all_nil.
      apply visits_all_forEach. intros x i Hx. by eapply Harr.
    + apply visits_all_with_prop. intros k v Hin.
      destruct v as [| | | | |subSchemas|]; try apply visits_all_nil.
      apply visits_all_forEach. intros x i Hx. by eapply Harr.
    + apply visits_all_with_prop. intros k v Hin.
      destruct (truthy v && typeof_object v); [|apply visits_all_nil].
      by eapply Hchild.
    + apply visits_all_with_prop. intros k v Hin.
      destruct (truthy v && typeof_object v); [|apply visits_all_nil].
      by eapply Hchild.
    + apply visits_all_with_prop. intros k v Hin.
      destruct (truthy v && typeof_object v); [|apply visits_all_nil].
      by eapply Hchild.
    + apply visits_all_with_prop. intros k v Hin.
      destruct (truthy v && typeof_object v); [|apply visits_all_nil].
      by eapply Hchild.
    + apply visits_all_with_prop. intros k v Hin.
      destruct (truthy v); [|apply visits_all_nil].
      apply visits_all_for_in.
      * intros xs k' x Hv Hx.
        destruct dataValue; try apply visits_all_Throws.
        destruct (hasOwnProperty _ _); [|apply visits_all_nil].
        by eapply Harr.
      * intros m' gs k' x Hv Hx.
        destruct dataValue; try apply visits_all_Throws.
        destruct (hasOwnProperty _ _); [|apply visits_all_nil].
        by eapply Hobj.
Qed.

Lemma once_head c tl : c ∉ tl -> once c (c :: tl).
Proof. intros Htl. exists [], tl. split; [done|]. split; [|done]. apply not_elem_of_nil. Qed.

Lemma once_cons c x l : c <> x -> once c l -> once c (x :: l).
Proof.
  intros Hne (l1 & l2 & -> & H1 & H2). exists (x :: l1), l2.
  split; [done|]. split; [|done]. by apply not_elem_of_cons.
Qed.

Lemma once_app_l c l l' : once c l -> c ∉ l' -> once c (l ++ l').
Proof.
  intros (l1 & l2 & -> & H1 & H2) Hl'. exists l1, (l2 ++ l').
  split; [by rewrite <- app_assoc|]. split; [done|].
  by apply not_elem_of_app.
Qed.

Lemma once_app_r c l l' : c ∉ l -> once c l' -> once c (l ++ l').
Proof.
  intros Hl (l1 & l2 & -> & H1 & H2). exists (l ++ l1), l2.
  split; [by rewrite <- app_assoc|]. split; [|done].
  by apply not_elem_of_app.
Qed.

Lemma visits_all_notin c d l :
  visits_all (fun c' => c' <> c) d -> d = Returns l -> c ∉ l.
Proof.
  intros H Hl Hin. specialize (H l Hl). rewrite Forall_forall in H.
  by apply (H c Hin).
Qed.

(** A context reached from [node] is not a visit of a node inside a
    smaller schema node. *)
Lemma not_below node x c :
  DataTraversalContext.parentSchemaNode c = Some node ->
  jsize x < jsize node -> ~ below x c.
Proof. intros Hc Hlt (q & Hq & Hle). rewrite Hc in Hq. injection Hq as <-. lia. Qed.

(** The traversal from a schema node inside [node], reached from [node]:
    it visits its own context once, and no other context that is reached
    from [node]. *)
Lemma sub_traversal_once node x dataValue currentPath propertyName l :
  jsize x < jsize node ->
  typeof_object x = true -> is_null x = false ->
  _traverseDataRecursive x dataValue currentPath propertyName (Some node)
  = Returns l ->
  once (DataTraversalContext.make
          (SchemaTraversalContext.make x currentPath propertyName (Some node))
          dataValue) l.
Proof.
  intros Hlt Hobj Hnull Hl.
  pose proof (proj1 (_traverseDataRecursive_parents x) _ _ _ _ _ Hl) as Htl.
  destruct (_traverseDataRecursive_head x dataValue currentPath propertyName
              (Some node) Hobj Hnull) as [tl Heq].
  rewrite Heq in Hl. injection Hl as <-. cbn [tail] in Htl.
  apply once_head. intros Hin. rewrite Forall_forall in Htl.
  eapply (not_below node x); [|exact Hlt|exact (Htl _ Hin)]. done.
Qed.

Lemma visits_all_other node x dataValue currentPath propertyName c :
  jsize x < jsize node ->
  DataTraversalContext.parentSchemaNode c = Some node ->
  DataTraversalContext.propertyName c <> propertyName ->
  visits_all (fun c' => c' <> c)
    (_traverseDataRecursive x dataValue currentPath propertyName (Some node)).
Proof.
  intros Hlt Hpar Hname l Hl.
  pose proof (proj1 (_traverseDataRecursive_parents x) _ _ _ _ _ Hl) as Htl.
  destruct (_traverseDataRecursive_first _ _ _ _ _ _ Hl) as [->|[tl ->]];
    [done|].
  cbn [tail] in Htl. apply Forall_cons. split; [by intros <-|].
  eapply Forall_impl; [exact Htl|]. intros c' Hc' ->.
  by apply (not_below node x c).
Qed.

(** The visits under the combiners, [not] and the conditionals are not of
    a context with a property name. *)
Lemma same_data_visits_other m fs dataValue currentPath c :
  DataTraversalContext.parentSchemaNode c = Some (VObj m fs) ->
  DataTraversalContext.propertyName c <> None ->
  visits_all (fun c' => c' <> c)
    (same_data_visits (VObj m fs) dataValue currentPath).
Proof.
  intros Hpar Hname. set (node := VObj m fs) in *.
  assert (forall k v, (k, v) ∈ fs ->
            visits_all (fun c' => c' <> c)
              (_traverseDataRecursive v dataValue currentPath None (Some node)))
    as Hchild.
  { intros k v Hin. apply visits_all_other; [|done..]. by eapply jsize_field. }
  assert (forall k xs x, (k, VArr xs) ∈ fs -> x ∈ xs ->
            visits_all (fun c' => c' <> c)
              (_traverseDataRecursive x dataValue currentPath None (Some node)))
    as Harr.
  { intros k xs x Hin Hx. apply visits_all_other; [|done..].
    pose proof (jsize_field m fs k _ Hin). pose proof (jsize_elem x xs Hx).
    fold node in H. lia. }
  unfold same_data_visits. cbn zeta.
  repeat (apply visits_all_andThen); apply visits_all_on_keyword;
    apply visits_all_with_prop; intros k v Hin.
  - destruct v as [| | | | |subSchemas|]; try apply visits_all_nil.
    apply visits_all_forEach. intros x i Hx. by eapply Harr.
  - destruct v as [| | | | |subSchemas|]; try apply visits_all_nil.
    apply visits_all_forEach. intros x i Hx. by eapply Harr.
  - destruct v as [| | | | |subSchemas|]; try apply visits_all_nil.
    apply visits_all_forEach. intros x i Hx. by eapply Harr.
  - destruct (truthy v && typeof_object v); [|apply visits_all_nil].
    by eapply Hchild.
  - destruct (truthy v && typeof_object v); [|apply visits_all_nil].
    by eapply Hchild.
  - destruct (truthy v && typeof_object v); [|apply visits_all_nil].
    by eapply Hchild.
  - destruct (truthy v && typeof_object v); [|apply visits_all_nil].
    by eapply Hchild.
Qed.

(** A loop in which one turn visits [c] once and no other turn visits
    it. *)
Lemma forEachM_once xs
    (body : jsval -> nat -> outcome (list DataTraversalContext)) c i x l :
  forEachM xs body = Returns l ->
  xs !! i = Some x ->
  (forall lx, body x i = Returns lx -> once c lx) ->
  (forall j y lj, j <> i -> xs !! j = Some y -> body y j = Returns lj ->
                  c ∉ lj) ->
  once c l.
Proof.
  unfold forEachM.
  assert (forall n l,
            (fix go (i : nat) (l : list jsval)
               : outcome (list DataTraversalContext) :=
               match l with
               | [] => Returns []
               | x :: r => andThen (body x i) (go (S i) r)
               end) n xs = Returns l ->
            (forall j y lj, xs !! j = Some y -> body y (n + j) = Returns lj ->
                            n + j <> i -> c ∉ lj) ->
            (forall k, xs !! k = Some x -> n + k = i ->
                       forall lx, body x i = Returns lx -> once c lx) ->
            (forall k, xs !! k = Some x -> n + k = i -> once c l)
            /\ ((forall k, n + k <> i \/ xs !! k = None) -> c ∉ l)) as H.
  { clear l. induction xs as [|x1 r IH]; intros n l Hl Hother Hone.
    - injection Hl as <-. split; [done|]. intros _. apply not_elem_of_nil.
    - apply andThen_Returns in Hl as (l1 & l2 & H1 & H2 & ->).
      destruct (IH (S n) l2 H2) as [IHone IHnone].
      { intros j y lj Hj Hb Hne. apply (Hother (S j) y lj); [done| |lia].
        by replace (n + S j) with (S n + j) by lia. }
      { intros k Hk Hnk. apply (Hone (S k)); [done | lia]. }
      split.
      + intros [|k] Hk Hnk.
        * injection Hk as ->. rewrite Nat.add_0_r in Hnk. subst i.
          apply once_app_l; [by apply (Hone 0); rewrite ?Nat.add_0_r|].
          apply IHnone. intros k. left. lia.
        * apply once_app_r; [|apply (IHone k); [done | lia]].
          apply (Hother 0 x1 l1); [done | by rewrite Nat.add_0_r | lia].
      + intros Hnone. apply not_elem_of_app. split.
        * apply (Hother 0 x1 l1); [done | by rewrite Nat.add_0_r|].
          by destruct (Hnone 0).
        * apply IHnone. intros k. destruct (Hnone (S k)) as [?|?];
            [left; lia | by right]. }
  intros Hl Hi Hone Hother.
  destruct (H 0 l Hl) as [Hres _].
  - intros j y lj Hj Hb Hne. by apply (Hother j y lj).
  - intros k Hk <-. exact Hone.
  - by apply (Hres i).
Qed.

(** X16. The data traversal visits the schema of the items once for each
    element of the data: on a schema node whose [items] is one schema (an
    object that is not a sequence) and data that is a sequence, the
    callback is called exactly once with the context of the element at
    index [i]: the schema of the items, the path of the node (the index is
    not added to it), the index as property name, the node as parent and
    the element as data. With a sequence of schemas as [items], it is
    called exactly once with the context of the schema at index [i] and
    the element at index [i], when both exist. *)
Theorem traverseData_visits_items m fs items dataItems i x
    currentPath propertyName parent :
  let node := VObj m fs in
  get_field "items" fs = Some items ->
  dataItems !! i = Some x ->
  exists visits,
    _traverseDataRecursive node (VArr dataItems) currentPath propertyName parent
    = Returns visits
    /\ (is_leaf items = false ->
        once (DataTraversalContext.make
                (SchemaTraversalContext.make items currentPath (Some (pretty i))
                                             (Some node)) x)
             visits)
    /\ (forall itemSchemas itemSchema,
          items = VArr itemSchemas ->
          itemSchemas !! i = Some itemSchema ->
          typeof_object itemSchema = true -> is_null itemSchema = false ->
          once (DataTraversalContext.make
                  (SchemaTraversalContext.make itemSchema currentPath
                                               (Some (pretty i)) (Some node))
                  x)
               visits).
Proof.
  intros node Hitems Hx.
  destruct (proj1 (_traverseDataRecursive_returns node) (VArr dataItems)
              currentPath propertyName parent) as [visits Hv].
  exists visits. split; [done|].
  pose proof (get_field_elem_of _ _ _ Hitems) as Hin.
  pose proof (jsize_field m fs "items" items Hin) as Hsize. fold node in Hsize.
  unfold node in Hv.
  rewrite _traverseDataRecursive_not_mapping in Hv by done. cbn zeta in Hv.
  apply andThen_Returns in Hv as (l0 & l1 & [= <-] & Hv & ->).
  apply andThen_Returns in Hv as (li & l3 & Hi & H3 & ->).
  rewrite (on_data_keyword_present m fs (VArr dataItems) "items" _ _ Hitems)
    in Hi by done.
  unfold _handleDataItems in Hi.
  rewrite with_prop_get_field, Hitems in Hi.
  assert (forall c,
            DataTraversalContext.parentSchemaNode c = Some node ->
            DataTraversalContext.propertyName c = Some (pretty i) ->
            jsize (DataTraversalContext.schemaNode c) < jsize node ->
            once c li -> once c ([DataTraversalContext.make
                                    (SchemaTraversalContext.make node currentPath
                                       propertyName parent)
                                    (VArr dataItems)] ++ li ++ l3)) as Hwhole.
  { intros c Hpar Hname Hsz Honce. cbn [app]. apply once_cons.
    - intros ->. cbn in Hsz. lia.
    - apply once_app_l; [done|].
      apply (visits_all_notin c _ l3
               (same_data_visits_other m fs (VArr dataItems) currentPath c Hpar
                  ltac:(by rewrite Hname)) H3). }
  split.
  - intros Hleaf. apply Hwhole; try done.
    destruct items as [| | | | | |im ifs]; try done. cbn [truthy] in Hi.
    apply (forEachM_once dataItems _ _ i x li Hi Hx).
    + intros lx Hlx. by apply (sub_traversal_once node) in Hlx.
    + intros j y lj Hne Hy Hlj.
      eapply visits_all_notin; [|exact Hlj].
      apply (visits_all_other node); [exact Hsize | done|].
      by intros [= ?%(inj pretty)].
  - intros itemSchemas itemSchema -> Hschema Hobj Hnull.
    pose proof (jsize_elem itemSchema itemSchemas
                  (list_elem_of_lookup_2 _ _ _ Hschema)) as Hsz.
    apply Hwhole;
      [done | done | change (jsize itemSchema < jsize node); lia|].
    cbn [truthy] in Hi.
    apply (forEachM_once itemSchemas _ _ i itemSchema li Hi Hschema).
    + intros lx.
      assert (i < length dataItems) as Hlt by (by eapply lookup_lt_Some).
      apply Nat.ltb_lt in Hlt. rewrite Hlt.
      rewrite (nth_lookup_Some dataItems i VUndef x Hx).
      intros Hlx. apply (sub_traversal_once node) in Hlx; [done| |done..].
      lia.
    + intros j y lj Hne Hy.
      destruct (j <? length dataItems)%nat;
        [|intros [= <-]; apply not_elem_of_nil].
      intros Hlj.
      pose proof (jsize_elem y itemSchemas (list_elem_of_lookup_2 _ _ _ Hy))
        as Hszy.
      eapply visits_all_notin; [|exact Hlj].
      apply (visits_all_other node); [lia | done|].
      by intros [= ?%(inj pretty)].
Qed.

Lemma traverseData_visits_items_witness :
  let schema :=
    VObj None [("type", VStr "array");
               ("items", VObj None [("type", VStr "number")])] in
  exists visits,
    traverseData schema (VArr [VNum 10; VNum 20]) = Returns visits
    /\ once (DataTraversalContext.make
              (SchemaTraversalContext.make (VObj None [("type", VStr "number")])
                 [] (Some "1") (Some schema))
              (VNum 20)) visits.
Proof.
  intros schema.
  destruct (traverseData_visits_items None
              [("type", VStr "array");
               ("items", VObj None [("type", VStr "number")])]
              (VObj None [("type", VStr "number")])
              [VNum 10; VNum 20] 1 (VNum 20) [] None None eq_refl eq_refl)
    as (visits & Hv & Hone & _).
  exists visits. split; [exact Hv | by apply Hone].
Defined.

(** ** The annotations of [enrichSchema] *)

Lemma schemaUI_set_lookup kc v (ui : gmap string jsval) key :
  key <> "__proto__" ->
  schemaUI_set kc v ui !! key = if decide (kc = key) then Some v else ui !! key.
Proof.
  intros Hkey. unfold schemaUI_set.
  destruct (String.eqb_spec kc "__proto__") as [->|Hkc]; simpl.
  - destruct (decide ("__proto__" = key)) as [<-|Hne]; [done|].
    destruct (negb _); [done | by rewrite lookup_insert_ne].
  - destruct (decide (kc = key)) as [->|Hne];
      [by rewrite lookup_insert_eq | by rewrite lookup_insert_ne].
Qed.

Lemma schemaUI_set_proto kc v (ui : gmap string jsval) :
  ui !! "__proto__" = None -> schemaUI_set kc v ui !! "__proto__" = None.
Proof.
  intros Hui. unfold schemaUI_set.
  destruct (String.eqb_spec kc "__proto__") as [->|Hkc]; simpl.
  - rewrite Hui. by rewrite bool_decide_eq_false_2 by (by intros [? [=]]).
  - by rewrite lookup_insert_ne.
Qed.

(** What the callback of [enrichSchema] writes for a context: the
    annotation of the own entry of [metadata] at the key of the path, or
    the one of the inherited member. *)
Lemma enrichVisitor_lookup md ui c key :
  key <> "__proto__" ->
  enrichVisitor md ui c !! key
  = if decide (Array_join "." (DataTraversalContext.path c) = key)
    then match md !! key with
         | Some metadataForPath => Some (widget metadataForPath)
         | None => if inherited key then Some inherited_widget else ui !! key
         end
    else ui !! key.
Proof.
  intros Hkey. unfold enrichVisitor.
  set (kc := Array_join "." (DataTraversalContext.path c)).
  destruct (decide (kc = key)) as [<-|Hne].
  - destruct (md !! kc); [|destruct (inherited kc); [|done]];
      rewrite schemaUI_set_lookup by done; by destruct (decide (kc = kc)).
  - destruct (md !! kc); [|destruct (inherited kc); [|done]];
      rewrite schemaUI_set_lookup by done; by destruct (decide (kc = key)).
Qed.

Lemma enrichVisitor_proto md ui c :
  ui !! "__proto__" = None -> enrichVisitor md ui c !! "__proto__" = None.
Proof.
  intros Hui. unfold enrichVisitor.
  destruct (md !! _); [|destruct (inherited _); [|done]];
    by apply schemaUI_set_proto.
Qed.

Lemma fold_enrichVisitor_lookup md visits : forall ui key,
  key <> "__proto__" ->
  fold_left (enrichVisitor md) visits ui !! key
  = if decide (Exists (fun c => Array_join "." (DataTraversalContext.path c)
                                = key) visits)
    then match md !! key with
         | Some metadataForPath => Some (widget metadataForPath)
         | None => if inherited key then Some inherited_widget else ui !! key
         end
    else ui !! key.
Proof.
  induction visits as [|c r IH]; intros ui key Hkey.
  - cbn [fold_left].
    destruct (decide _) as [H|]; [by apply Exists_nil in H | done].
  - cbn [fold_left]. rewrite IH, enrichVisitor_lookup by done.
    set (kc := Array_join "." (DataTraversalContext.path c)).
    destruct (decide (Exists _ r)) as [Hr|Hr].
    + destruct (decide (Exists _ (c :: r))) as [|Hn];
        [|exfalso; apply Hn; by right].
      destruct (md !! key) as [mk|]; [done|].
      destruct (inherited key); [done|]. by destruct (decide (kc = key)).
    + destruct (decide (kc = key)) as [Heq|Hne].
      * destruct (decide (Exists _ (c :: r))) as [|Hn];
          [done | exfalso; apply Hn; by left].
      * destruct (decide (Exists _ (c :: r))) as [He|_]; [|done].
        apply Exists_cons in He as [He|He]; done.
Qed.

Lemma fold_enrichVisitor_proto md visits : forall ui,
  ui !! "__proto__" = None ->
  fold_left (enrichVisitor md) visits ui !! "__proto__" = None.
Proof.
  induction visits as [|c r IH]; intros ui Hui; [done|].
  cbn [fold_left]. by apply IH, enrichVisitor_proto.
Qed.

(** X17. [enrichSchema] on a list of values other than [null] and
    [undefined] returns, with the schema it was given and the merged
    value of [mergeAllWithMetadata]. Its [schemaUI] is the given one
    where, for each path that the data traversal of the schema visits, the
    key of the path (its segments joined with ['.']) holds the annotation
    of the entry of the metadata for that key; where the metadata has no
    entry, a key that is the name of a member of [Object.prototype] holds
    the annotation of that member (no source, no value), and any other key
    is as it was. The keys of the paths that are not visited are as they
    were, and a [schemaUI] that does not own [__proto__] still does not. *)
Theorem enrichSchema_schemaUI schema schemaUI jsonArray :
  Forall (fun json => nullish json = false) jsonArray ->
  let r := mergeAllWithMetadata
             (map (fun json => SourceObject.make (prop "id" json) json)
                  jsonArray) noMergeOptions in
  exists visits result,
    traverseData schema (mergedObject r) = Returns visits
    /\ enrichSchema schema schemaUI jsonArray = Returns result
    /\ EnrichResult.schema result = schema
    /\ EnrichResult.mergedJson result = mergedObject r
    /\ (forall key,
          key <> "__proto__" ->
          EnrichResult.schemaUI result !! key
          = if decide (Exists (fun c =>
                                 Array_join "." (DataTraversalContext.path c)
                                 = key) visits)
            then match metadata r !! key with
                 | Some metadataForPath => Some (widget metadataForPath)
                 | None => if inherited key then Some inherited_widget
                           else schemaUI !! key
                 end
            else schemaUI !! key)
    /\ (schemaUI !! "__proto__" = None ->
        EnrichResult.schemaUI result !! "__proto__" = None).
Proof.
  intros Hjson r.
  destruct (traverseData_returns schema (mergedObject r)) as [visits Hv].
  exists visits. eexists. split; [done|].
  unfold enrichSchema. rewrite sourceObjectsOf_Returns by done.
  cbn [bind]. fold r. rewrite Hv. cbn [bind].
  split; [done|]. split; [done|]. split; [done|].
  cbn [EnrichResult.schemaUI]. split.
  - intros key Hkey. by apply fold_enrichVisitor_lookup.
  - apply fold_enrichVisitor_proto.
Qed.

Lemma enrichSchema_schemaUI_witness :
  let schema :=
    VObj None [("type", VStr "object");
               ("properties",
                VObj None [("name", VObj None [("type", VStr "string")])])] in
  let jsonArray := [VObj None [("id", VStr "1"); ("name", VStr "Alice")]] in
  exists result,
    enrichSchema schema ∅ jsonArray = Returns result
    /\ EnrichResult.schema result = schema.
Proof.
  intros schema jsonArray.
  destruct (enrichSchema_schemaUI schema ∅ jsonArray)
    as (visits & result & _ & Hr & Hs & _).
  - by repeat constructor.
  - by exists result.
Defined.

(** ** The objects of a merge *)

(** X18. The result of [merge] and of [mergeAll] shares no object with the
    inputs: with the identity of objects, every object of the result, at
    any depth, is created by the call (its location is not below the
    counter at the start of the call), and without the locations the
    result is the value of [merge] or [mergeAll]. *)
Theorem merge_result_is_fresh (options : MergeOptions) (next : Ref.loc) :
  (forall obj1 obj2 : Ref.rval,
     let r := fst (Ref.merge obj1 obj2 options next) in
     Ref.erase r = merge (Ref.erase obj1) (Ref.erase obj2) options
     /\ Ref.created_since next r)
  /\ (forall objects : list Ref.rval,
        let r := fst (Ref.mergeAll objects options next) in
        Ref.erase r = mergeAll (map Ref.erase objects) options
        /\ Ref.created_since next r).
Proof.
  split.
  - intros obj1 obj2.
    by destruct (ref_merge_spec options next obj1 obj2 next (le_n _)).
  - intros objects.
    by destruct (ref_mergeAll_spec options next objects next (le_n _)).
Qed.

(** ** Nested properties *)

Lemma for_in_obj_elem {A} m fs (body : string -> jsval -> list A) k x c :
  (k, x) ∈ fs -> c ∈ body k x -> c ∈ for_in (VObj m fs) body.
Proof.
  simpl. induction fs as [|[k1 x1] r IH]; intros Hin Hc.
  - by apply elem_of_nil in Hin.
  - simpl. apply elem_of_app.
    apply elem_of_cons in Hin as [[= <- <-]|Hin]; [by left | right; auto].
Qed.

Lemma schema_at_cons k ks schema sub :
  schema_at (k :: ks) schema = Some sub ->
  exists m fs pm pfs child,
    schema = VObj m fs
    /\ get_field "properties" fs = Some (VObj pm pfs)
    /\ get_field k pfs = Some child
    /\ schema_at ks child = Some sub.
Proof.
  simpl. destruct schema as [| | | | | |m fs]; try done.
  destruct (get_field "properties" fs) as [[| | | | | |pm pfs]|] eqn:Hp;
    try done.
  destruct (get_field k pfs) as [child|] eqn:Hc; [|done].
  intros H. by exists m, fs, pm, pfs, child.
Qed.

Lemma schema_at_visit ks :
  forall node currentPath propertyName parent sub,
    schema_at ks node = Some sub ->
    typeof_object sub = true -> is_null sub = false ->
    exists c,
      c ∈ _traverseSchemaRecursive node currentPath propertyName parent
      /\ SchemaTraversalContext.schemaNode c = sub
      /\ SchemaTraversalContext.path c = currentPath ++ ks
      /\ SchemaTraversalContext.propertyName c
         = match last ks with Some k => Some k | None => propertyName end.
Proof.
  induction ks as [|k ks IH];
    intros node currentPath propertyName parent sub Hat Hobj Hnull.
  - injection Hat as ->.
    destruct (_traverseSchemaRecursive_head sub currentPath propertyName
                parent Hobj Hnull) as [tail ->].
    eexists. split; [left|]. by rewrite app_nil_r.
  - apply schema_at_cons in Hat
      as (m & fs & pm & pfs & child & -> & Hprops & Hchild & Hat).
    destruct (IH child (currentPath ++ [k]) (Some k) (Some (VObj m fs)) sub
                Hat Hobj Hnull) as (c & Hc & Hnode & Hpath & Hname).
    exists c. split; [|split; [done|split]].
    + cbn [_traverseSchemaRecursive typeof_object is_null negb orb].
      right. apply elem_of_app. left.
      rewrite on_keyword_get_field, Hprops.
      rewrite bool_decide_eq_true_2 by (by eexists).
      unfold _handleSchemaProperties.
      rewrite with_prop_get_field, Hprops. cbn [truthy].
      apply (for_in_obj_elem pm pfs _ k child); [|done].
      by apply get_field_elem_of.
    + by rewrite Hpath, <- app_assoc.
    + rewrite Hname. rewrite last_cons. by destruct (last ks).
Qed.

(** X19. The schema traversal visits every nested property with the list
    of its keys as path: the schema found from the root along the keys
    [ks], each looked up in [properties], is visited, when it is an
    object, with the path [ks] and the last key as property name. *)
Theorem traverseSchema_visits_nested_properties ks schema sub :
  schema_at ks schema = Some sub ->
  typeof_object sub = true -> is_null sub = false ->
  exists c,
    c ∈ traverseSchema schema
    /\ SchemaTraversalContext.schemaNode c = sub
    /\ SchemaTraversalContext.path c = ks
    /\ SchemaTraversalContext.propertyName c = last ks.
Proof.
  intros Hat Hobj Hnull.
  destruct (schema_at_visit ks schema [] None None sub Hat Hobj Hnull)
    as (c & Hc & Hnode & Hpath & Hname).
  exists c. split; [done|]. split; [done|]. split; [done|].
  rewrite Hname. by destruct (last ks).
Qed.

Lemma traverseSchema_visits_nested_properties_witness :
  let leaf := VObj None [("type", VStr "string")] in
  let schema :=
    VObj None
      [("properties",
        VObj None
          [("address",
            VObj None [("properties", VObj None [("city", leaf)])])])] in
  exists c,
    c ∈ traverseSchema schema
    /\ SchemaTraversalContext.schemaNode c = leaf
    /\ SchemaTraversalContext.path c = ["address"; "city"]
    /\ SchemaTraversalContext.propertyName c = Some "city".
Proof.
  intros leaf schema.
  by apply (traverseSchema_visits_nested_properties ["address"; "city"]
              schema leaf).
Defined.

Lemma data_schema_at_visit ks :
  forall node dataValue currentPath propertyName parent sub x,
    schema_at ks node = Some sub ->
    typeof_object sub = true -> is_null sub = false ->
    lookup_path ks dataValue = Some x ->
    exists visits c,
      _traverseDataRecursive node dataValue currentPath propertyName parent
      = Returns visits
      /\ c ∈ visits
      /\ DataTraversalContext.schemaNode c = sub
      /\ DataTraversalContext.path c = currentPath ++ ks
      /\ DataTraversalContext.dataValue c = x.
Proof.
  induction ks as [|k ks IH];
    intros node dataValue currentPath propertyName parent sub x
           Hat Hobj Hnull Hx.
  - injection Hat as ->. injection Hx as ->.
    destruct (_traverseDataRecursive_head sub x currentPath propertyName
                parent Hobj Hnull) as [tail ->].
    eexists _, _. split; [done|]. split; [left|].
    by rewrite app_nil_r.
  - apply schema_at_cons in Hat
      as (m & fs & pm & pfs & child & -> & Hprops & Hchild & Hat).
    destruct dataValue as [| | | | | |dm dfs]; try done.
    simpl in Hx. destruct (get_field k dfs) as [y|] eqn:Hy; [|done].
    destruct (IH child y (currentPath ++ [k]) (Some k) (Some (VObj m fs)) sub x
                Hat Hobj Hnull Hx)
      as (visits_c & c & Hvc & Hc & Hnode & Hpath & Hdata).
    destruct (proj1 (_traverseDataRecursive_returns (VObj m fs)) (VObj dm dfs)
                currentPath propertyName parent) as [visits Hv].
    exists visits, c. split; [done|].
    split; [|split; [done|split; [by rewrite Hpath, <- app_assoc | done]]].
    cbn [_traverseDataRecursive typeof_object is_null negb orb] in Hv.
    apply andThen_Returns in Hv as (l0 & l1 & _ & Hv & ->).
    apply andThen_Returns in Hv as (lp & l2 & Hp & _ & ->).
    apply elem_of_app. right. apply elem_of_app. left.
    rewrite (on_data_keyword_present m fs (VObj dm dfs) "properties" _ _ Hprops)
      in Hp by done.
    unfold _handleDataProperties in Hp.
    rewrite with_prop_get_field, Hprops in Hp. cbn [truthy] in Hp.
    eapply (for_inM_obj_elem pm pfs _ lp k child);
      [exact Hp | by apply get_field_elem_of | | exact Hc].
    cbn beta. unfold prop. rewrite Hy. exact Hvc.
Qed.

(** X20. The data traversal visits every nested property that the data
    holds, with its value: when the schema has, along the keys [ks] through
    [properties], a schema that is an object, and the data has a value
    along the same keys, the schema is visited with the path [ks] and that
    value. *)
Theorem traverseData_visits_nested_properties ks schema data sub x :
  schema_at ks schema = Some sub ->
  typeof_object sub = true -> is_null sub = false ->
  lookup_path ks data = Some x ->
  exists visits c,
    traverseData schema data = Returns visits
    /\ c ∈ visits
    /\ DataTraversalContext.schemaNode c = sub
    /\ DataTraversalContext.path c = ks
    /\ DataTraversalContext.dataValue c = x.
Proof. apply (data_schema_at_visit ks schema data [] None None). Qed.

Lemma traverseData_visits_nested_properties_witness :
  let leaf := VObj None [("type", VStr "string")] in
  let schema :=
    VObj None
      [("properties",
        VObj None
          [("address",
            VObj None [("properties", VObj None [("city", leaf)])])])] in
  let data := VObj None [("address", VObj None [("city", VStr "Paris")])] in
  exists visits c,
    traverseData schema data = Returns visits
    /\ c ∈ visits
    /\ DataTraversalContext.schemaNode c = leaf
    /\ DataTraversalContext.path c = ["address"; "city"]
    /\ DataTraversalContext.dataValue c = VStr "Paris".
Proof.
  intros leaf schema data.
  by apply (traverseData_visits_nested_properties ["address"; "city"]
              schema data leaf (VStr "Paris")).
Defined.

(** X21. [enrichSchema] annotates the properties, nested ones too. For
    input mappings whose keys (those met through mappings) are not empty,
    hold no ['.'] and are not [__proto__], and whose [id] is a scalar, a
    property that the schema has along the keys [ks] through
    [properties], with a schema that is an object, and that the merged
    value holds along the same keys,
    gets under the key of its path an annotation whose [inheritedValue] is
    a clone of the merged value of the property and whose [sourceIds] is
    the one-element sequence of the [id] of the last input that holds,
    along [ks], a value other than [undefined]. *)
Theorem enrichSchema_annotates_nested schema schemaUI jsonArray ks sub x :
  let sources :=
    map (fun json => SourceObject.make (prop "id" json) json) jsonArray in
  let r := mergeAllWithMetadata sources noMergeOptions in
  Forall (fun json => is_leaf json = false /\ wf json /\ goodkeys json = true
                      /\ scalar (prop "id" json) = true) jsonArray ->
  ks <> [] ->
  schema_at ks schema = Some sub ->
  typeof_object sub = true -> is_null sub = false ->
  lookup_path ks (mergedObject r) = Some x ->
  exists result w,
    enrichSchema schema schemaUI jsonArray = Returns result
    /\ last_writer ks sources = Some w
    /\ EnrichResult.schemaUI result !! Array_join "." ks
       = Some (VObj None
                 [("widget",
                   VObj None [("sourceIds", VArr [w]);
                              ("inheritedValue", cloneDeep x)])]).
Proof.
  intros sources r Hall Hne Hat Hobj Hnull Hx.
  assert (Forall good_source sources) as Hgood.
  { unfold sources. apply Forall_fmap. eapply Forall_impl; [exact Hall|].
    by intros json (_ & ? & ? & _). }
  assert (Forall (fun s => scalar (SourceObject.id s) = true) sources) as Hids.
  { unfold sources. apply Forall_fmap. eapply Forall_impl; [exact Hall|].
    by intros json (_ & _ & _ & ?). }
  destruct (merge_invariant_all noMergeOptions sources Hgood)
    as (_ & (Hkeys & _) & _ & Hmd). fold r in Hmd, Hkeys.
  pose proof (Hkeys ks x Hx) as Hks.
  destruct (Hmd ks x Hne Hx) as (md & Hmdk & Hval).
  destruct (last_writer_invariant noMergeOptions sources Hgood Hids ks Hne Hks)
    as [Hlw _]. fold r in Hlw. rewrite Hmdk in Hlw. simpl in Hlw.
  rewrite (pathOf_join ks Hks) in Hmdk.
  destruct (data_schema_at_visit ks schema (mergedObject r) [] None None sub x
              Hat Hobj Hnull Hx) as (visits & c & Hv & Hc & _ & Hpath & _).
  exists (EnrichResult.make schema
            (fold_left (enrichVisitor (metadata r)) visits schemaUI)
            (mergedObject r)), (sourceId md).
  unfold enrichSchema. rewrite sourceObjectsOf_Returns.
  2:{ eapply Forall_impl; [exact Hall|]. intros json (Hleaf & _).
      by destruct json. }
  cbn [bind]. fold sources. fold r. unfold traverseData. rewrite Hv.
  cbn [bind]. split; [done|]. split; [done|].
  cbn [EnrichResult.schemaUI].
  rewrite fold_enrichVisitor_lookup, Hmdk by (by apply Array_join_proto).
  destruct (decide _) as [_|Hno].
  - unfold widget. rewrite Hval.
    assert (isArray (sourceId md) = false) as ->; [|done].
    pose proof (last_writer_scalar ks sources (sourceId md) Hids
                  (eq_sym Hlw)) as Hs.
    by destruct (sourceId md).
  - exfalso. apply Hno. apply Exists_exists. exists c. split; [done|].
    by rewrite Hpath.
Qed.

Lemma enrichSchema_annotates_nested_witness :
  let leaf := VObj None [("type", VStr "string")] in
  let schema :=
    VObj None
      [("properties",
        VObj None
          [("address",
            VObj None [("properties", VObj None [("city", leaf)])])])] in
  let jsonArray :=
    [VObj None [("id", VStr "1");
                ("address", VObj None [("city", VStr "Paris")])];
     VObj None [("id", VStr "2");
                ("address", VObj None [("zip", VStr "75001")])]] in
  exists result w,
    enrichSchema schema ∅ jsonArray = Returns result
    /\ last_writer ["address"; "city"]
         (map (fun json => SourceObject.make (prop "id" json) json) jsonArray)
       = Some w
    /\ EnrichResult.schemaUI result !! "address.city"
       = Some (VObj None
                 [("widget",
                   VObj None [("sourceIds", VArr [w]);
                              ("inheritedValue", VStr "Paris")])]).
Proof.
  intros leaf schema jsonArray.
  refine (enrichSchema_annotates_nested schema ∅ jsonArray
            ["address"; "city"] leaf (VStr "Paris") _ _ eq_refl eq_refl
            eq_refl eq_refl).
  - repeat (apply Forall_cons_2;
            [split; [reflexivity|split; [|split; reflexivity]];
             simpl; repeat split; by apply (bool_decide_unpack (NoDup _))|]).
    apply Forall_nil_2.
  - done.
Defined.

(** ** Combiners, conditionals and dependent schemas with their data *)

Lemma _traverseDataRecursive_parts m fs dataValue currentPath propertyName
    parent visits :
  let node := VObj m fs in
  let traverse := _traverseDataRecursive in
  _traverseDataRecursive node dataValue currentPath propertyName parent
  = Returns visits ->
  forall keyword handler,
    (keyword, handler)
    ∈ [("properties", _handleDataProperties);
       ("items", _handleDataItems);
       ("allOf", _handleDataCombiner "allOf");
       ("anyOf", _handleDataCombiner "anyOf");
       ("oneOf", _handleDataCombiner "oneOf");
       ("not", _handleDataNot);
       ("if", _handleDataConditional "if");
       ("then", _handleDataConditional "then");
       ("else", _handleDataConditional "else");
       ("dependentSchemas", _handleDataDependentSchemas)] ->
    exists l,
      on_data_keyword node dataValue keyword
        (handler node dataValue currentPath node traverse) = Returns l
      /\ forall c, c ∈ l -> c ∈ visits.
Proof.
  intros node traverse Hv keyword handler Hin.
  cbn [_traverseDataRecursive typeof_object is_null negb orb node] in Hv.
  apply andThen_Returns in Hv as (l0 & r0 & _ & Hv & ->).
  apply andThen_Returns in Hv as (l1 & r1 & H1 & Hv & ->).
  apply andThen_Returns in Hv as (l2 & r2 & H2 & Hv & ->).
  apply andThen_Returns in Hv as (l3 & r3 & H3 & Hv & ->).
  apply andThen_Returns in Hv as (l4 & r4 & H4 & Hv & ->).
  apply andThen_Returns in Hv as (l5 & r5 & H5 & Hv & ->).
  apply andThen_Returns in Hv as (l6 & r6 & H6 & Hv & ->).
  apply andThen_Returns in Hv as (l7 & r7 & H7 & Hv & ->).
  apply andThen_Returns in Hv as (l8 & r8 & H8 & Hv & ->).
  apply andThen_Returns in Hv as (l9 & l10 & H9 & H10 & ->).
  repeat (apply elem_of_cons in Hin as [[= -> ->]|Hin];
          [eexists; split; [eassumption|];
           intros c Hc; rewrite !elem_of_app; tauto|]).
  by apply elem_of_nil in Hin.
Qed.

(** X22. The data traversal passes the data of a node on to the schemas of
    its combiners and conditionals: every element of [allOf], [anyOf] or
    [oneOf] that is an object, and the schema under [not], [if], [then] or
    [else] when it is an object, is visited with the path and the data of
    the node, whatever the data. *)
Theorem traverseData_visits_combiners m fs keyword dataValue currentPath
    propertyName parent :
  let node := VObj m fs in
  exists visits,
    _traverseDataRecursive node dataValue currentPath propertyName parent
    = Returns visits
    /\ (forall subSchemas i sub,
          keyword ∈ ["allOf"; "anyOf"; "oneOf"] ->
          get_field keyword fs = Some (VArr subSchemas) ->
          subSchemas !! i = Some sub ->
          typeof_object sub = true -> is_null sub = false ->
          DataTraversalContext.make
            (SchemaTraversalContext.make sub currentPath None (Some node))
            dataValue ∈ visits)
    /\ (forall sub,
          keyword ∈ ["not"; "if"; "then"; "else"] ->
          get_field keyword fs = Some sub ->
          typeof_object sub = true -> is_null sub = false ->
          DataTraversalContext.make
            (SchemaTraversalContext.make sub currentPath None (Some node))
            dataValue ∈ visits).
Proof.
  intros node; subst node.
  destruct (proj1 (_traverseDataRecursive_returns (VObj m fs)) dataValue currentPath
              propertyName parent) as [visits Hv].
  exists visits. split; [done|].
  pose proof (_traverseDataRecursive_parts m fs dataValue currentPath
                propertyName parent visits Hv) as Hparts.
  split.
  - intros subSchemas i sub Hkw Hget Hi Hobj Hnull.
    destruct (_traverseDataRecursive_head sub dataValue currentPath None
                (Some (VObj m fs)) Hobj Hnull) as [tail Htail].
    assert (exists l,
              on_data_keyword (VObj m fs) dataValue keyword
                (_handleDataCombiner keyword (VObj m fs) dataValue currentPath (VObj m fs)
                   _traverseDataRecursive) = Returns l
              /\ forall c, c ∈ l -> c ∈ visits) as (l & Hl & Hsub).
    { repeat (apply elem_of_cons in Hkw as [->|Hkw];
              [apply Hparts; set_solver|]).
      by apply elem_of_nil in Hkw. }
    apply Hsub.
    assert (_isDataCompatible keyword (VObj m fs) dataValue = true) as Hcompat.
    { repeat (apply elem_of_cons in Hkw as [->|Hkw]; [done|]).
      by apply elem_of_nil in Hkw. }
    rewrite (on_data_keyword_present m fs dataValue keyword _ _ Hget Hcompat)
      in Hl.
    unfold _handleDataCombiner in Hl. rewrite with_prop_get_field, Hget in Hl.
    eapply (forEachM_elem subSchemas _ l i sub); [exact Hl | done | |].
    + exact Htail.
    + left.
  - intros sub Hkw Hget Hobj Hnull.
    destruct (_traverseDataRecursive_head sub dataValue currentPath None
                (Some (VObj m fs)) Hobj Hnull) as [tail Htail].
    assert (truthy sub && typeof_object sub = true) as Htruthy
      by (by destruct sub).
    apply elem_of_cons in Hkw as [->|Hkw].
    { destruct (Hparts "not" _handleDataNot) as (l & Hl & Hsub);
        [set_solver|].
      apply Hsub.
      rewrite (on_data_keyword_present m fs dataValue "not" _ _ Hget) in Hl
        by done.
      unfold _handleDataNot in Hl.
      rewrite with_prop_get_field, Hget, Htruthy in Hl.
      rewrite Htail in Hl. injection Hl as <-. left. }
    assert (exists l,
              on_data_keyword (VObj m fs) dataValue keyword
                (_handleDataConditional keyword (VObj m fs) dataValue currentPath
                   (VObj m fs) _traverseDataRecursive) = Returns l
              /\ forall c, c ∈ l -> c ∈ visits) as (l & Hl & Hsub).
    { repeat (apply elem_of_cons in Hkw as [->|Hkw];
              [apply Hparts; set_solver|]).
      by apply elem_of_nil in Hkw. }
    apply Hsub.
    assert (_isDataCompatible keyword (VObj m fs) dataValue = true) as Hcompat.
    { repeat (apply elem_of_cons in Hkw as [->|Hkw]; [done|]).
      by apply elem_of_nil in Hkw. }
    rewrite (on_data_keyword_present m fs dataValue keyword _ _ Hget Hcompat)
      in Hl.
    unfold _handleDataConditional in Hl.
    rewrite with_prop_get_field, Hget, Htruthy in Hl.
    rewrite Htail in Hl. injection Hl as <-. left.
Qed.

Lemma traverseData_visits_combiners_witness :
  let sub := VObj None [("minLength", VNum 1)] in
  let node := VObj None [("type", VStr "string"); ("allOf", VArr [sub])] in
  exists visits,
    traverseData node (VStr "x") = Returns visits
    /\ DataTraversalContext.make
         (SchemaTraversalContext.make sub [] None (Some node)) (VStr "x")
       ∈ visits.
Proof.
  intros sub node.
  destruct (traverseData_visits_combiners None
              [("type", VStr "string"); ("allOf", VArr [sub])] "allOf"
              (VStr "x") [] None None) as (visits & Hv & Hcomb & _).
  exists visits. split; [exact Hv|].
  apply (Hcomb [sub] 0 sub); try reflexivity. set_solver.
Defined.

Lemma for_inM_obj_nil {A} m fs (body : string -> jsval -> outcome (list A)) :
  (forall k x, (k, x) ∈ fs -> body k x = Returns []) ->
  for_inM (VObj m fs) body = Returns [].
Proof.
  simpl. induction fs as [|[k x] r IH]; intros H; [done|].
  cbn [fst snd]. rewrite (H k x) by left. rewrite IH; [done|].
  intros k' x' Hin. apply H. by right.
Qed.

(** X23. The data traversal follows [dependentSchemas] by the keys of the
    data: on data that is a mapping, the schema of a key of
    [dependentSchemas] that is an object is visited, with the path and the
    data of the node, when the data owns the key; when the data owns none
    of the keys, the keyword gives no visit. *)
Theorem traverseData_dependentSchemas m fs gm gfs dm dfs currentPath
    propertyName parent :
  let node := VObj m fs in
  let dataValue := VObj dm dfs in
  get_field "dependentSchemas" fs = Some (VObj gm gfs) ->
  exists visits,
    _traverseDataRecursive node dataValue currentPath propertyName parent
    = Returns visits
    /\ (forall key sub,
          (key, sub) ∈ gfs ->
          hasOwnProperty dataValue key = true ->
          typeof_object sub = true -> is_null sub = false ->
          DataTraversalContext.make
            (SchemaTraversalContext.make sub currentPath None (Some node))
            dataValue ∈ visits)
    /\ ((forall key sub, (key, sub) ∈ gfs ->
                         hasOwnProperty dataValue key = false) ->
        _handleDataDependentSchemas node dataValue currentPath node
          _traverseDataRecursive = Returns []).
Proof.
  intros node dataValue Hdeps; subst node dataValue.
  destruct (proj1 (_traverseDataRecursive_returns (VObj m fs)) (VObj dm dfs) currentPath
              propertyName parent) as [visits Hv].
  exists visits. split; [done|]. split.
  - intros key sub Hin Hown Hobj Hnull.
    destruct (_traverseDataRecursive_parts m fs (VObj dm dfs) currentPath
                propertyName parent visits Hv "dependentSchemas"
                _handleDataDependentSchemas) as (l & Hl & Hsub);
      [set_solver|].
    apply Hsub.
    rewrite (on_data_keyword_present m fs (VObj dm dfs) "dependentSchemas" _ _
               Hdeps) in Hl by done.
    unfold _handleDataDependentSchemas in Hl.
    rewrite with_prop_get_field, Hdeps in Hl. cbn [truthy] in Hl.
    destruct (_traverseDataRecursive_head sub (VObj dm dfs) currentPath None
                (Some (VObj m fs)) Hobj Hnull) as [tail Htail].
    eapply (for_inM_obj_elem gm gfs _ l key sub); [exact Hl | done | |].
    + cbn beta. rewrite Hown. exact Htail.
    + left.
  - intros Hnone. unfold _handleDataDependentSchemas.
    rewrite with_prop_get_field, Hdeps. cbn [truthy].
    apply for_inM_obj_nil. intros k x Hin.
    by rewrite (Hnone k x Hin).
Qed.

Lemma traverseData_dependentSchemas_witness :
  let sub := VObj None [("required", VArr [VStr "billing"])] in
  let node := VObj None [("dependentSchemas", VObj None [("card", sub)])] in
  let data := VObj None [("card", VStr "1234")] in
  exists visits,
    traverseData node data = Returns visits
    /\ DataTraversalContext.make
         (SchemaTraversalContext.make sub [] None (Some node)) data ∈ visits.
Proof.
  intros sub node data.
  destruct (traverseData_dependentSchemas None
              [("dependentSchemas", VObj None [("card", sub)])]
              None [("card", sub)] None [("card", VStr "1234")]
              [] None None eq_refl) as (visits & Hv & Hdep & _).
  exists visits. split; [exact Hv|].
  apply (Hdep "card" sub); try reflexivity. left.
Defined.

(** ** Diff, then merge *)

Lemma keys_within_obj m fa m' fb :
  keys_within (VObj m fa) (VObj m' fb) = true
  <-> forall k v, (k, v) ∈ fa ->
        exists w, get_field k fb = Some w /\ keys_within v w = true.
Proof.
  simpl. induction fa as [|[k v] r IH].
  - split; [|done]. intros _ k v H. by apply elem_of_nil in H.
  - rewrite andb_true_iff, IH. cbn [fst snd]. split.
    + intros [H1 H2] k' v' [[= -> ->]|H]%elem_of_cons; [|by apply H2].
      destruct (get_field k fb) as [w|]; [by exists w | done].
    + intros H. split.
      * destruct (H k v) as (w & -> & Hw); [left | done].
      * intros k' v' Hin. apply H. by right.
Qed.

Lemma keys_within_proto m fa m' fb :
  keys_within (VObj m fa) (VObj m' fb) = true ->
  "__proto__" ∉ keys fb -> "__proto__" ∉ keys fa.
Proof.
  intros Hkeys Hpb [v Hv%get_field_elem_of]%get_field_is_Some.
  destruct (proj1 (keys_within_obj m fa m' fb) Hkeys _ _ Hv) as (w & Hw & _).
  apply Hpb, get_field_is_Some. by eexists.
Qed.

Lemma diff_loop_NoDup options fa fb :
  NoDup (keys (_diffObjects_loop (_diffValues options) fa fb)).
Proof.
  unfold _diffObjects_loop, _diffObjects_added. cbn zeta.
  assert (forall (f : fieldlist -> string * jsval -> fieldlist) l acc,
            (forall d kv, NoDup (keys d) -> NoDup (keys (f d kv))) ->
            NoDup (keys acc) -> NoDup (keys (fold_left f l acc))) as Hfold.
  { intros f l. induction l as [|kv r IH]; intros acc Hf Hacc; [done|].
    cbn [fold_left]. apply IH; [done|]. by apply Hf. }
  apply Hfold.
  - intros d kv Hd. destruct (get_field (fst kv) fa); [done|].
    by apply NoDup_keys_set_field.
  - apply Hfold; [|apply NoDup_nil_2].
    intros d kv Hd. destruct (get_field (fst kv) fb) as [val2|];
      [|by apply NoDup_keys_set_field].
    rewrite _diffObjects_both_entry.
    destruct (isEqual _ _); [done|]. by apply NoDup_keys_set_field.
Qed.

Lemma merge_clone_leaf options val1 val2 :
  arrayStrategy options <> Some concat ->
  is_leaf val1 || is_leaf val2 = true ->
  wf val2 ->
  isEqual (_mergeValues options (cloneDeep val1) (cloneDeep val2)) val2 = true.
Proof.
  intros Hopt Hleaf Hwf.
  assert (_mergeValues options (cloneDeep val1) (cloneDeep val2)
          = cloneDeep (cloneDeep val2)) as ->.
  { destruct val1, val2; try done.
    cbn [cloneDeep _mergeValues]. unfold _mergeArrays.
    by destruct (arrayStrategy options) as [[]|]. }
  by rewrite !isEqual_cloneDeep_l, isEqual_refl.
Qed.

Lemma merge_diff_values mopts dopts :
  arrayStrategy mopts <> Some concat ->
  forall a b,
    is_leaf a = false -> is_leaf b = false ->
    wf a -> wf b -> keys_within a b = true -> ownkeys b = true ->
    isEqual (merge a (diff a b dopts) mopts) b = true.
Proof.
  intros Hopt a.
  induction a as [| | | | | |ma fa IH] using jsval_ind; try done.
  intros b _ Hb Hwfa Hwfb Hkeys Hown.
  destruct b as [| | | | | |mb fb]; try done.
  destruct (isEqual (VObj ma fa) (VObj mb fb)) eqn:Heq.
  { rewrite (diff_equal dopts _ _ Heq), merge_empty.
    by rewrite isEqual_cloneDeep_l. }
  rewrite (diff_obj dopts _ _ _ _ Heq).
  pose proof (proj1 (wf_obj ma fa) Hwfa) as [Hnda _].
  pose proof (proj1 (wf_obj mb fb) Hwfb) as [Hndb _].
  pose proof (ownkeys_keys mb fb Hown) as Hpb.
  pose proof (keys_within_proto ma fa mb fb Hkeys Hpb) as Hpa.
  set (D := _diffObjects_loop (_diffValues dopts) fa fb).
  assert (forall k, get_field k D = _) as HD
    by (intros k; apply (diff_loop_lookup dopts fa fb Hnda Hndb Hpa Hpb k)).
  assert ("__proto__" ∉ keys D) as HpD.
  { apply get_field_None. rewrite HD.
    apply get_field_None in Hpa, Hpb. by rewrite Hpa, Hpb. }
  unfold merge.
  change (cloneDeep (VObj ma fa))
    with (VObj None (map (fun kv => (fst kv, cloneDeep (snd kv))) fa)).
  cbn [_mergeValues].
  change (cloneDeep (VObj None ?fs))
    with (VObj None (map (fun kv => (fst kv, cloneDeep (snd kv))) fs)).
  rewrite map_clone_idemp.
  destruct (_mergeObjects_loop_lookup mopts D
              (map (fun kv => (fst kv, cloneDeep (snd kv))) fa)
              (diff_loop_NoDup dopts fa fb) HpD) as (F & -> & HF & HndF).
  apply isEqual_obj_pointwise; [|done|].
  { apply HndF. by rewrite keys_clone. }
  intros k. rewrite HF, HD, get_field_clone.
  destruct (get_field k fa) as [v1|] eqn:H1.
  - pose proof (proj1 (keys_within_obj ma fa mb fb) Hkeys k v1
                  (get_field_elem_of _ _ _ H1)) as (v2 & H2 & Hk12).
    rewrite H2.
    pose proof (wf_get_field ma fa k v1 Hwfa H1) as Hw1.
    pose proof (wf_get_field mb fb k v2 Hwfb H2) as Hw2.
    destruct (isEqual v1 v2) eqn:He.
    + simpl. by rewrite isEqual_cloneDeep_l.
    + simpl.
      destruct (is_leaf v1 || is_leaf v2) eqn:Hleaf.
      * rewrite (diff_entry_leaf dopts v1 v2 He Hleaf).
        by apply merge_clone_leaf.
      * apply orb_false_iff in Hleaf as [Hl1 Hl2].
        destruct v1 as [| | | | | |n1 g1]; try done.
        destruct v2 as [| | | | | |n2 g2]; try done.
        pose proof (proj1 (wf_obj n1 g1) Hw1) as [Hg1 _].
        pose proof (proj1 (wf_obj n2 g2) Hw2) as [Hg2 _].
        destruct (ownkeys_get_field mb fb k _ Hown H2) as [_ Hown2].
        pose proof (ownkeys_keys n2 g2 Hown2) as Hq2.
        pose proof (keys_within_proto n1 g1 n2 g2 Hk12 Hq2) as Hq1.
        destruct (diff_entry_obj dopts n1 g1 n2 g2 Hg1 Hg2 Hq1 Hq2 He)
          as [-> _].
        rewrite Forall_forall in IH.
        apply (IH (k, VObj n1 g1) (get_field_elem_of _ _ _ H1)); done.
  - destruct (get_field k fb) as [v2|] eqn:H2; [|done]. simpl.
    rewrite _mergeValues_undefined.
    rewrite !isEqual_cloneDeep_l. apply isEqual_refl.
    by apply (wf_get_field mb fb k v2).
Qed.

(** X24. Diff, then merge, on nested mappings: for mappings [a] and [b]
    such that every key of a mapping of [a] is a key of the mapping of [b]
    at the same place, and no key of [b] met through mappings is the name
    of a member of [Object.prototype], merging [diff(a, b)] into [a] gives
    a value that deep-equals [b], as long as sequences are not
    concatenated. *)
Theorem merge_diff_nested ma fa mb fb dopts mopts :
  wf (VObj ma fa) -> wf (VObj mb fb) ->
  keys_within (VObj ma fa) (VObj mb fb) = true ->
  ownkeys (VObj mb fb) = true ->
  arrayStrategy mopts <> Some concat ->
  isEqual (merge (VObj ma fa) (diff (VObj ma fa) (VObj mb fb) dopts) mopts)
          (VObj mb fb) = true.
Proof.
  intros Hwfa Hwfb Hkeys Hown Hopt. by apply merge_diff_values.
Qed.

Lemma merge_diff_nested_witness :
  isEqual
    (merge (VObj None [("a", VNum 1);
                       ("b", VObj None [("c", VNum 2); ("d", VArr [VNum 1])])])
           (diff (VObj None [("a", VNum 1);
                             ("b", VObj None [("c", VNum 2);
                                              ("d", VArr [VNum 1])])])
                 (VObj None [("a", VNum 1);
                             ("b", VObj None [("c", VNum 3);
                                              ("d", VArr [VNum 1; VNum 2]);
                                              ("e", VNull)])])
                 noDiffOptions)
           noMergeOptions)
    (VObj None [("a", VNum 1);
                ("b", VObj None [("c", VNum 3); ("d", VArr [VNum 1; VNum 2]);
                                 ("e", VNull)])]) = true.
Proof.
  apply (merge_diff_nested None
           [("a", VNum 1);
            ("b", VObj None [("c", VNum 2); ("d", VArr [VNum 1])])]
           None
           [("a", VNum 1);
            ("b", VObj None [("c", VNum 3); ("d", VArr [VNum 1; VNum 2]);
                             ("e", VNull)])]
           noDiffOptions noMergeOptions); try done.
  - simpl. repeat split; by apply (bool_decide_unpack (NoDup _)).
  - simpl. repeat split; by apply (bool_decide_unpack (NoDup _)).
Defined.

(** ** The subschemas that the schema traversal visits *)

Lemma _traverseSchemaRecursive_parts m fs currentPath propertyName parent :
  let node := VObj m fs in
  let traverse := _traverseSchemaRecursive in
  forall keyword handler,
    (keyword, handler)
    ∈ [("properties", _handleSchemaProperties);
       ("items", _handleSchemaItems);
       ("allOf", _handleSchemaCombiner "allOf");
       ("anyOf", _handleSchemaCombiner "anyOf");
       ("oneOf", _handleSchemaCombiner "oneOf");
       ("not", _handleSchemaNot);
       ("if", _handleSchemaConditional "if");
       ("then", _handleSchemaConditional "then");
       ("else", _handleSchemaConditional "else");
       ("dependentSchemas", _handleSchemaDependentSchemas);
       ("additionalProperties", _handleSchemaAdditionalOrPatternProperties);
       ("patternProperties", _handleSchemaAdditionalOrPatternProperties)] ->
    forall c,
      c ∈ on_keyword node keyword (handler node currentPath node traverse) ->
      c ∈ _traverseSchemaRecursive node currentPath propertyName parent.
Proof.
  intros node traverse keyword handler Hin c Hc.
  cbn [_traverseSchemaRecursive typeof_object is_null negb orb node].
  fold node. fold traverse. right.
  repeat (apply elem_of_cons in Hin as [[= -> ->]|Hin];
          [rewrite !elem_of_app; tauto|]).
  by apply elem_of_nil in Hin.
Qed.

Lemma forEach_elem {A} xs (body : jsval -> nat -> list A) i x c :
  xs !! i = Some x -> c ∈ body x i -> c ∈ forEach xs body.
Proof.
  unfold forEach.
  assert (forall n i,
            xs !! i = Some x -> c ∈ body x (n + i) ->
            c ∈ (fix go (i : nat) (l : list jsval) : list A :=
                   match l with
                   | [] => []
                   | x :: r => body x i ++ go (S i) r
                   end) n xs) as H.
  { clear i. induction xs as [|x1 r IH]; intros n i Hi Hc; [done|].
    apply elem_of_app. destruct i as [|i].
    - left. injection Hi as ->. by rewrite Nat.add_0_r in Hc.
    - right. apply (IH (S n) i Hi).
      by replace (S n + i) with (n + S i) by lia. }
  intros Hi Hc. by apply (H 0 i).
Qed.

(** X25. The schema traversal visits the schemas under every keyword it
    knows, with the path of the node: for a node that is a mapping, each
    subschema that is an object is visited with the node as parent and the
    path of the node; it has the index as property name when it is an
    element of a sequence under [items], and no property name when it is
    the one schema under [items], an element of [allOf], [anyOf] or
    [oneOf], the schema under [not], [if], [then], [else] or
    [additionalProperties], or a value of [dependentSchemas] or
    [patternProperties]. *)
Theorem traverseSchema_visits_subschemas m fs currentPath propertyName parent
    keyword sub :
  let node := VObj m fs in
  let visits := _traverseSchemaRecursive node currentPath propertyName parent in
  typeof_object sub = true -> is_null sub = false ->
  (forall itemSchemas i,
     get_field "items" fs = Some (VArr itemSchemas) ->
     itemSchemas !! i = Some sub ->
     SchemaTraversalContext.make sub currentPath (Some (pretty i)) (Some node)
     ∈ visits)
  /\ (get_field "items" fs = Some sub -> isArray sub = false ->
      SchemaTraversalContext.make sub currentPath None (Some node) ∈ visits)
  /\ (forall subSchemas i,
        keyword ∈ ["allOf"; "anyOf"; "oneOf"] ->
        get_field keyword fs = Some (VArr subSchemas) ->
        subSchemas !! i = Some sub ->
        SchemaTraversalContext.make sub currentPath None (Some node) ∈ visits)
  /\ (keyword ∈ ["not"; "if"; "then"; "else"; "additionalProperties"] ->
      get_field keyword fs = Some sub ->
      SchemaTraversalContext.make sub currentPath None (Some node) ∈ visits)
  /\ (forall gm gfs key,
        keyword ∈ ["dependentSchemas"; "patternProperties"] ->
        get_field keyword fs = Some (VObj gm gfs) ->
        (key, sub) ∈ gfs ->
        SchemaTraversalContext.make sub currentPath None (Some node) ∈ visits).
Proof.
  intros node visits Hobj Hnull.
  pose proof (_traverseSchemaRecursive_parts m fs currentPath propertyName
                parent) as Hparts. cbn zeta in Hparts.
  assert (forall n,
            SchemaTraversalContext.make sub currentPath n (Some (VObj m fs))
            ∈ _traverseSchemaRecursive sub currentPath n (Some (VObj m fs)))
    as Hhead.
  { intros n.
    destruct (_traverseSchemaRecursive_head sub currentPath n
                (Some (VObj m fs)) Hobj Hnull) as [tail ->]. left. }
  assert (truthy sub = true) as Htruthy by (by destruct sub).
  assert (forall kw, is_Some (get_field kw fs) ->
            forall (l : list SchemaTraversalContext),
              on_keyword (VObj m fs) kw l = l) as Hon.
  { intros kw Hkw l. rewrite on_keyword_get_field.
    by rewrite bool_decide_eq_true_2. }
  subst node visits.
  split; [|split; [|split; [|split]]].
  - intros itemSchemas i Hitems Hi.
    apply (Hparts "items" _handleSchemaItems); [set_solver|].
    rewrite Hon by (by eexists). unfold _handleSchemaItems.
    rewrite with_prop_get_field, Hitems. cbn [truthy].
    by apply (forEach_elem itemSchemas _ i sub).
  - intros Hitems Harr.
    apply (Hparts "items" _handleSchemaItems); [set_solver|].
    rewrite Hon by (by eexists). unfold _handleSchemaItems.
    rewrite with_prop_get_field, Hitems, Htruthy.
    destruct sub; try done; apply Hhead.
  - intros subSchemas i Hkw Hget Hi.
    assert (forall c,
              c ∈ on_keyword (VObj m fs) keyword
                    (_handleSchemaCombiner keyword (VObj m fs) currentPath
                       (VObj m fs) _traverseSchemaRecursive) ->
              c ∈ _traverseSchemaRecursive (VObj m fs) currentPath
                    propertyName parent) as Hpart.
    { repeat (apply elem_of_cons in Hkw as [->|Hkw];
              [apply Hparts; set_solver|]).
      by apply elem_of_nil in Hkw. }
    apply Hpart. rewrite Hon by (by eexists). unfold _handleSchemaCombiner.
    rewrite with_prop_get_field, Hget.
    by apply (forEach_elem subSchemas _ i sub).
  - intros Hkw Hget.
    apply elem_of_cons in Hkw as [->|Hkw].
    { apply (Hparts "not" _handleSchemaNot); [set_solver|].
      rewrite Hon by (by eexists). unfold _handleSchemaNot.
      rewrite with_prop_get_field, Hget, Hobj. apply Hhead. }
    apply elem_of_cons in Hkw as [->|Hkw].
    { apply (Hparts "if" (_handleSchemaConditional "if")); [set_solver|].
      rewrite Hon by (by eexists). unfold _handleSchemaConditional.
      rewrite with_prop_get_field, Hget, Hobj, Htruthy. apply Hhead. }
    apply elem_of_cons in Hkw as [->|Hkw].
    { apply (Hparts "then" (_handleSchemaConditional "then")); [set_solver|].
      rewrite Hon by (by eexists). unfold _handleSchemaConditional.
      rewrite with_prop_get_field, Hget, Hobj, Htruthy. apply Hhead. }
    apply elem_of_cons in Hkw as [->|Hkw].
    { apply (Hparts "else" (_handleSchemaConditional "else")); [set_solver|].
      rewrite Hon by (by eexists). unfold _handleSchemaConditional.
      rewrite with_prop_get_field, Hget, Hobj, Htruthy. apply Hhead. }
    apply list_elem_of_singleton in Hkw as ->.
    apply (Hparts "additionalProperties"
             _handleSchemaAdditionalOrPatternProperties); [set_solver|].
    rewrite Hon by (by eexists).
    unfold _handleSchemaAdditionalOrPatternProperties.
    rewrite with_prop_get_field, Hget, Hobj.
    apply elem_of_app. left. apply Hhead.
  - intros gm gfs key Hkw Hget Hin.
    apply elem_of_cons in Hkw as [->|Hkw].
    { apply (Hparts "dependentSchemas" _handleSchemaDependentSchemas);
        [set_solver|].
      rewrite Hon by (by eexists). unfold _handleSchemaDependentSchemas.
      rewrite with_prop_get_field, Hget. cbn [truthy].
      eapply for_in_obj_elem; [exact Hin|]. apply Hhead. }
    apply list_elem_of_singleton in Hkw as ->.
    apply (Hparts "patternProperties"
             _handleSchemaAdditionalOrPatternProperties); [set_solver|].
    rewrite Hon by (by eexists).
    unfold _handleSchemaAdditionalOrPatternProperties.
    rewrite (with_prop_get_field m fs "patternProperties"), Hget.
    cbn [truthy]. apply elem_of_app. right.
    eapply for_in_obj_elem; [exact Hin|]. apply Hhead.
Qed.

Lemma traverseSchema_visits_subschemas_witness :
  let sub := VObj None [("type", VStr "string")] in
  let node := VObj None [("type", VStr "array");
                         ("items", VArr [VObj None []; sub])] in
  SchemaTraversalContext.make sub [] (Some "1") (Some node)
  ∈ traverseSchema node.
Proof.
  intros sub node.
  destruct (traverseSchema_visits_subschemas None
              [("type", VStr "array"); ("items", VArr [VObj None []; sub])]
              [] None None "items" sub eq_refl eq_refl) as (Htuple & _).
  by apply (Htuple [VObj None []; sub] 1).
Defined.

(** ** The hidden properties and the metadata map *)

Lemma recorded_in_metadata options sources ks r :
  Forall good_source sources ->
  recorded ks (mergedObject (mergeAllWithMetadata sources options)) = Some r ->
  Forall (fun k => goodkey k = true) ks
  /\ metadata (mergeAllWithMetadata sources options) !! pathOf ks = Some r.
Proof.
  intros Hgood Hr.
  destruct sources as [|s l _] using rev_ind; [by destruct ks as [|k [|k' q]]|].
  pose proof (merge_invariant_all options (l ++ [s]) Hgood)
    as (Hwf & Htree & _ & _).
  pose proof Htree as (Hkeys & _ & Hstores).
  destruct (Hstores ks r Hr) as (x & Hx & _).
  pose proof (Hkeys ks x Hx) as Hks. split; [done|].
  revert Hwf Htree Hr. rewrite mergeAllWithMetadata_snoc. intros Hwf Htree Hr.
  rewrite mergeStep_metadata, write_all_collected by done.
  by rewrite Hr.
Qed.

(** X26. The two views of the provenance agree where both have an entry:
    when the keys of the sources that are met through mappings are not
    empty, hold no ['.'] and are not [__proto__], every entry that the
    hidden property of a
    mapping of the merged value holds for one of its attributes is the
    entry of the returned metadata under the path of the attribute. *)
Theorem accessor_entries_in_metadata sources options ks r :
  Forall good_source sources ->
  let st := mergeAllWithMetadata sources options in
  recorded ks (mergedObject st) = Some r ->
  metadata st !! Array_join "." ks = Some r.
Proof.
  intros Hgood st Hr.
  destruct (recorded_in_metadata options sources ks r Hgood Hr) as [Hks Hmd].
  by rewrite <- (pathOf_join ks Hks).
Qed.

Lemma accessor_entries_in_metadata_witness :
  let st := mergeAllWithMetadata
              [SourceObject.make (VStr "1")
                 (VObj None [("a", VObj None [("b", VNum 1)])])]
              noMergeOptions in
  metadata st !! "a.b" = Some (mkPathMetadata (VStr "1") "a.b" (VNum 1)).
Proof.
  intros st.
  apply (accessor_entries_in_metadata
           [SourceObject.make (VStr "1")
              (VObj None [("a", VObj None [("b", VNum 1)])])]
           noMergeOptions ["a"; "b"]).
  - apply Forall_cons_2; [|apply Forall_nil_2].
    split; [|reflexivity].
    simpl. repeat split; by apply (bool_decide_unpack (NoDup _)).
  - reflexivity.
Defined.

(** ** Entries after their last writer *)

Lemma step_keeps_entry options l t ks :
  Forall good_source l -> good_source t ->
  Forall (fun s => scalar (SourceObject.id s) = true) l ->
  ks <> [] -> Forall (fun k => goodkey k = true) ks ->
  writes ks t = false ->
  metadata (mergeAllWithMetadata (l ++ [t]) options) !! pathOf ks
  = metadata (mergeAllWithMetadata l options) !! pathOf ks.
Proof.
  intros Hgood Ht Hids Hne Hks Hw.
  rewrite mergeAllWithMetadata_snoc.
  set (st := mergeAllWithMetadata l options) in *.
  pose proof (merge_invariant_all options l Hgood) as Hinv. fold st in Hinv.
  pose proof (merge_invariant_step options st t Hinv Ht)
    as (Hwf' & Htree' & _ & _).
  rewrite mergeStep_metadata, write_all_collected by done.
  destruct (recorded ks (mergedObject (mergeStep options st t)))
    as [r|] eqn:Hr; [|done].
  symmetry. revert Hr. rewrite mergeStep_mergedObject.
  destruct (is_undefined (SourceObject.data t)) eqn:Hu.
  - destruct (SourceObject.data t); try done.
    unfold mergedValue. cbn [_mergeRecursiveWithMetadata fst]. intros Hr.
    by destruct (recorded_in_metadata options l ks r Hgood Hr).
  - destruct Ht as [Hwft Hgt].
    destruct (recorded_merged options (SourceObject.id t)
                (SourceObject.data t) (mergedObject st) (pathOf []) ks
                Hwft Hgt Hu Hne) as [_ H2]. cbn zeta in H2.
    intros Hr.
    assert (forall v, lookup_path ks (SourceObject.data t) = Some v ->
                      is_undefined v = true) as Hnot.
    { intros v Hv. unfold writes in Hw. rewrite Hv in Hw.
      by destruct (is_undefined v). }
    destruct (H2 Hnot r Hr) as (k & r0 & -> & Hr0 & ->).
    destruct (recorded_in_metadata options l [k] r0 Hgood Hr0) as [_ Hmd].
    fold st in Hmd. rewrite Hmd. f_equal.
    destruct Hinv as (_ & (_ & _ & Hstores) & _ & _).
    destruct (Hstores [k] r0 Hr0) as (x & _ & _ & Hval).
    destruct (last_writer_invariant options l Hgood Hids [k] Hne Hks)
      as [_ Hstore].
    pose proof (last_writer_scalar [k] l (sourceId r0) Hids
                  (eq_sym (Hstore r0 Hr0))) as Hs.
    unfold cloneDeepMeta. rewrite Hval, cloneDeep_idemp.
    rewrite (scalar_cloneDeep _ Hs). rewrite <- Hval. by destruct r0.
Qed.

Lemma more_keep_entry options sources more ks :
  Forall good_source (sources ++ more) ->
  Forall (fun s => scalar (SourceObject.id s) = true) (sources ++ more) ->
  ks <> [] -> Forall (fun k => goodkey k = true) ks ->
  Forall (fun s => writes ks s = false) more ->
  metadata (mergeAllWithMetadata (sources ++ more) options) !! pathOf ks
  = metadata (mergeAllWithMetadata sources options) !! pathOf ks.
Proof.
  intros Hgood Hids Hne Hks.
  induction more as [|t more IH] using rev_ind; intros Hmore.
  - by rewrite app_nil_r.
  - rewrite app_assoc in Hgood, Hids |- *.
    apply Forall_snoc_inv in Hgood as [Hgood Ht].
    apply Forall_snoc_inv in Hids as [Hids _].
    apply Forall_snoc_inv in Hmore as [Hmore Hw].
    rewrite step_keeps_entry by done. by apply IH.
Qed.

(** X27. An entry of the metadata stays as its last writer left it. When
    the keys of the sources that are met through mappings are not empty,
    hold no ['.'] and are not [__proto__], and the [id]s are scalars:
    sources that do not write
    the attribute at the keys [ks] (their data holds no value along [ks],
    or [undefined]) leave the entry of the metadata for its path unchanged,
    its value included, whether they keep the attribute, remove it or
    replace a mapping above it. *)
Theorem entry_unchanged_by_other_sources sources more options ks :
  Forall good_source (sources ++ more) ->
  Forall (fun s => scalar (SourceObject.id s) = true) (sources ++ more) ->
  ks <> [] -> Forall (fun k => goodkey k = true) ks ->
  Forall (fun s => writes ks s = false) more ->
  metadata (mergeAllWithMetadata (sources ++ more) options)
    !! Array_join "." ks
  = metadata (mergeAllWithMetadata sources options) !! Array_join "." ks.
Proof.
  intros Hgood Hids Hne Hks Hmore. rewrite <- (pathOf_join ks Hks).
  by apply more_keep_entry.
Qed.

Lemma entry_unchanged_by_other_sources_witness :
  metadata
    (mergeAllWithMetadata
       ([SourceObject.make (VStr "1")
           (VObj None [("a", VObj None [("b", VNum 1)])])]
        ++ [SourceObject.make (VStr "2")
              (VObj None [("a", VObj None [("c", VNum 2)])]);
            SourceObject.make (VStr "3") (VObj None [("a", VUndef)])])
       noMergeOptions) !! "a.b"
  = Some (mkPathMetadata (VStr "1") "a.b" (VNum 1)).
Proof.
  etrans; [|reflexivity].
  apply (entry_unchanged_by_other_sources
           [SourceObject.make (VStr "1")
              (VObj None [("a", VObj None [("b", VNum 1)])])]
           [SourceObject.make (VStr "2")
              (VObj None [("a", VObj None [("c", VNum 2)])]);
            SourceObject.make (VStr "3") (VObj None [("a", VUndef)])]
           noMergeOptions ["a"; "b"]).
  - repeat (apply Forall_cons_2;
            [split; [simpl; repeat split;
                     by apply (bool_decide_unpack (NoDup _))
                    | reflexivity]|]).
    apply Forall_nil_2.
  - by repeat constructor.
  - done.
  - by repeat constructor.
  - by repeat constructor.
Defined.

(** X28. An entry of the metadata is the record of the last write. When
    the keys of the sources that are met through mappings are not empty,
    hold no ['.'] and are not [__proto__], and the [id]s are scalars: if
    the source [s] writes
    the attribute at the keys [ks] and no later source does, the entry for
    the path of the attribute is made of the [id] of [s], the path, and a
    clone of the value that the merged value held at [ks] right after [s],
    whatever the later sources have made of the attribute. *)
Theorem entry_is_last_write previous s later options ks :
  Forall good_source (previous ++ [s] ++ later) ->
  Forall (fun s => scalar (SourceObject.id s) = true)
         (previous ++ [s] ++ later) ->
  ks <> [] -> Forall (fun k => goodkey k = true) ks ->
  writes ks s = true ->
  Forall (fun t => writes ks t = false) later ->
  exists x,
    lookup_path ks (mergedObject (mergeAllWithMetadata (previous ++ [s]) options))
    = Some x
    /\ metadata (mergeAllWithMetadata (previous ++ [s] ++ later) options)
         !! Array_join "." ks
       = Some (mkPathMetadata (SourceObject.id s) (Array_join "." ks)
                              (cloneDeep x)).
Proof.
  intros Hgood Hids Hne Hks Hw Hlater.
  rewrite app_assoc in Hgood, Hids |- *.
  rewrite <- (pathOf_join ks Hks).
  rewrite (more_keep_entry options (previous ++ [s]) later ks) by done.
  apply Forall_app in Hgood as [Hgood _].
  pose proof (merge_invariant_all options (previous ++ [s]) Hgood)
    as (_ & (_ & _ & Hstores) & _ & _).
  assert (exists r,
            recorded ks (mergedObject
                           (mergeAllWithMetadata (previous ++ [s]) options))
            = Some r /\ sourceId r = SourceObject.id s) as (r & Hr & Hid).
  { rewrite mergeAllWithMetadata_snoc, mergeStep_mergedObject.
    apply Forall_snoc_inv in Hgood as [_ [Hwfs Hgs]].
    unfold writes in Hw.
    destruct (lookup_path ks (SourceObject.data s)) as [v|] eqn:Hv; [|done].
    assert (is_undefined (SourceObject.data s) = false) as Hu.
    { destruct (SourceObject.data s); try done. by destruct ks. }
    destruct (recorded_merged options (SourceObject.id s)
                (SourceObject.data s)
                (mergedObject (mergeAllWithMetadata previous options))
                (pathOf []) ks Hwfs Hgs Hu Hne) as [H1 _]. cbn zeta in H1.
    apply (H1 v Hv). by destruct (is_undefined v). }
  destruct (Hstores ks r Hr) as (x & Hx & Hpath & Hval). simpl in Hpath.
  exists x. split; [done|].
  destruct (recorded_in_metadata options (previous ++ [s]) ks r Hgood Hr)
    as [_ ->].
  f_equal. destruct r as [i p v]. simpl in *. by subst.
Qed.

Lemma entry_is_last_write_witness :
  exists x,
    lookup_path ["a"]
      (mergedObject
         (mergeAllWithMetadata
            ([SourceObject.make (VStr "1") (VObj None [("a", VNum 1)])]
             ++ [SourceObject.make (VStr "2") (VObj None [("a", VNum 2)])])
            noMergeOptions)) = Some x
    /\ metadata
         (mergeAllWithMetadata
            ([SourceObject.make (VStr "1") (VObj None [("a", VNum 1)])]
             ++ [SourceObject.make (VStr "2") (VObj None [("a", VNum 2)])]
             ++ [SourceObject.make (VStr "3") (VObj None [("a", VUndef)])])
            noMergeOptions) !! Array_join "." ["a"]
       = Some (mkPathMetadata (VStr "2") (Array_join "." ["a"]) (cloneDeep x)).
Proof.
  apply (entry_is_last_write
           [SourceObject.make (VStr "1") (VObj None [("a", VNum 1)])]
           (SourceObject.make (VStr "2") (VObj None [("a", VNum 2)]))
           [SourceObject.make (VStr "3") (VObj None [("a", VUndef)])]
           noMergeOptions ["a"]).
  - repeat (apply Forall_cons_2;
            [split; [simpl; repeat split;
                     by apply (bool_decide_unpack (NoDup _))
                    | reflexivity]|]).
    apply Forall_nil_2.
  - by repeat constructor.
  - done.
  - by repeat constructor.
  - reflexivity.
  - by repeat constructor.
Defined.
